(** * lead-azul: session lifecycle, key store and event normalisation

    A shallow embedding of the WhatsApp provider layer of the backend
    ([providers/WhatsApp/Implementations/whaileys.ts] and [wwebjs.ts]),
    of the hybrid key store ([services/WppKeyServices], [libs/redisStore.ts]),
    of [CreateOrUpdateContactService], of [handleMessageAck] and the helpers
    of [handleMessage], and of the services that call the provider
    ([services/WbotServices]), followed by the properties that the design
    document states about them and by further properties of the code.

    Conventions.  JavaScript [Map]s and plain objects used as dictionaries
    are finite maps ([gmap]); JavaScript objects with identity (sockets,
    timers) live in an explicit heap indexed by allocation number; thrown
    errors are a sum type; calls into the client libraries and into the
    network are inputs of the embedded functions. *)

From Stdlib Require Import ZArith Lia Ascii String List.
From stdpp Require Import gmap strings list sorting pretty.

Local Open Scope string_scope.
Local Open Scope list_scope.
Local Open Scope Z_scope.

(** ** JavaScript strings

    Strings are sequences of bytes, non-ASCII text being in UTF-8. *)

Module Js.

(** [a || b] on an optional string: an absent or empty [a] yields [b]. *)
Definition orElse (a : option string) (b : string) : string :=
  match a with
  | Some s => if decide (s = "") then b else s
  | None => b
  end.

Definition startsWith (p s : string) : bool := String.prefix p s.

Fixpoint includes (needle s : string) : bool :=
  String.prefix needle s ||
  match s with
  | EmptyString => false
  | String _ s' => includes needle s'
  end.

Fixpoint endsWith (suffix s : string) : bool :=
  String.eqb suffix s ||
  match s with
  | EmptyString => false
  | String _ s' => endsWith suffix s'
  end.

Definition isDigit (c : ascii) : bool :=
  bool_decide (48 ≤ nat_of_ascii c ≤ 57)%nat.

(** [s.replace(/\D/g, "")], which is also [s.replace(/[^0-9]/g, "")]. *)
Fixpoint onlyDigits (s : string) : string :=
  match s with
  | EmptyString => EmptyString
  | String c s' =>
      if isDigit c then String c (onlyDigits s') else onlyDigits s'
  end.

Definition lowerChar (c : ascii) : ascii :=
  let n := nat_of_ascii c in
  if bool_decide (65 ≤ n ≤ 90)%nat then ascii_of_nat (n + 32) else c.

Fixpoint toLowerCase (s : string) : string :=
  match s with
  | EmptyString => EmptyString
  | String c s' => String (lowerChar c) (toLowerCase s')
  end.

(** [s.split(sep)] for a one-character separator. *)
Fixpoint split (sep : ascii) (s : string) : list string :=
  match s with
  | EmptyString => [EmptyString]
  | String c s' =>
      if decide (c = sep) then EmptyString :: split sep s'
      else match split sep s' with
           | f :: fs => String c f :: fs
           | [] => [String c EmptyString]
           end
  end.

(** [parts.join(sep)]. *)
Definition join (sep : string) (parts : list string) : string :=
  String.concat sep parts.

(** U+200E LEFT-TO-RIGHT MARK, in UTF-8. *)
Definition LRM : string :=
  String (ascii_of_nat 226) (String (ascii_of_nat 128)
    (String (ascii_of_nat 142) EmptyString)).

(** [/\u200e/.test(body[0])]: the first character of [body] is U+200E
    (for an empty [body] the test is made on "undefined" and fails). *)
Definition beginsWithLRM (body : string) : bool := String.prefix LRM body.

(** A number as a template literal renders it. *)
Definition Rendered : Type := string.

End Js.

(** ** Errors

    [AppError] is the error type of the application ([errors/AppError]);
    [JsError] is any other JavaScript error: a plain [Error], a [TypeError],
    what a call into a client library or into the database rejects with. *)

Record AppError := mkAppError { message : string; statusCode : Z }.

(** [new AppError(msg)] has status code 400 unless one is given. *)
Definition appError (msg : string) : AppError := mkAppError msg 400.

Inductive Error :=
| App (e : AppError)
| JsError (description : string).

Inductive Result (A : Type) : Type :=
| Returned (a : A)
| Thrown (e : Error).
Arguments Returned {A} a.
Arguments Thrown {A} e.

(** ** Canonical payloads ([providers/WhatsApp/types],
       [handlers/handleWhatsappEvents]) *)

Module Canonical.

Inductive MessageType :=
| chat | audio | ptt | video | image | document | vcard | sticker | location.

#[global] Instance MessageType_eq_dec : EqDecision MessageType.
Proof. solve_decision. Defined.

(** [MessageAck = 0 | 1 | 2 | 3 | 4]: PENDING, SERVER, DEVICE, READ, PLAYED. *)
Definition MessageAck : Type := Z.

Record ProviderMessage := mkProviderMessage {
pm_id : string;
pm_body : string;
pm_fromMe : bool;
pm_hasMedia : bool;
pm_type : MessageType;
pm_timestamp : Z;
pm_from : string;
pm_to : string;
pm_hasQuotedMsg : option bool;
pm_ack : option MessageAck
}.

Record MessagePayload := mkMessagePayload {
mp_id : string;
mp_body : string;
mp_fromMe : bool;
mp_hasMedia : bool;
mp_type : MessageType;
mp_timestamp : Z;
mp_from : string;
mp_to : string;
mp_hasQuotedMsg : option bool;
mp_quotedMsgId : option string;
mp_ack : option MessageAck
}.

End Canonical.

Import Canonical.

(** ** Session registry ([sessions], [stores], [assertUnique], [init]) *)

Module Registry.

(** A live socket object ([Session extends WASocket]).  [listeners] is the
    list of event names on which a listener is currently registered on
    [wbot.ev]; [ended] records that [wbot.end] was called. *)
Record Session := mkSession {
  id : Z;
  store : option nat;
  listeners : list string;
  ended : bool
}.

(** Process state: the heap of socket objects ever created, the two
    module-level maps, and the allocation counters. *)
Record State := mkState {
  heap : gmap nat Session;
  sessions : gmap Z nat;
  stores : gmap Z nat;
  nextSocket : nat;
  nextStore : nat
}.

Definition initial : State := mkState ∅ ∅ ∅ 0%nat 0%nat.

Definition removeAllListeners (ev : string) (w : Session) : Session :=
  mkSession (id w) (store w)
            (List.filter (fun e => negb (String.eqb e ev)) (listeners w))
            (ended w).

Definition end_ (w : Session) : Session :=
  mkSession (id w) (store w) (listeners w) true.

(** [assertUnique]: when the registry holds a socket for [sessionId], drop
    its "connection.update" listeners, evict it from both maps, end it. *)
Definition assertUnique (sessionId : Z) (st : State) : State :=
  match sessions st !! sessionId with
  | Some k =>
      mkState (alter (fun w => end_ (removeAllListeners "connection.update" w))
                     k (heap st))
              (delete sessionId (sessions st))
              (delete sessionId (stores st))
              (nextSocket st) (nextStore st)
  | None => st
  end.

(** The listeners that [init] registers on the new socket, in the order of
    the [wbot.ev.on] calls. *)
Definition initListeners : list string :=
  [ "creds.update"; "messages.upsert"; "connection.update";
    "messages.update"; "message-receipt.update" ].

(** First part of [init], up to the first suspension point: the in-memory
    store is created and recorded in [stores].  Returns the store. *)
Definition initPrepare (sessionId : Z) (st : State) : nat * State :=
  let s := nextStore st in
  (s, mkState (heap st) (sessions st) (<[sessionId := s]> (stores st))
              (nextSocket st) (S s)).

(** Second part of [init], which runs without suspension:
    [assertUnique], [makeWASocket], [sessions.set], listener registration. *)
Definition initAttach (sessionId : Z) (s : nat) (st : State) : State :=
  let st1 := assertUnique sessionId st in
  let k := nextSocket st1 in
  let wbot := mkSession sessionId (Some s) initListeners false in
  mkState (<[k := wbot]> (heap st1))
          (<[sessionId := k]> (sessions st1))
          (stores st1)
          (S k) (nextStore st1).

Definition init (sessionId : Z) (st : State) : State :=
  let '(s, st1) := initPrepare sessionId st in
  initAttach sessionId s st1.

(** Atomic steps of concurrent [init] calls; a schedule is a list of them.
    [Attach] runs with the store made by an earlier [Prepare] of the same
    call, which the schedule names. *)
Inductive Step :=
| Prepare (sessionId : Z)
| Attach (sessionId : Z) (s : nat).

Definition step (st : State) (x : Step) : State :=
  match x with
  | Prepare i => snd (initPrepare i st)
  | Attach i s => initAttach i s st
  end.

Definition run (sched : list Step) (st : State) : State :=
  fold_left step sched st.

(** The sockets of connection [sessionId] that have not been ended. *)
Definition live (sessionId : Z) (st : State) : gmap nat Session :=
  filter (fun kw => id (snd kw) = sessionId ∧ ended (snd kw) = false)
         (heap st).

(** A socket after [assertUnique] is done with it. *)
Definition tornDown (w : Session) : Prop :=
  ended w = true ∧ "connection.update" ∉ listeners w.

(** Every socket that was not ended is the one registered for its id, and
    every registered socket exists, carries its key and is not ended. *)
Record registry_inv (st : State) : Prop := {
  inv_live : ∀ k w, heap st !! k = Some w → ended w = false →
                    sessions st !! id w = Some k;
  inv_dead : ∀ k w, heap st !! k = Some w → ended w = true → tornDown w;
  inv_reg : ∀ i k, sessions st !! i = Some k →
                   ∃ w, heap st !! k = Some w ∧ id w = i ∧ ended w = false;
  inv_fresh : ∀ k, (nextSocket st ≤ k)%nat → heap st !! k = None
}.

End Registry.

(** ** Credential debouncer ([saveSessionCreds], [flushPendingCredsSave],
       [debouncedSaveCreds]) and the handlers that flush it *)

Module Creds.

(** The columns of a [Whatsapp] row that the provider writes. *)
Record Whatsapp := mkWhatsapp {
  session : string;
  status : string;
  qrcode : string;
  retries : Z
}.

(** The argument of [whatsapp.update({...})]: the columns that are given. *)
Record Patch := mkPatch {
  p_session : option string;
  p_status : option string;
  p_qrcode : option string;
  p_retries : option Z
}.

Definition applyPatch (p : Patch) (w : Whatsapp) : Whatsapp :=
  mkWhatsapp (default (session w) (p_session p))
             (default (status w) (p_status p))
             (default (qrcode w) (p_qrcode p))
             (default (retries w) (p_retries p)).

(** A pending [setTimeout]: when it is due, and the [whatsapp] and [creds]
    that its callback closes over. *)
Record Timer := mkTimer {
  deadline : Z;
  t_whatsapp : Z;
  t_creds : nat
}.

#[global] Instance Timer_eq_dec : EqDecision Timer.
Proof. solve_decision. Defined.

(** What the provider does to the outside, in order. *)
Inductive Effect :=
| Update (wid : Z) (p : Patch)      (* whatsapp.update(p) *)
| EmitSession (wid : Z)             (* io.emit("whatsappSession", ...) *)
| ClearSessionKeys (wid : Z)
| SocketLogout (wid : Z)            (* wbot.logout() *)
| TearDown (wid : Z)                (* socket part of removeSession *)
| Sleep (ms : Z)
| Reinit (wid : Z).                 (* init(whatsapp) *)

(** [creds] is one object per connection ([state.creds]) that the client
    library changes in place; [credsObjects r] is what
    [JSON.stringify(creds, BufferJSON.replacer)] yields for object [r] now.
    [timers] is the event loop's table of pending timeouts;
    [credsDebounceTimers] and [pendingCredsSaves] are the module's maps. *)
Record State := mkState {
  now : Z;
  timers : gmap nat Timer;
  nextTimer : nat;
  credsDebounceTimers : gmap Z nat;
  pendingCredsSaves : gmap Z (Z * nat);
  credsObjects : nat → string;
  whatsapps : gmap Z Whatsapp;
  log : list Effect
}.

Definition initial (rows : gmap Z Whatsapp) : State :=
  mkState 0 ∅ 0%nat ∅ ∅ (fun _ => "{}") rows [].

Definition setNow (t : Z) (st : State) : State :=
  mkState t (timers st) (nextTimer st) (credsDebounceTimers st)
          (pendingCredsSaves st) (credsObjects st) (whatsapps st) (log st).

Definition setTimers (ts : gmap nat Timer) (st : State) : State :=
  mkState (now st) ts (nextTimer st) (credsDebounceTimers st)
          (pendingCredsSaves st) (credsObjects st) (whatsapps st) (log st).

Definition setDebounceTimers (m : gmap Z nat) (st : State) : State :=
  mkState (now st) (timers st) (nextTimer st) m
          (pendingCredsSaves st) (credsObjects st) (whatsapps st) (log st).

Definition setPending (m : gmap Z (Z * nat)) (st : State) : State :=
  mkState (now st) (timers st) (nextTimer st) (credsDebounceTimers st)
          m (credsObjects st) (whatsapps st) (log st).

Definition setCredsObject (r : nat) (content : string) (st : State) : State :=
  mkState (now st) (timers st) (nextTimer st) (credsDebounceTimers st)
          (pendingCredsSaves st)
          (fun r' => if decide (r' = r) then content else credsObjects st r')
          (whatsapps st) (log st).

Definition emit (e : Effect) (st : State) : State :=
  mkState (now st) (timers st) (nextTimer st) (credsDebounceTimers st)
          (pendingCredsSaves st) (credsObjects st) (whatsapps st)
          (log st ++ [e]).

(** [whatsapp.update(p)] on the row of connection [wid]. *)
Definition whatsappUpdate (wid : Z) (p : Patch) (st : State) : State :=
  emit (Update wid p)
    (mkState (now st) (timers st) (nextTimer st) (credsDebounceTimers st)
             (pendingCredsSaves st) (credsObjects st)
             (alter (applyPatch p) wid (whatsapps st)) (log st)).

(** [saveSessionCreds]: the credentials are serialised when the write is
    made, and the row is also put in status CONNECTED with no QR code. *)
Definition credsPatch (content : string) : Patch :=
  mkPatch (Some content) (Some "CONNECTED") (Some "") None.

Definition saveSessionCreds (wid : Z) (creds : nat) (st : State) : State :=
  whatsappUpdate wid (credsPatch (credsObjects st creds)) st.

Definition clearTimeout (k : nat) (st : State) : State :=
  setTimers (delete k (timers st)) st.

Definition flushPendingCredsSave (sessionId : Z) (st : State) : State :=
  let st1 :=
    match credsDebounceTimers st !! sessionId with
    | Some k =>
        setDebounceTimers (delete sessionId (credsDebounceTimers st))
                          (clearTimeout k st)
    | None => st
    end in
  match pendingCredsSaves st1 !! sessionId with
  | Some (w, c) =>
      saveSessionCreds w c
        (setPending (delete sessionId (pendingCredsSaves st1)) st1)
  | None => st1
  end.

Definition defaultDelayMs : Z := 1000.

Definition debouncedSaveCredsAfter
    (delayMs : Z) (whatsapp : Z) (creds : nat) (st : State) : State :=
  let sessionId := whatsapp in
  let st1 :=
    match credsDebounceTimers st !! sessionId with
    | Some k => clearTimeout k st
    | None => st
    end in
  let st2 :=
    setPending (<[sessionId := (whatsapp, creds)]> (pendingCredsSaves st1))
               st1 in
  let k := nextTimer st2 in
  let timer := mkTimer (now st2 + delayMs) whatsapp creds in
  mkState (now st2) (<[k := timer]> (timers st2)) (S k)
          (<[sessionId := k]> (credsDebounceTimers st2))
          (pendingCredsSaves st2) (credsObjects st2) (whatsapps st2)
          (log st2).

Definition debouncedSaveCreds : Z → nat → State → State :=
  debouncedSaveCredsAfter defaultDelayMs.

(** The callback of the timeout set by [debouncedSaveCreds]; a timeout
    that has run is no longer pending. *)
Definition fire (kt : nat * Timer) (st : State) : State :=
  let '(k, t) := kt in
  let st1 := clearTimeout k st in
  let st2 :=
    setDebounceTimers (delete (t_whatsapp t) (credsDebounceTimers st1)) st1 in
  let st3 :=
    setPending (delete (t_whatsapp t) (pendingCredsSaves st2)) st2 in
  saveSessionCreds (t_whatsapp t) (t_creds t) st3.

(** Timeouts run in the order of their deadlines; timeouts with the same
    deadline run in the order in which they were set. *)
Definition timer_le (a b : nat * Timer) : Prop :=
  deadline (snd a) < deadline (snd b) ∨
  (deadline (snd a) = deadline (snd b) ∧ (fst a ≤ fst b)%nat).

#[global] Instance timer_le_dec : RelDecision timer_le.
Proof. intros a b. unfold timer_le. apply _. Defined.

Definition dueTimers (st : State) : list (nat * Timer) :=
  merge_sort timer_le
    (filter (fun kt => (deadline (snd kt) ≤ now st)%Z)
            (map_to_list (timers st))).

(** [dt] milliseconds pass and the event loop runs the timeouts now due. *)
Definition advance (dt : Z) (st : State) : State :=
  let st1 := setNow (now st + dt) st in
  fold_left (fun s kt => fire kt s) (dueTimers st1) st1.

Definition sleep (ms : Z) (st : State) : State :=
  advance ms (emit (Sleep ms) st).

(** [removeSession], as far as this module is concerned: the pending write
    is flushed, then the socket is taken down. *)
Definition removeSession (whatsappId : Z) (st : State) : State :=
  emit (TearDown whatsappId) (flushPendingCredsSave whatsappId st).

(** What the handler reads from [lastDisconnect.error], a [Boom] error. *)
Record Boom := mkBoom {
  outputStatusCode : option Z;
  payloadMessage : option string;
  errorMessageField : option string
}.

Record ConnectionUpdate := mkConnectionUpdate {
  connection : option string;
  lastDisconnect : option Boom;
  qr : option string
}.

(** [DisconnectReason.loggedOut] of the client library. *)
Definition loggedOut : Z := 401.

Definition emitIfFound (wid : Z) (st : State) : State :=
  match whatsapps st !! wid with
  | Some _ => emit (EmitSession wid) st
  | None => st
  end.

Definition openingPatch : Patch := mkPatch None (Some "OPENING") None None.

Definition connectedPatch : Patch :=
  mkPatch None (Some "CONNECTED") (Some "") (Some 0).

Definition disconnectedPatch : Patch :=
  mkPatch None (Some "DISCONNECTED") (Some "") (Some 0).

Definition onOpen (sessionId : Z) (st : State) : State :=
  let st1 := flushPendingCredsSave sessionId st in
  let st2 := whatsappUpdate sessionId connectedPatch st1 in
  emitIfFound sessionId st2.

Definition onQr (sessionId : Z) (code : string) (st : State) : State :=
  emit (EmitSession sessionId)
    (whatsappUpdate sessionId
       (mkPatch None (Some "qrcode") (Some code) None) st).

Definition afterClose (sessionId : Z) (u : ConnectionUpdate) (st : State)
  : State :=
  let st1 :=
    if decide (connection u = Some "open") then onOpen sessionId st else st in
  match qr u with
  | Some code => onQr sessionId code st1
  | None => st1
  end.

(** [statusCode] and [errorMessage] as the listener computes them from
    [lastDisconnect?.error]. *)
Definition statusCodeOf (u : ConnectionUpdate) : option Z :=
  lastDisconnect u ≫= outputStatusCode.

Definition errorMessageOf (u : ConnectionUpdate) : string :=
  Js.orElse (lastDisconnect u ≫= payloadMessage)
            (Js.orElse (lastDisconnect u ≫= errorMessageField) "").

(** The "connection.update" listener registered by [init]. *)
Definition onConnectionUpdate
    (sessionId : Z) (u : ConnectionUpdate) (st : State) : State :=
  if decide (connection u = Some "close") then
    if decide (errorMessageOf u = "Intentional Logout") then
      let st1 := whatsappUpdate sessionId disconnectedPatch st in
      let st2 := emitIfFound sessionId st1 in
      let st3 := emit (ClearSessionKeys sessionId) st2 in
      removeSession sessionId st3
    else if decide (statusCodeOf u = Some loggedOut) then
      let st1 := whatsappUpdate sessionId disconnectedPatch st in
      let st2 := emitIfFound sessionId st1 in
      removeSession sessionId st2
    else
      (* shouldReconnect = statusCode !== DisconnectReason.loggedOut *)
      let st1 := flushPendingCredsSave sessionId st in
      let st2 := whatsappUpdate sessionId openingPatch st1 in
      let st3 := emit (EmitSession sessionId) st2 in
      let st4 := sleep 3000 st3 in
      let st5 := emit (Reinit sessionId) st4 in
      afterClose sessionId u st5
  else afterClose sessionId u st.

Definition loggedOutPatch : Patch :=
  mkPatch (Some "") (Some "DISCONNECTED") (Some "") (Some 0).

(** [logout] of the provider; [live] tells whether the registry holds a
    socket for [sessionId]. *)
Definition logout (sessionId : Z) (live : bool) (st : State) : State :=
  let st1 := flushPendingCredsSave sessionId st in
  let st2 := if live then emit (SocketLogout sessionId) st1 else st1 in
  let st3 := removeSession sessionId st2 in
  let st4 :=
    match whatsapps st3 !! sessionId with
    | Some _ =>
        emitIfFound sessionId (whatsappUpdate sessionId loggedOutPatch st3)
    | None => st3
    end in
  emit (ClearSessionKeys sessionId) st4.

(** What can happen to the debouncer, one at a time. *)
Inductive Event :=
| CredsChanged (creds : nat) (content : string)  (* the library rewrites creds *)
| CredsUpdate (wid : Z) (creds : nat)            (* "creds.update" listener *)
| Advance (dt : Z)
| Flush (wid : Z)
| ConnectionEvent (wid : Z) (u : ConnectionUpdate)
| Logout (wid : Z) (live : bool).

Definition handle (st : State) (e : Event) : State :=
  match e with
  | CredsChanged r c => setCredsObject r c st
  | CredsUpdate wid r => debouncedSaveCreds wid r st
  | Advance dt => advance dt st
  | Flush wid => flushPendingCredsSave wid st
  | ConnectionEvent wid u => onConnectionUpdate wid u st
  | Logout wid live => logout wid live st
  end.

Definition run (es : list Event) (st : State) : State :=
  fold_left handle es st.

(** The writes of the [session] column of the row of connection [wid],
    oldest first. *)
Definition sessionWrite (wid : Z) (e : Effect) : option string :=
  match e with
  | Update w p => if decide (w = wid) then p_session p else None
  | _ => None
  end.

Definition sessionWrites (wid : Z) (st : State) : list string :=
  omap (sessionWrite wid) (log st).

(** A burst of credential events for one connection: the first event, then
    further events, each [d] milliseconds after the one before it.  Before
    each event the library has put the new credentials [v] in the object. *)
Definition burstEvent (wid : Z) (creds : nat) (v : string) : list Event :=
  [CredsChanged creds v; CredsUpdate wid creds].

Definition burst (wid : Z) (creds : nat) (v1 : string)
    (rest : list (Z * string)) : list Event :=
  burstEvent wid creds v1 ++
  flat_map (fun dv => Advance (fst dv) :: burstEvent wid creds (snd dv)) rest.

Definition lastValue (v1 : string) (rest : list (Z * string)) : string :=
  List.last (List.map snd rest) v1.

(** Every pending timeout is the one that [credsDebounceTimers] records
    for its connection, and timer numbers not yet handed out are free. *)
Record debounce_inv (st : State) : Prop := {
  inv_timer : ∀ k t, timers st !! k = Some t →
                     credsDebounceTimers st !! t_whatsapp t = Some k;
  inv_next : ∀ k, (nextTimer st ≤ k)%nat → timers st !! k = None
}.

(** Connection [wid] has a write of credentials object [r] scheduled for
    time [d]. *)
Definition armed (wid : Z) (r : nat) (d : Z) (st : State) : Prop :=
  ∃ k, credsDebounceTimers st !! wid = Some k ∧
       timers st !! k = Some (mkTimer d wid r) ∧
       pendingCredsSaves st !! wid = Some (wid, r).

(** Nothing is scheduled or pending for connection [wid]. *)
Definition idle (wid : Z) (st : State) : Prop :=
  credsDebounceTimers st !! wid = None ∧
  pendingCredsSaves st !! wid = None ∧
  ∀ k t, timers st !! k = Some t → t_whatsapp t ≠ wid.

End Creds.

(** ** Key store ([StoreWppSessionKeys], [GetWppSessionKeys],
       [libs/redisStore], table [WppKeys]) *)

(** [JSON.stringify(value, BufferJSON.replacer)] and
    [JSON.parse(text, BufferJSON.reviver)] of the client library, on the
    values that the library hands to the key store.  [parse] is [None] when
    [JSON.parse] throws.  A serialised value is never the empty text, and it
    parses back to the value. *)
Class BufferJSON (Value : Type) := {
  stringify : Value → string;
  parse : string → option Value;
  parse_stringify : ∀ v, parse (stringify v) = Some v;
  stringify_nonempty : ∀ v, stringify v ≠ ""
}.

Module KeyStore.

Definition REDIS_KEY_TYPES : list string :=
  ["session"; "sender-keys"; "sender-key-memory"].

Definition isRedisType (type : string) : bool :=
  bool_decide (type ∈ REDIS_KEY_TYPES).

(** Seconds. *)
Definition REDIS_SESSION_TTL : Z := 604800.

(** [clock] is the time on the Redis server, in seconds.  [redisClient] is
    [None] as long as [initRedis] did not connect; otherwise it is the
    content of the server, each key with its value and the time at which it
    expires.  [wppKeys] is the table, indexed by its unique index
    (connectionId, type, keyId). *)
Record State := mkState {
  clock : Z;
  redisClient : option (gmap string (string * Z));
  wppKeys : gmap (Z * string * string) string
}.

Definition initial (redisConnected : bool) : State :=
  mkState 0 (if redisConnected then Some ∅ else None) ∅.

Definition tick (dt : Z) (st : State) : State :=
  mkState (clock st + dt) (redisClient st) (wppKeys st).

Definition setInRedis (key data : string) (st : State) : State :=
  match redisClient st with
  | None => st
  | Some r =>
      mkState (clock st)
              (Some (<[key := (data, clock st + REDIS_SESSION_TTL)]> r))
              (wppKeys st)
  end.

Definition getFromRedis (key : string) (st : State) : option string :=
  match redisClient st with
  | None => None
  | Some r =>
      match r !! key with
      | Some (value, expires) =>
          if decide (clock st < expires)
          then (if decide (value = "") then None else Some value)
          else None
      | None => None
      end
  end.

(** The template literal [wpp:${connectionId}:${deviceId}:${type}:${id}]. *)
Definition redisKey (connectionId deviceId : Z) (type id : string) : string :=
  "wpp:" +:+ pretty connectionId +:+ ":" +:+ pretty deviceId +:+ ":" +:+
  type +:+ ":" +:+ id.

Section WithValues.
Context {Value : Type} `{!BufferJSON Value}.

Definition StoreWppSessionKeys
    (connectionId deviceId : Z) (type id : string) (value : Value)
    (st : State) : State :=
  let valueJson := stringify value in
  if isRedisType type then
    setInRedis (redisKey connectionId deviceId type id) valueJson st
  else
    (* WppKey.upsert({ connectionId, type, keyId: id, value: valueJson }) *)
    mkState (clock st) (redisClient st)
            (<[(connectionId, type, id) := valueJson]> (wppKeys st)).

(** The callbacks of [ids.map(async id => ...)], taken in the order of
    [ids]: an id whose text is found and parses is added to the object
    [data].  A callback in which [JSON.parse] throws rejects the
    [Promise.all], which the flag tells; the other callbacks run on and
    add their ids to the same object. *)
Fixpoint collect (find : string → option string) (ids : list string)
    (data : gmap string Value) : gmap string Value * bool :=
  match ids with
  | [] => (data, false)
  | id :: ids' =>
      match find id with
      | None => collect find ids' data
      | Some text =>
          match parse text with
          | Some v => collect find ids' (<[id := v]> data)
          | None => ((collect find ids' data).1, true)
          end
      end
  end.

Inductive GetResult :=
| Resolved (data : gmap string Value)
| Rejected.

Definition GetWppSessionKeys
    (connectionId deviceId : Z) (type : string) (ids : list string)
    (st : State) : GetResult :=
  if isRedisType type then
    let '(data, threw) :=
      collect (fun id =>
                 getFromRedis (redisKey connectionId deviceId type id) st)
              ids ∅ in
    if threw then Rejected else Resolved data
  else
    (* try { ... } catch (err) { logger.error(...) }; return data:
       the object returned is the one that the callbacks fill *)
    let '(data, _) :=
      collect (fun id => wppKeys st !! (connectionId, type, id)) ids ∅ in
    Resolved data.

(** The key store in use: writes, and time passing. *)
Inductive Op :=
| Set_ (connectionId deviceId : Z) (type id : string) (value : Value)
| Tick (dt : Z).

Definition apply (st : State) (o : Op) : State :=
  match o with
  | Set_ c d t i v => StoreWppSessionKeys c d t i v st
  | Tick dt => tick dt st
  end.

Definition run (ops : list Op) (st : State) : State :=
  fold_left apply ops st.

(** The key store as the design document words it: one store for the
    durable types, "upserted on the 4-tuple key"
    (connectionId, deviceId, type, keyId). *)
Definition SpecDurable : Type := gmap (Z * Z * string * string) Value.

Definition specApply (s : SpecDurable) (o : Op) : SpecDurable :=
  match o with
  | Set_ c d t i v => if isRedisType t then s else <[(c, d, t, i) := v]> s
  | Tick _ => s
  end.

Definition specRun (ops : list Op) : SpecDurable :=
  fold_left specApply ops ∅.

Definition specGet (connectionId deviceId : Z) (type : string)
    (ids : list string) (s : SpecDurable) : gmap string Value :=
  list_to_map
    (omap (fun id => pair id <$> s !! (connectionId, deviceId, type, id))
          ids).

(** The text that a read of [(connectionId, deviceId, type, id)] finds. *)
Definition stored (connectionId deviceId : Z) (type id : string)
    (st : State) : option string :=
  if isRedisType type
  then getFromRedis (redisKey connectionId deviceId type id) st
  else wppKeys st !! (connectionId, type, id).

(** Every text in the table and in the cache parses. *)
Definition stored_wf (st : State) : Prop :=
  (∀ k text, wppKeys st !! k = Some text → is_Some (parse (Value:=Value) text)) ∧
  (∀ r key text expires,
      redisClient st = Some r → r !! key = Some (text, expires) →
      is_Some (parse (Value:=Value) text)).

End WithValues.

Arguments GetResult Value : clear implicits.
Arguments Op Value : clear implicits.
Arguments SpecDurable Value : clear implicits.

(** The JSON constants, an instance on which the model can be run. *)
Inductive JsonConstant := JNull | JBool (b : bool).

#[global] Instance JsonConstant_eq_dec : EqDecision JsonConstant.
Proof. solve_decision. Defined.

#[global, refine] Instance JsonConstant_BufferJSON : BufferJSON JsonConstant := {
  stringify v :=
    match v with
    | JNull => "null"
    | JBool true => "true"
    | JBool false => "false"
    end;
  parse s :=
    if decide (s = "null") then Some JNull
    else if decide (s = "true") then Some (JBool true)
    else if decide (s = "false") then Some (JBool false)
    else None
}.
Proof.
  - by intros [|[|]].
  - by intros [|[|]].
Defined.

End KeyStore.

(** ** The whaileys provider ([Implementations/whaileys.ts]) *)

Module Whaileys.

Record MessageKey := mkKey {
  remoteJid : option string;
  fromMe : option bool;
  id : option string;
  participant : option string
}.

Record LocationMessage := mkLocation {
  degreesLatitude : Js.Rendered;
  degreesLongitude : Js.Rendered;
  name : option string
}.

(** The parts of [proto.IMessage] that the provider reads.  [contentType]
    is what the library's [getContentType] answers for the message. *)
Record IMessage := mkIMessage {
  contentType : option string;
  conversation : option string;
  extendedText : option string;
  imageCaption : option string;
  videoCaption : option string;
  documentCaption : option string;
  contactVcard : option string;
  contactsArray : option (list (option string));
  locationMessage : option LocationMessage;
  audioPtt : bool;
  extendedStanzaId : option string;
  imageStanzaId : option string;
  videoStanzaId : option string;
  documentStanzaId : option string
}.

Record WAMessage := mkWAMessage {
  key : MessageKey;
  message : option IMessage;
  messageTimestamp : option Z;
  status : option Z
}.

Definition getContentType (m : option IMessage) : option string :=
  m ≫= contentType.

(** [messageType || ""]. *)
Definition typeOrEmpty (msg : WAMessage) : string :=
  Js.orElse (getContentType (message msg)) "".

Definition mapMessageType (msg : WAMessage) : MessageType :=
  let messageType := typeOrEmpty msg in
  if bool_decide (messageType = "audioMessage") &&
     from_option audioPtt false (message msg)
  then ptt
  else if decide (messageType = "conversation") then chat
  else if decide (messageType = "extendedTextMessage") then chat
  else if decide (messageType = "imageMessage") then image
  else if decide (messageType = "videoMessage") then video
  else if decide (messageType = "audioMessage") then audio
  else if decide (messageType = "documentMessage") then document
  else if decide (messageType = "stickerMessage") then sticker
  else if decide (messageType = "locationMessage") then location
  else if decide (messageType = "contactMessage") then vcard
  else if decide (messageType = "contactsArrayMessage") then vcard
  else chat.

Definition gmapsUrl (lat long : Js.Rendered) : string :=
  "https://maps.google.com/maps?q=" +:+ lat +:+ "%2C" +:+ long +:+
  "&z=17&hl=pt-BR".

Definition locationDescription (l : LocationMessage) : string :=
  Js.orElse (name l) (degreesLatitude l +:+ ", " +:+ degreesLongitude l).

Definition getMessageBody (msg : WAMessage) : string :=
  let messageType := typeOrEmpty msg in
  let field (f : IMessage → option string) := Js.orElse (message msg ≫= f) "" in
  if decide (messageType = "conversation") then field conversation
  else if decide (messageType = "extendedTextMessage") then field extendedText
  else if decide (messageType = "imageMessage") then field imageCaption
  else if decide (messageType = "videoMessage") then field videoCaption
  else if decide (messageType = "documentMessage") then field documentCaption
  else if decide (messageType = "contactMessage") then field contactVcard
  else if decide (messageType = "contactsArrayMessage") then
    Js.join (String (ascii_of_nat 10) EmptyString)
            ((fun c => default "" c) <$>
               default [] (message msg ≫= contactsArray))
  else if decide (messageType = "locationMessage") then
    match message msg ≫= locationMessage with
    | None => ""
    | Some l =>
        gmapsUrl (degreesLatitude l) (degreesLongitude l) +:+ "|" +:+
        locationDescription l
    end
  else "".

Definition firstNonEmpty (candidates : list (option string)) : option string :=
  List.find (fun s => negb (String.eqb s "")) (omap (fun c => c) candidates).

Definition getQuotedMessageId (msg : WAMessage) : option string :=
  match message msg with
  | None => None
  | Some m =>
      firstNonEmpty [extendedStanzaId m; imageStanzaId m; videoStanzaId m;
                     documentStanzaId m]
  end.

Definition mediaTypes : list string :=
  ["imageMessage"; "videoMessage"; "audioMessage"; "documentMessage";
   "stickerMessage"].

Definition hasMedia (msg : WAMessage) : bool :=
  bool_decide (typeOrEmpty msg ∈ mediaTypes).

Definition mapMessageAck (status : option Z) : MessageAck :=
  match status with
  | None => 0
  | Some s =>
      if decide (4 ≤ s) then 4 else if decide (3 ≤ s) then 3
      else if decide (2 ≤ s) then 2 else if decide (1 ≤ s) then 1 else 0
  end.

Definition validTypes : list string :=
  ["conversation"; "extendedTextMessage"; "imageMessage"; "videoMessage";
   "audioMessage"; "documentMessage"; "stickerMessage"; "locationMessage";
   "contactMessage"; "contactsArrayMessage"].

Definition allowedFromMeTypes : list string :=
  ["locationMessage"; "conversation"; "extendedTextMessage"; "contactMessage"].

Definition isFromMe (msg : WAMessage) : bool := default false (fromMe (key msg)).

Definition shouldHandleMessage (msg : WAMessage) : bool :=
  let messageType := typeOrEmpty msg in
  if negb (bool_decide (messageType ∈ validTypes)) then false
  else if Js.beginsWithLRM (getMessageBody msg) then false
  else if negb (isFromMe msg) then true
  else hasMedia msg || bool_decide (messageType ∈ allowedFromMeTypes).





(** [msg.messageTimestamp ? Number(msg.messageTimestamp) : Date.now()]. *)
Definition timestampOr (now : Z) (t : option Z) : Z :=
  match t with
  | Some t => if decide (t = 0) then now else t
  | None => now
  end.

Definition convertToMessagePayload (now : Z) (msg : WAMessage)
  : MessagePayload :=
  let fromJid := Js.orElse (remoteJid (key msg)) "" in
  let toJid :=
    if isFromMe msg then fromJid
    else Js.orElse (participant (key msg)) fromJid in
  let fromMe := isFromMe msg in
  mkMessagePayload
    (Js.orElse (id (key msg)) "")
    (getMessageBody msg)
    fromMe
    (hasMedia msg)
    (mapMessageType msg)
    (timestampOr now (messageTimestamp msg))
    fromJid
    toJid
    (Some (bool_decide (is_Some (getQuotedMessageId msg))))
    (getQuotedMessageId msg)
    (Some (if fromMe then 1 else 0)).

(** [jid.replace(/@c\.us$/i, "@s.whatsapp.net")]. *)
Fixpoint replaceCUs (jid : string) : string :=
  if String.eqb (Js.toLowerCase jid) "@c.us" then "@s.whatsapp.net"
  else match jid with
       | EmptyString => EmptyString
       | String c s => String c (replaceCUs s)
       end.

Definition normalizeJid (jid : string) : string :=
  if decide (jid = "") then jid
  else if negb (Js.includes "@" jid) then jid +:+ "@s.whatsapp.net"
  else replaceCUs jid.

(** A socket in the registry, as far as sending is concerned:
    [wbot.user?.id]. *)
Record Session := mkSession { user : option string }.

Definition getWbot (sessions : gmap Z Session) (sessionId : Z)
  : Result Session :=
  match sessions !! sessionId with
  | Some wbot => Returned wbot
  | None => Thrown (App (appError "ERR_WAPP_NOT_INITIALIZED"))
  end.

Record SendMessageOptions := mkSendMessageOptions {
  quotedMessageId : option string;
  quotedMessageFromMe : option bool;
  linkPreview : option bool
}.

Record SendMediaOptions := mkSendMediaOptions {
  caption : option string;
  sendAudioAsVoice : option bool;
  sendMediaAsDocument : option bool;
  mediaQuotedMessageId : option string
}.

Record ProviderMediaInput := mkProviderMediaInput {
  filename : string;
  mimetype : string;
  path : option string;
  data : option string
}.

Record ContextInfo := mkContextInfo {
  stanzaId : string;
  ctxParticipant : option string
}.

(** [AnyMessageContent], as the provider builds it. *)
Inductive Content :=
| Text (text : string) (contextInfo : option ContextInfo)
| Media (kind : MessageType) (buffer : string) (caption : option string)
        (mimetype : string) (fileName : option string)
        (contextInfo : option ContextInfo)
| Delete (remoteJid id : string) (fromMe : bool).

(** One call of [wbot.sendMessage(jid, content)]. *)
Record NetworkSend := mkNetworkSend { sendJid : string; sendContent : Content }.

(** [Some s] when [s] is a non-empty string. *)
Definition truthy (s : option string) : option string :=
  match s with
  | Some x => if decide (x = "") then None else Some x
  | None => None
  end.

(** [sendMessage].  [reply] is what [wbot.sendMessage] answers, [now] is
    [Date.now()].  The result comes with the network sends made. *)
Definition sendMessage
    (sessions : gmap Z Session) (sessionId : Z) (to body : string)
    (options : option SendMessageOptions)
    (reply : Result (option WAMessage)) (now : Z)
  : list NetworkSend * Result ProviderMessage :=
  match getWbot sessions sessionId with
  | Thrown e => ([], Thrown e)
  | Returned wbot =>
      let toJid := normalizeJid to in
      let messageContent :=
        match truthy (options ≫= quotedMessageId) with
        | Some q =>
            Text body
              (Some (mkContextInfo q
                       (if default false (options ≫= quotedMessageFromMe)
                        then user wbot else Some toJid)))
        | None => Text body None
        end in
      let sends := [mkNetworkSend toJid messageContent] in
      match reply with
      | Thrown e => (sends, Thrown e)
      | Returned sentMsg =>
          match truthy (sentMsg ≫= fun m => id (key m)), sentMsg with
          | Some sentId, Some m =>
              (sends,
               Returned
                 (mkProviderMessage sentId body true false chat
                    (timestampOr now (messageTimestamp m))
                    (Js.orElse (user wbot) "") to None (Some 1)))
          | _, _ => (sends, Thrown (App (appError "ERR_SENDING_WAPP_MSG")))
          end
      end
  end.

(** [sendMedia].  [readFile] is [readFileSync]. *)
Definition sendMedia
    (sessions : gmap Z Session) (sessionId : Z) (to : string)
    (media : ProviderMediaInput) (options : option SendMediaOptions)
    (readFile : string → Result string)
    (reply : Result (option WAMessage)) (now : Z)
  : list NetworkSend * Result ProviderMessage :=
  match getWbot sessions sessionId with
  | Thrown e => ([], Thrown e)
  | Returned wbot =>
      let toJid := normalizeJid to in
      let mediaBuffer :=
        match truthy (path media) with
        | Some p =>
            match readFile p with
            | Returned buffer => Returned (Some buffer)
            | Thrown e => Thrown e
            end
        | None => Returned (data media)
        end in
      match mediaBuffer with
      | Thrown e => ([], Thrown e)
      | Returned None => ([], Thrown (App (appError "ERR_NO_MEDIA_DATA")))
      | Returned (Some buffer) =>
          let contextInfo :=
            (fun q => mkContextInfo q (Some toJid)) <$>
              truthy (options ≫= mediaQuotedMessageId) in
          let cap := options ≫= caption in
          let '(content, type) :=
            if Js.startsWith "image/" (mimetype media) then
              (Media image buffer cap (mimetype media) None contextInfo, image)
            else if Js.startsWith "video/" (mimetype media) then
              (Media video buffer cap (mimetype media) None contextInfo, video)
            else if Js.startsWith "audio/" (mimetype media) then
              let kind :=
                if default false (options ≫= sendAudioAsVoice)
                then ptt else audio in
              (Media kind buffer None (mimetype media) None contextInfo, kind)
            else
              (Media document buffer cap (mimetype media)
                     (Some (filename media)) contextInfo, document) in
          let sends := [mkNetworkSend toJid content] in
          match reply with
          | Thrown e => (sends, Thrown e)
          | Returned sent =>
              match truthy (sent ≫= fun m => id (key m)), sent with
              | Some sentId, Some m =>
                  (sends,
                   Returned
                     (mkProviderMessage sentId
                        (Js.orElse cap (filename media)) true true type
                        (timestampOr now (messageTimestamp m))
                        (Js.orElse (user wbot) "") to None (Some 1)))
              | _, _ =>
                  (sends,
                   Thrown (App (appError "ERR_SENDING_WAPP_MEDIA_MSG")))
              end
          end
      end
  end.

(** One entry of the answer of [wbot.onWhatsApp]. *)
Record OnWhatsApp := mkOnWhatsApp { exists_ : bool; jid : string }.

(** [checkNumber].  [onWhatsApp] is the library call, made on the socket
    of the session. *)
Definition checkNumber
    (sessions : gmap Z Session) (sessionId : Z) (number : string)
    (onWhatsApp : string → Result (list OnWhatsApp)) : Result string :=
  match getWbot sessions sessionId with
  | Thrown e => Thrown e
  | Returned wbot =>
      let cleanNumber := Js.onlyDigits number in
      match onWhatsApp cleanNumber with
      | Thrown e => Thrown e
      | Returned answers =>
          match head answers with
          | Some result =>
              if exists_ result then Returned (jid result)
              else Thrown (App (mkAppError "ERR_NUMBER_NOT_ON_WHATSAPP" 404))
          | None => Thrown (App (mkAppError "ERR_NUMBER_NOT_ON_WHATSAPP" 404))
          end
      end
  end.

End Whaileys.

(** ** The whatsapp-web.js provider ([Implementations/wwebjs.ts]) *)

Module Wwebjs.

Record Location := mkLocation {
  latitude : Js.Rendered;
  longitude : Js.Rendered;
  description : option string
}.

(** The parts of the library's [Message] that the provider reads. *)
Record WbotMessage := mkWbotMessage {
  id : string;
  body : string;
  fromMe : bool;
  hasMedia : bool;
  type : string;
  timestamp : Z;
  from : string;
  to : string;
  hasQuotedMsg : bool;
  ack : Z;
  location : option Location
}.

Definition setBody (b : string) (m : WbotMessage) : WbotMessage :=
  mkWbotMessage (id m) b (fromMe m) (hasMedia m) (type m) (timestamp m)
                (from m) (to m) (hasQuotedMsg m) (ack m) (location m).

Definition mapMessageType (wbotType : string) : MessageType :=
  if decide (wbotType = "chat") then chat
  else if decide (wbotType = "audio") then audio
  else if decide (wbotType = "ptt") then ptt
  else if decide (wbotType = "video") then video
  else if decide (wbotType = "image") then image
  else if decide (wbotType = "document") then document
  else if decide (wbotType = "vcard") then vcard
  else if decide (wbotType = "sticker") then sticker
  else if decide (wbotType = "location") then Canonical.location
  else chat.

(** [ackMap[wbotAck] || 0]. *)
Definition mapMessageAck (wbotAck : Z) : MessageAck :=
  if decide (0 ≤ wbotAck ≤ 4) then wbotAck else 0.

Definition convertToProviderMessage (m : WbotMessage) : ProviderMessage :=
  mkProviderMessage (id m) (body m) (fromMe m) (hasMedia m)
                    (mapMessageType (type m)) (timestamp m) (from m) (to m)
                    (Some (hasQuotedMsg m)) (Some (mapMessageAck (ack m))).

Definition gmapsUrl (lat long : Js.Rendered) : string :=
  "https://maps.google.com/maps?q=" +:+ lat +:+ "%2C" +:+ long +:+
  "&z=17&hl=pt-BR".

Definition locationDescription (l : Location) : string :=
  Js.orElse (description l) (latitude l +:+ ", " +:+ longitude l).

(** [prepareLocation]; reading the fields of a missing [location] throws. *)
Definition prepareLocation (msg : WbotMessage) : Result WbotMessage :=
  match location msg with
  | None => Thrown (JsError "TypeError")
  | Some l =>
      let b1 := "data:image/png;base64," +:+ body msg +:+ "|" +:+
                gmapsUrl (latitude l) (longitude l) in
      Returned (setBody (b1 +:+ "|" +:+ locationDescription l) msg)
  end.

(** [verifyQuotedMessage]; [quoted] is the id of what
    [msg.getQuotedMessage()] answers. *)
Definition verifyQuotedMessage (msg : WbotMessage) (quoted : string)
  : option string :=
  if hasQuotedMsg msg then Some quoted else None.

Definition convertToMessagePayload (msg : WbotMessage) (quoted : string)
  : Result MessagePayload :=
  let processed :=
    if decide (type msg = "location") then prepareLocation msg
    else Returned msg in
  match processed with
  | Thrown e => Thrown e
  | Returned m =>
      Returned
        (mkMessagePayload (id m) (body m) (fromMe m) (hasMedia m)
           (mapMessageType (type m)) (timestamp m) (from m) (to m)
           (Some (hasQuotedMsg m)) (verifyQuotedMessage m quoted) None)
  end.

Definition supportedTypes : list string :=
  ["chat"; "audio"; "ptt"; "video"; "image"; "document"; "vcard"; "sticker";
   "location"].

Definition shouldHandleMessage (msg : WbotMessage) : bool :=
  if decide (from msg = "status@broadcast") then false
  else if negb (bool_decide (type msg ∈ supportedTypes)) then false
  else if Js.beginsWithLRM (body msg) then false
  else if fromMe msg &&
          (negb (hasMedia msg) &&
           negb (bool_decide (type msg = "location")) &&
           negb (bool_decide (type msg = "chat")) &&
           negb (bool_decide (type msg = "vcard")))
  then false
  else true.

(** A client in the [sessions] array; [id] is set when it is pushed. *)
Record Session := mkSession { sessionId : option Z }.

Definition getWbot (sessions : list Session) (whatsappId : Z)
  : Result Session :=
  match List.find (fun s => bool_decide (sessionId s = Some whatsappId))
                  sessions with
  | Some wbot => Returned wbot
  | None => Thrown (App (appError "ERR_WAPP_NOT_INITIALIZED"))
  end.

(** [sendMessage].  [reply] is what the client's [sendMessage] answers.
    The result comes with the chat ids that the client was asked to send
    to. *)
Definition sendMessage
    (sessions : list Session) (whatsappId : Z) (to body : string)
    (reply : Result WbotMessage) : list string * Result ProviderMessage :=
  match getWbot sessions whatsappId with
  | Thrown e => ([], Thrown e)
  | Returned wbot =>
      match reply with
      | Thrown e => ([to], Thrown e)
      | Returned sentMessage =>
          ([to], Returned (convertToProviderMessage sentMessage))
      end
  end.

(** [sendMedia].  [loaded] is the outcome of building the [MessageMedia]
    (reading the file when a path is given). *)
Definition sendMedia
    (sessions : list Session) (whatsappId : Z) (to : string)
    (loaded : Result unit) (reply : Result WbotMessage)
  : list string * Result ProviderMessage :=
  match getWbot sessions whatsappId with
  | Thrown e => ([], Thrown e)
  | Returned wbot =>
      match loaded with
      | Thrown e => ([], Thrown e)
      | Returned _ =>
          match reply with
          | Thrown e => ([to], Thrown e)
          | Returned sentMessage =>
              ([to], Returned (convertToProviderMessage sentMessage))
          end
      end
  end.

(** [checkNumber].  [getNumberId] is the library call; it answers the user
    part of the number id, or nothing for a number without account. *)
Definition checkNumber
    (sessions : list Session) (whatsappId : Z) (number : string)
    (getNumberId : string → Result (option string)) : Result string :=
  match getWbot sessions whatsappId with
  | Thrown e => Thrown e
  | Returned wbot =>
      match getNumberId (number +:+ "@c.us") with
      | Thrown e => Thrown e
      | Returned validNumber => Returned (Js.orElse validNumber "")
      end
  end.

End Wwebjs.

(** ** Contact upsert ([services/ContactServices/CreateOrUpdateContactService]) *)

Module Contacts.

(** A row of table [Contacts]; columns [number] and [lid] are nullable and
    unique. *)
Record Contact := mkContact {
  id : Z;
  name : string;
  number : option string;
  lid : option string;
  profilePicUrl : option string;
  email : string;
  isGroup : bool
}.

#[global] Instance Contact_eq_dec : EqDecision Contact.
Proof. solve_decision. Defined.

Record Ticket := mkTicket { ticketId : Z; contactId : Z }.

#[global] Instance Ticket_eq_dec : EqDecision Ticket.
Proof. solve_decision. Defined.

(** [io.emit("contact", { action, contact })]. *)
Record Emitted := mkEmitted { action : string; contact : Contact }.

Record Store := mkStore {
  contacts : list Contact;
  tickets : list Ticket;
  nextId : Z;
  emitted : list Emitted
}.

Record Request := mkRequest {
  r_name : string;
  r_number : string;
  r_lid : option string;
  r_isGroup : bool;
  r_profilePicUrl : option string
}.

(** [Contact.findOne({ where: { number } })] and the same on [lid]. *)
Definition findByNumber (n : string) (cs : list Contact) : option Contact :=
  List.find (fun c => bool_decide (number c = Some n)) cs.

Definition findByLid (l : string) (cs : list Contact) : option Contact :=
  List.find (fun c => bool_decide (lid c = Some l)) cs.

(** [instance.update(...)]: the row with the primary key of the instance. *)
Definition updateRow (key : Z) (f : Contact → Contact) (cs : list Contact)
  : list Contact :=
  (fun c => if decide (id c = key) then f c else c) <$> cs.

(** [instance.destroy()]. *)
Definition destroyRow (key : Z) (cs : list Contact) : list Contact :=
  filter (fun c => id c ≠ key) cs.

(** [Ticket.update({ contactId: to }, { where: { contactId: from } })]. *)
Definition reassignTickets (from to : Z) (ts : list Ticket) : list Ticket :=
  (fun t => if decide (contactId t = from) then mkTicket (ticketId t) to
            else t) <$> ts.

(** The picture of a row after [instance.update({ ..., profilePicUrl })]:
    a key whose value is [undefined] is not written, so that the stored
    picture stays. *)
Definition pictureAfter (pic : option string) (c : Contact) : option string :=
  match pic with
  | Some p => Some p
  | None => profilePicUrl c
  end.

(** [instance.update({ lid: l, profilePicUrl: pic })] and
    [instance.update({ number: n, profilePicUrl: pic })], on the
    instance. *)
Definition setLid (l : option string) (pic : option string) (c : Contact)
  : Contact :=
  mkContact (id c) (name c) (number c) l (pictureAfter pic c) (email c)
            (isGroup c).

Definition setNumber (n : option string) (pic : option string) (c : Contact)
  : Contact :=
  mkContact (id c) (name c) n (lid c) (pictureAfter pic c) (email c)
            (isGroup c).

(** [a || b] where [a] is a string and [b] a column. *)
Definition orColumn (a : option string) (b : option string) : option string :=
  match a with
  | Some s => if decide (s = "") then b else Some s
  | None => b
  end.

Definition emit (a : string) (c : Contact) (st : Store) : Store :=
  mkStore (contacts st) (tickets st) (nextId st)
          (emitted st ++ [mkEmitted a c]).

(** [number ? ... : null]. *)
Definition whenTruthy {A} (s : option string) (f : string → option A)
  : option A :=
  match s with
  | Some x => if decide (x = "") then None else f x
  | None => None
  end.

Definition CreateOrUpdateContactService (req : Request) (st : Store)
  : Result Contact * Store :=
  let number :=
    if r_isGroup req then r_number req else Js.onlyDigits (r_number req) in
  let lid := r_lid req in
  let pic := r_profilePicUrl req in
  if bool_decide (number = "") && bool_decide (orColumn lid None = None)
  then (Thrown (JsError "Either number or lid must be provided"), st)
  else
    let contactByNumber :=
      whenTruthy (Some number) (fun n => findByNumber n (contacts st)) in
    let contactByLid :=
      whenTruthy lid (fun l => findByLid l (contacts st)) in
    match contactByNumber, contactByLid with
    | Some byNumber, Some byLid =>
        if decide (id byNumber ≠ id byLid) then
          (* shouldMerge *)
          let ts := reassignTickets (id byLid) (id byNumber) (tickets st) in
          let cs := destroyRow (id byLid) (contacts st) in
          let merged := setLid (Contacts.lid byLid) pic byNumber in
          let cs' := updateRow (id byNumber) (setLid (Contacts.lid byLid) pic) cs in
          (Returned merged,
           emit "update" merged (mkStore cs' ts (nextId st) (emitted st)))
        else
          let updated :=
            setLid (orColumn lid (Contacts.lid byNumber)) pic byNumber in
          (Returned updated,
           emit "update" updated
             (mkStore (updateRow (id byNumber)
                         (setLid (orColumn lid (Contacts.lid byNumber)) pic)
                         (contacts st))
                      (tickets st) (nextId st) (emitted st)))
    | Some byNumber, None =>
        let updated :=
          setLid (orColumn lid (Contacts.lid byNumber)) pic byNumber in
        (Returned updated,
         emit "update" updated
           (mkStore (updateRow (id byNumber)
                       (setLid (orColumn lid (Contacts.lid byNumber)) pic)
                       (contacts st))
                    (tickets st) (nextId st) (emitted st)))
    | None, Some byLid =>
        let updated :=
          setNumber (orColumn (Some number) (Contacts.number byLid)) pic
                    byLid in
        (Returned updated,
         emit "update" updated
           (mkStore (updateRow (id byLid)
                       (setNumber
                          (orColumn (Some number) (Contacts.number byLid))
                          pic)
                       (contacts st))
                    (tickets st) (nextId st) (emitted st)))
    | None, None =>
        (* Contact.create; the unique indexes reject a second row with the
           same number or the same lid *)
        let created :=
          mkContact (nextId st) (r_name req) (Some number) lid pic ""
                    (r_isGroup req) in
        if bool_decide
             (Exists (fun c => Contacts.number c = Some number ∨
                               (is_Some lid ∧ Contacts.lid c = lid))
                     (contacts st))
        then (Thrown (JsError "SequelizeUniqueConstraintError"), st)
        else
          (Returned created,
           emit "create" created
             (mkStore (contacts st ++ [created]) (tickets st)
                      (nextId st + 1) (emitted st)))
    end.

(** The stored contacts that match the number or the lid. *)
Definition matching (n l : string) (cs : list Contact) : list Contact :=
  filter (fun c => number c = Some n ∨ lid c = Some l) cs.

(** The table as the database keeps it: primary keys are distinct and
    below the next one, and [number] and [lid] are unique. *)
Record store_wf (st : Store) : Prop := {
  wf_ids : NoDup (id <$> contacts st);
  wf_next : ∀ c, c ∈ contacts st → id c < nextId st;
  wf_number : ∀ c1 c2 n, c1 ∈ contacts st → c2 ∈ contacts st →
                         number c1 = Some n → number c2 = Some n →
                         id c1 = id c2;
  wf_lid : ∀ c1 c2 l, c1 ∈ contacts st → c2 ∈ contacts st →
                      lid c1 = Some l → lid c2 = Some l → id c1 = id c2
}.

End Contacts.

(** ** Acknowledgment updates ([handleMessageAck]) *)

Module Ack.

(** A row of table [Messages], as far as the handler is concerned. *)
Record Message := mkMessage {
  id : string;
  ticketId : Z;
  body : string;
  ack : MessageAck
}.

Inductive Effect :=
| EmitAppMessage (room : string) (action : string) (message : Message)
| Captured (err : string).   (* Sentry.captureException and logger.error *)

Record State := mkState {
  messages : gmap string Message;
  effects : list Effect
}.

(** What the database does with the two calls of the handler: [None] is a
    call that is served, [Some err] one that is rejected with [err]. *)
Record Database := mkDatabase {
  findByPkFails : option string;
  updateFails : option string
}.

Definition working : Database := mkDatabase None None.

Definition capture (err : string) (st : State) : State :=
  mkState (messages st) (effects st ++ [Captured err]).

Definition isEmit (e : Effect) : bool :=
  match e with EmitAppMessage _ _ _ => true | Captured _ => false end.

(** [handleMessageAck], after its delay of 500 ms.  [getIO] is the outcome
    of the call of [getIO()] of [libs/socket], which is made outside the
    [try]. *)
Definition handleMessageAck
    (getIO : Result unit) (db : Database)
    (messageId : string) (newAck : MessageAck) (st : State)
  : Result unit * State :=
  match getIO with
  | Thrown e => (Thrown e, st)
  | Returned _ =>
      match findByPkFails db with
      | Some err => (Returned tt, capture err st)
      | None =>
          match messages st !! messageId with
          | None => (Returned tt, st)
          | Some messageToUpdate =>
              match updateFails db with
              | Some err => (Returned tt, capture err st)
              | None =>
                  let updated :=
                    mkMessage (id messageToUpdate) (ticketId messageToUpdate)
                              (body messageToUpdate) newAck in
                  (Returned tt,
                   mkState (<[messageId := updated]> (messages st))
                           (effects st ++
                            [EmitAppMessage (pretty (ticketId updated))
                                            "update" updated]))
              end
          end
      end
  end.

End Ack.

(** ** Queries on the message store of a whaileys session ([sendSeen],
       [fetchChatMessages]) *)

Module WhaileysChats.
Import Whaileys.

(** [wbot.store.messages]: for each chat the array of its messages, oldest
    first. *)
Definition Chats : Type := gmap string (list WAMessage).

(** A socket in the registry, as far as the queries are concerned:
    [wbot.user?.id] and [wbot.store]. *)
Record Socket := mkSocket {
  socketUser : option string;
  socketStore : option Chats
}.

Definition getWbot (sessions : gmap Z Socket) (sessionId : Z)
  : Result Socket :=
  match sessions !! sessionId with
  | Some wbot => Returned wbot
  | None => Thrown (App (appError "ERR_WAPP_NOT_INITIALIZED"))
  end.

(** [array.slice(start)]: a negative [start] counts from the end. *)
Definition slice {A} (start : Z) (l : list A) : list A :=
  let len := Z.of_nat (length l) in
  let k := if decide (start < 0) then Z.max (len + start) 0
           else Z.min start len in
  drop (Z.to_nat k) l.

(** [wbot.store?.messages?.[chat]?.array || []]. *)
Definition messagesOf (wbot : Socket) (chat : string) : list WAMessage :=
  default [] (socketStore wbot ≫= fun chats => chats !! chat).

Record ReadKey := mkReadKey {
  readRemoteJid : string;
  readId : string;
  readParticipant : option string
}.

(** [msg => !msg.key.fromMe && msg.key.id]. *)
Definition unreadFromOthers (msg : WAMessage) : bool :=
  negb (isFromMe msg) && bool_decide (is_Some (truthy (id (key msg)))).

(** [sendSeen].  [readMessages] is the call of the library; the result
    comes with the calls made. *)
Definition sendSeen
    (sessions : gmap Z Socket) (sessionId : Z) (chatId : string)
    (readMessages : list ReadKey → Result unit)
  : list (list ReadKey) * Result unit :=
  match getWbot sessions sessionId with
  | Thrown e => ([], Thrown e)
  | Returned wbot =>
      let normalizedChatId := normalizeJid chatId in
      let lastMessages := slice (-5) (messagesOf wbot normalizedChatId) in
      if decide (length lastMessages = 0%nat) then ([], Returned tt)
      else
        let keys :=
          (fun msg => mkReadKey normalizedChatId
                                (Js.orElse (id (key msg)) "")
                                (participant (key msg))) <$>
            List.filter unreadFromOthers lastMessages in
        if decide (0 < length keys)%nat
        then ([keys], readMessages keys)
        else ([], Returned tt)
  end.

(** One element of the answer of [fetchChatMessages]; [now] is
    [Date.now()] when the element is made. *)
Definition toProviderMessage (normalizedChatId : string) (now : Z)
    (msg : WAMessage) : ProviderMessage :=
  mkProviderMessage
    (Js.orElse (id (key msg)) "")
    (getMessageBody msg)
    (isFromMe msg)
    (hasMedia msg)
    (mapMessageType msg)
    (timestampOr now (messageTimestamp msg))
    (Js.orElse (participant (key msg)) (Js.orElse (remoteJid (key msg)) ""))
    normalizedChatId
    None
    (Some (mapMessageAck (status msg))).

(** [fetchChatMessages]; an absent [limit] is 100.  [now i] is [Date.now()]
    at element [i]. *)
Definition fetchChatMessages
    (sessions : gmap Z Socket) (sessionId : Z) (chatId : string)
    (limit : option Z) (now : nat → Z) : Result (list ProviderMessage) :=
  match getWbot sessions sessionId with
  | Thrown e => Thrown e
  | Returned wbot =>
      let normalizedChatId := normalizeJid chatId in
      let messagesFromStore := messagesOf wbot normalizedChatId in
      let messages := slice (- default 100 limit) messagesFromStore in
      Returned
        (imap (fun i msg => toProviderMessage normalizedChatId (now i) msg)
              messages)
  end.

End WhaileysChats.

(** ** The listeners of [init] that report acknowledgments
       ("messages.update", "message-receipt.update") *)

Module WhaileysEvents.
Import Whaileys.

(** An element of a "messages.update" event: [key] and [update.status]. *)
Record MessageUpdate := mkMessageUpdate {
  updateKey : MessageKey;
  updateStatus : option Z
}.

(** [MessageUserReceipt]; a timestamp that is absent or 0 is falsy. *)
Record Receipt := mkReceipt {
  receiptTimestamp : option Z;
  readTimestamp : option Z;
  playedTimestamp : option Z
}.

Record ReceiptUpdate := mkReceiptUpdate {
  receiptKey : MessageKey;
  receipt : Receipt
}.

Definition truthyNumber (n : option Z) : bool :=
  match n with
  | Some z => bool_decide (z ≠ 0)
  | None => false
  end.

(** The call of [handleMessageAck] that the "messages.update" listener
    makes for one element, if any. *)
Definition statusAck (event : MessageUpdate) : option (string * MessageAck) :=
  if negb (truthyNumber (updateStatus event)) then None
  else
    match truthy (id (updateKey event)) with
    | None => None
    | Some messageId =>
        let ack :=
          if truthyNumber (updateStatus event)
          then default 0 (updateStatus event) else 0 in
        Some (messageId, ack)
    end.

(** The same for the "message-receipt.update" listener. *)
Definition receiptAck (r : Receipt) : MessageAck :=
  if truthyNumber (playedTimestamp r) then 4
  else if truthyNumber (readTimestamp r) then 3
  else if truthyNumber (receiptTimestamp r) then 2
  else 2.

Definition receiptCall (u : ReceiptUpdate) : option (string * MessageAck) :=
  match truthy (id (receiptKey u)) with
  | None => None
  | Some messageId => Some (messageId, receiptAck (receipt u))
  end.

(** The calls of [handleMessageAck], taken in the order of the elements of
    the event, each with what the database does at that call.  What a
    call throws is caught and logged by the listener. *)
Definition forward
    (getIO : Result unit)
    (calls : list (Ack.Database * option (string * MessageAck)))
    (st : Ack.State) : Ack.State :=
  fold_left
    (fun s call =>
       match call.2 with
       | Some (messageId, ack) =>
           snd (Ack.handleMessageAck getIO call.1 messageId ack s)
       | None => s
       end)
    calls st.

(** The two listeners; [db i] is what the database does at element [i]
    of the event. *)
Definition onMessagesUpdate
    (getIO : Result unit) (db : nat → Ack.Database)
    (updates : list MessageUpdate) (st : Ack.State) : Ack.State :=
  forward getIO (imap (fun i u => (db i, statusAck u)) updates) st.

Definition onMessageReceiptUpdate
    (getIO : Result unit) (db : nat → Ack.Database)
    (updates : list ReceiptUpdate) (st : Ack.State) : Ack.State :=
  forward getIO (imap (fun i u => (db i, receiptCall u)) updates) st.

End WhaileysEvents.

(** ** The key store of a session ([useSessionAuthState]) and its purge
       ([clearSessionKeys]) *)

Module SessionKeys.
Import KeyStore.

(** The keys that [client.scan(cursor, "MATCH", `wpp:${sessionId}:*`, ...)]
    answers over the cursors of a full scan. *)
Definition matchesSession (sessionId : Z) (key : string) : bool :=
  Js.startsWith ("wpp:" +:+ pretty sessionId +:+ ":") key.

(** [clearSessionKeys]: every key that the scan answers is deleted. *)
Definition clearSessionKeys (sessionId : Z) (st : State) : State :=
  match redisClient st with
  | None => st
  | Some r =>
      mkState (clock st)
              (Some (filter (fun kv => matchesSession sessionId kv.1 = false) r))
              (wppKeys st)
  end.

(** [jidDecode(creds?.me?.id)?.device || 1]; [device] is what the library
    decodes from the credentials at the time of the call. *)
Definition deviceIdOf (device : option Z) : Z :=
  match device with
  | Some d => if decide (d = 0) then 1 else d
  | None => 1
  end.

Section WithValues.
Context {Value : Type} `{!BufferJSON Value}.

(** [Object.entries] of a [SignalDataSet] and of its categories. *)
Definition SignalDataSet : Type :=
  list (string * option (list (string * Value))).

(** [state.keys.set]: one [StoreWppSessionKeys] for each id of each
    category, started in the order of the entries. *)
Definition keysSet (sessionId : Z) (device : option Z)
    (data : SignalDataSet) (st : State) : State :=
  let deviceId := deviceIdOf device in
  fold_left
    (fun s entry =>
       match entry.2 with
       | None => s
       | Some categoryData =>
           fold_left
             (fun s' kv =>
                StoreWppSessionKeys sessionId deviceId entry.1 kv.1 kv.2 s')
             categoryData s
       end)
    data st.

(** [state.keys.get]. *)
Definition keysGet (sessionId : Z) (device : option Z) (type : string)
    (ids : list string) (st : State) : GetResult Value :=
  GetWppSessionKeys sessionId (deviceIdOf device) type ids st.

End WithValues.

Arguments SignalDataSet Value : clear implicits.

End SessionKeys.

(** ** Removal of a whaileys session from the registry ([removeSession]) *)

Module RegistryRemoval.
Import Registry.

(** The events whose listeners [removeSession] removes, in the order of
    the calls. *)
Definition removedEvents : list string :=
  [ "connection.update"; "creds.update"; "messages.upsert";
    "messages.update"; "message-receipt.update"; "presence.update";
    "groups.upsert"; "groups.update"; "group-participants.update";
    "contacts.upsert"; "contacts.update"; "chats.upsert"; "chats.update";
    "chats.delete"; "blocklist.set"; "blocklist.update" ].

(** [removeSession] from [sessions.get] up to its suspension at
    [await wbot.ws?.close?.()]: the listeners of the registered socket are
    removed and the socket is ended. *)
Definition removeTeardown (whatsappId : Z) (st : State) : State :=
  match sessions st !! whatsappId with
  | Some k =>
      mkState
        (alter (fun w =>
                  end_ (fold_left (fun w' ev => removeAllListeners ev w')
                                  removedEvents w))
               k (heap st))
        (sessions st) (stores st) (nextSocket st) (nextStore st)
  | None => st
  end.

(** The rest of [removeSession]: [sessions.delete], [stores.delete]. *)
Definition removeEvict (whatsappId : Z) (st : State) : State :=
  mkState (heap st) (delete whatsappId (sessions st))
          (delete whatsappId (stores st)) (nextSocket st) (nextStore st).

(** [removeSession] when nothing else runs at its suspension. *)
Definition removeSession (whatsappId : Z) (st : State) : State :=
  removeEvict whatsappId (removeTeardown whatsappId st).

(** Calls of the provider that run one after the other. *)
Inductive Call :=
| Init (sessionId : Z)
| RemoveSession (whatsappId : Z).

Definition call (st : State) (c : Call) : State :=
  match c with
  | Init i => init i st
  | RemoveSession i => removeSession i st
  end.

Definition calls (cs : list Call) (st : State) : State :=
  fold_left call cs st.

End RegistryRemoval.

(** ** The session array of the whatsapp-web.js provider, and the row of
       its connection ([sessions], [removeSession], [init] and its listeners
       in [Implementations/wwebjs.ts]) *)

Module WwebjsSessions.

(** A [Client] object: the connection whose [init] made it, its [id]
    field, which is set when the client is put in the array, and whether
    [destroy] was called on it. *)
Record Client := mkClient {
  owner : Z;
  clientId : option Z;
  destroyed : bool
}.

(** The heap of clients ever made, and the array [sessions], which holds
    references to clients. *)
Record State := mkState {
  heap : gmap nat Client;
  sessions : list nat;
  nextClient : nat
}.

Definition initial : State := mkState ∅ [] 0%nat.

Definition idOf (st : State) (k : nat) : option Z :=
  heap st !! k ≫= clientId.

(** [sessions.findIndex(s => s.id === whatsappId)]. *)
Definition findIndex (whatsappId : Z) (st : State) : option nat :=
  fst <$> list_find (fun k => idOf st k = Some whatsappId) (sessions st).

Definition destroy (c : Client) : Client :=
  mkClient (owner c) (clientId c) true.

Definition removeSession (whatsappId : Z) (st : State) : State :=
  match findIndex whatsappId st with
  | Some sessionIndex =>
      match sessions st !! sessionIndex with
      | Some k =>
          mkState (alter destroy k (heap st))
                  (delete sessionIndex (sessions st))
                  (nextClient st)
      | None => st
      end
  | None => st
  end.

(** [init] up to [wbot.initialize()]: the session of the connection is
    removed and the new client is made; it is not in the array yet. *)
Definition init (whatsappId : Z) (st : State) : State :=
  let st1 := removeSession whatsappId st in
  mkState (<[nextClient st1 := mkClient whatsappId None false]> (heap st1))
          (sessions st1) (S (nextClient st1)).

(** What the "qr" and the "ready" listener of client [k] do to the array:
    the client is pushed, with its [id] set, unless the array has a
    session of that connection. *)
Definition register (k : nat) (st : State) : State :=
  match heap st !! k with
  | None => st
  | Some wbot =>
      match findIndex (owner wbot) st with
      | Some _ => st
      | None =>
          mkState (<[k := mkClient (owner wbot) (Some (owner wbot))
                                   (destroyed wbot)]> (heap st))
                  (sessions st ++ [k]) (nextClient st)
      end
  end.

Inductive Event :=
| Init (whatsappId : Z)
| Qr (k : nat)
| Ready (k : nat)
| RemoveSession (whatsappId : Z).

Definition handle (st : State) (e : Event) : State :=
  match e with
  | Init i => init i st
  | Qr k => register k st
  | Ready k => register k st
  | RemoveSession i => removeSession i st
  end.

Definition run (es : list Event) (st : State) : State :=
  fold_left handle es st.

(** The array as [getWbot] reads it. *)
Definition view (st : State) : list Wwebjs.Session :=
  (fun k => Wwebjs.mkSession (idOf st k)) <$> sessions st.

(** Every client in the array exists and carries the id of its
    connection, and no two entries carry the same id. *)
Record sessions_inv (st : State) : Prop := {
  inv_ids : ∀ k, k ∈ sessions st →
                 ∃ c, heap st !! k = Some c ∧ clientId c = Some (owner c);
  inv_owner : ∀ k c i, heap st !! k = Some c → clientId c = Some i →
                       owner c = i;
  inv_nodup : NoDup (idOf st <$> sessions st);
  inv_fresh : ∀ k, (nextClient st ≤ k)%nat → heap st !! k = None
}.

(** The row of the connection after the "auth_failure" listener of a
    client; [whatsapp.retries] is read again after the first update. *)
Definition onAuthFailure (w : Creds.Whatsapp) : Creds.Whatsapp :=
  let w1 :=
    if decide (1 < Creds.retries w)
    then Creds.applyPatch (Creds.mkPatch (Some "") None None (Some 0)) w
    else w in
  Creds.applyPatch
    (Creds.mkPatch None (Some "DISCONNECTED") None
                   (Some (Creds.retries w1 + 1))) w1.

End WwebjsSessions.

(** ** The services that call the provider ([SendWhatsAppMessage],
       [SendWhatsAppMedia], [CheckIsValidContact]) *)

(** The methods of interface [WhatsappProvider] that these services call.
    [World] is what a call depends on besides its arguments: the sessions
    that are registered and the answers of the client library.  [Sent] is
    what a provider records of a message handed to the network. *)
Class WhatsappProvider (World Sent : Type) := {
  providerSendMessage :
    World → Z → string → string → option Whaileys.SendMessageOptions →
    list Sent * Result ProviderMessage;
  providerSendMedia :
    World → Z → string → Whaileys.ProviderMediaInput →
    option Whaileys.SendMediaOptions → list Sent * Result ProviderMessage;
  providerCheckNumber : World → Z → string → Result string
}.

Module Services.

Record WhaileysWorld := mkWhaileysWorld {
  whaileysSessions : gmap Z Whaileys.Session;
  whaileysReply : Result (option Whaileys.WAMessage);
  whaileysReadFile : string → Result string;
  whaileysOnWhatsApp : string → Result (list Whaileys.OnWhatsApp);
  whaileysNow : Z
}.

#[global] Instance WhaileysProvider
  : WhatsappProvider WhaileysWorld Whaileys.NetworkSend := {
  providerSendMessage w sessionId to body options :=
    Whaileys.sendMessage (whaileysSessions w) sessionId to body options
                         (whaileysReply w) (whaileysNow w);
  providerSendMedia w sessionId to media options :=
    Whaileys.sendMedia (whaileysSessions w) sessionId to media options
                       (whaileysReadFile w) (whaileysReply w) (whaileysNow w);
  providerCheckNumber w sessionId number :=
    Whaileys.checkNumber (whaileysSessions w) sessionId number
                         (whaileysOnWhatsApp w)
}.

Record WwebjsWorld := mkWwebjsWorld {
  wwebjsSessions : list Wwebjs.Session;
  wwebjsReply : Result Wwebjs.WbotMessage;
  wwebjsLoaded : Result unit;
  wwebjsGetNumberId : string → Result (option string)
}.

#[global] Instance WhatsappWebJsProvider
  : WhatsappProvider WwebjsWorld string := {
  providerSendMessage w sessionId to body _ :=
    Wwebjs.sendMessage (wwebjsSessions w) sessionId to body (wwebjsReply w);
  providerSendMedia w sessionId to _ _ :=
    Wwebjs.sendMedia (wwebjsSessions w) sessionId to (wwebjsLoaded w)
                     (wwebjsReply w);
  providerCheckNumber w sessionId number :=
    Wwebjs.checkNumber (wwebjsSessions w) sessionId number
                       (wwebjsGetNumberId w)
}.

(** A ticket with its contact, as far as the services read it.  A
    [whatsappId] that is absent or 0 is falsy. *)
Record Ticket := mkTicket {
  whatsappId : option Z;
  contactNumber : string;
  isGroup : bool
}.

Record QuotedMsg := mkQuotedMsg { quotedId : string; quotedFromMe : bool }.

(** The file of an upload ([Express.Multer.File]). *)
Record MulterFile := mkMulterFile {
  fileFilename : string;
  fileMimetype : string;
  filePath : string
}.

(** What a service does besides calling the provider. *)
Inductive Effect :=
| TicketLastMessage (text : string)   (* ticket.update({ lastMessage }) *)
| Unlink (path : string).             (* fs.unlinkSync(path) *)

Definition truthyId (n : option Z) : option Z :=
  match n with
  | Some z => if decide (z = 0) then None else Some z
  | None => None
  end.

(** [err.message]. *)
Definition errorMessage (e : Error) : string :=
  match e with
  | App a => message a
  | JsError description => description
  end.

(** The template literal
    [${ticket.contact.number}@${ticket.isGroup ? "g" : "c"}.us]. *)
Definition chatIdOf (ticket : Ticket) : string :=
  contactNumber ticket +:+ "@" +:+ (if isGroup ticket then "g" else "c") +:+
  ".us".

Definition sendingError : Error := App (appError "ERR_SENDING_WAPP_MSG").

Section WithProvider.
Context {World Sent : Type} `{!WhatsappProvider World Sent}.

(** [SendWhatsAppMessage].  [formatBody] is the helper of
    [helpers/Mustache], applied to the contact of the ticket;
    [ticketUpdate] is the outcome of [ticket.update]. *)
Definition SendWhatsAppMessage
    (world : World) (formatBody : string → string) (body : string)
    (ticket : Ticket) (quotedMsg : option QuotedMsg)
    (ticketUpdate : Result unit)
  : list Sent * list Effect * Result ProviderMessage :=
  match truthyId (whatsappId ticket) with
  | None => ([], [], Thrown (App (appError "ERR_TICKET_NO_WHATSAPP")))
  | Some wid =>
      let chatId := chatIdOf ticket in
      let options :=
        Whaileys.mkSendMessageOptions (quotedId <$> quotedMsg)
                                      (quotedFromMe <$> quotedMsg)
                                      (Some false) in
      let '(sent, answer) :=
        providerSendMessage world wid chatId (formatBody body)
                            (Some options) in
      match answer with
      | Thrown _ => (sent, [], Thrown sendingError)
      | Returned sentMessage =>
          match ticketUpdate with
          | Thrown _ => (sent, [], Thrown sendingError)
          | Returned _ =>
              (sent, [TicketLastMessage body], Returned sentMessage)
          end
      end
  end.

(** [/^.*\.(jpe?g|png|gif)?$/i.exec(filename)]: the name has no line
    terminator in it and ends with a dot or with one of the
    extensions. *)
Definition imageFileName (filename : string) : bool :=
  let lower := Js.toLowerCase filename in
  negb (Js.includes (String (ascii_of_nat 10) "") filename) &&
  negb (Js.includes (String (ascii_of_nat 13) "") filename) &&
  negb (Js.includes (String (ascii_of_nat 226) (String (ascii_of_nat 128)
          (String (ascii_of_nat 168) ""))) filename) &&
  negb (Js.includes (String (ascii_of_nat 226) (String (ascii_of_nat 128)
          (String (ascii_of_nat 169) ""))) filename) &&
  (Js.endsWith "." lower || Js.endsWith ".jpg" lower ||
   Js.endsWith ".jpeg" lower || Js.endsWith ".png" lower ||
   Js.endsWith ".gif" lower).

(** [SendWhatsAppMedia]; the whole body is in the [try].  [unlink] is the
    outcome of [fs.unlinkSync]. *)
Definition SendWhatsAppMedia
    (world : World) (formatBody : string → string)
    (media : MulterFile) (ticket : Ticket) (body : option string)
    (ticketUpdate unlink : Result unit)
  : list Sent * list Effect * Result ProviderMessage :=
  match truthyId (whatsappId ticket) with
  | None => ([], [], Thrown sendingError)
  | Some wid =>
      let chatId := chatIdOf ticket in
      let hasBody := formatBody <$> Whaileys.truthy body in
      let mediaInput :=
        Whaileys.mkProviderMediaInput (fileFilename media)
          (fileMimetype media) (Some (filePath media)) None in
      let mediaOptions :=
        Whaileys.mkSendMediaOptions hasBody (Some true)
          (Some (Js.startsWith "image/" (fileMimetype media) &&
                 negb (imageFileName (fileFilename media))))
          None in
      let '(sent, answer) :=
        providerSendMedia world wid chatId mediaInput (Some mediaOptions) in
      match answer with
      | Thrown _ => (sent, [], Thrown sendingError)
      | Returned sentMessage =>
          let lastMessage := Js.orElse body (fileFilename media) in
          match ticketUpdate with
          | Thrown _ => (sent, [], Thrown sendingError)
          | Returned _ =>
              match unlink with
              | Thrown _ =>
                  (sent, [TicketLastMessage lastMessage],
                   Thrown sendingError)
              | Returned _ =>
                  (sent,
                   [TicketLastMessage lastMessage; Unlink (filePath media)],
                   Returned sentMessage)
              end
          end
      end
  end.

(** [CheckIsValidContact].  [defaultWhatsapp] is the outcome of
    [GetDefaultWhatsApp], the id of the default connection. *)
Definition CheckIsValidContact
    (world : World) (defaultWhatsapp : Result Z) (number : string)
  : Result unit :=
  match defaultWhatsapp with
  | Thrown e => Thrown e
  | Returned wid =>
      let attempt :=
        match providerCheckNumber world wid number with
        | Thrown e => Thrown e
        | Returned isValidNumber =>
            if decide (isValidNumber = "")
            then Thrown (App (appError "invalidNumber"))
            else Returned tt
        end in
      match attempt with
      | Returned _ => Returned tt
      | Thrown err =>
          if decide (errorMessage err = "invalidNumber")
          then Thrown (App (appError "ERR_WAPP_INVALID_CONTACT"))
          else Thrown (App (appError "ERR_WAPP_CHECK_CONTACT"))
      end
  end.

End WithProvider.

End Services.

(** ** Helpers of the message handler ([saveMediaFile],
       [processVcardMessage] in [handlers/handleWhatsappEvents]) *)

Module Handlers.

Record MediaPayload := mkMediaPayload {
  filename : string;
  mimetype : string;
  data : string
}.

Inductive Effect :=
| WriteFile (name : string) (content : string)  (* under public/, base64 *)
| Captured (err : Error)                        (* Sentry and logger.error *)
| CreateContact (name number : string).         (* CreateContactService *)

(** [parts.slice(0, -1)] and [parts.slice(-1)[0]]. *)
Definition allButLast {A} (parts : list A) : list A :=
  take (length parts - 1) parts.

(** [saveMediaFile].  [randomId] is what [makeRandomId(5)] answers, [now]
    the rendering of [new Date().getTime()], [write] the outcome of
    [writeFileAsync].  Taking element 1 of a mime type without "/" and
    splitting it throws. *)
Definition saveMediaFile
    (randomId : string) (now : Js.Rendered) (mediaPayload : MediaPayload)
    (write : Result unit) : list Effect * Result string :=
  let originalFilename := filename mediaPayload in
  let named :=
    if decide (originalFilename = "") then
      match Js.split "/" (mimetype mediaPayload) !! 1%nat with
      | None => Thrown (JsError "TypeError")
      | Some subtype =>
          let extension := default "" (head (Js.split ";" subtype)) in
          Returned (randomId +:+ "-" +:+ now +:+ "." +:+ extension)
      end
    else
      let parts := Js.split "." originalFilename in
      let baseName := Js.join "." (allButLast parts) in
      let extension := default "undefined" (last parts) in
      Returned (baseName +:+ "." +:+ randomId +:+ "." +:+ extension) in
  match named with
  | Thrown e => ([], Thrown e)
  | Returned name =>
      match write with
      | Returned _ => ([WriteFile name (data mediaPayload)], Returned name)
      | Thrown e =>
          ([WriteFile name (data mediaPayload); Captured e], Returned name)
      end
  end.

(** The loop of [processVcardMessage] over the values of one line; the
    state is [(phoneNumbers, contactName)]. *)
Definition vcardValue (values : list string)
    (acc : list string * string) (index : nat) : list string * string :=
  match values !! index with
  | None => acc
  | Some value =>
      let numbers :=
        if Js.includes "+" value then acc.1 ++ [value] else acc.1 in
      let name :=
        if Js.includes "FN" value then
          match values !! S index with
          | Some next => if decide (next = "") then acc.2 else next
          | None => acc.2
          end
        else acc.2 in
      (numbers, name)
  end.

Definition vcardLine (acc : list string * string) (line : string)
  : list string * string :=
  let values := Js.split ":" line in
  fold_left (vcardValue values) (seq 0 (length values)) acc.

(** [processVcardMessage]: the calls of [CreateContactService].  What a
    call throws is caught and logged. *)
Definition processVcardMessage (type : MessageType) (body : string)
  : list Effect :=
  if decide (type = vcard) then
    let '(phoneNumbers, contactName) :=
      fold_left vcardLine (Js.split (ascii_of_nat 10) body) ([], "") in
    (fun number => CreateContact contactName (Js.onlyDigits number)) <$>
      phoneNumbers
  else [].

End Handlers.

(** ** Media of a whaileys message ([convertToMediaPayload]) *)

Module WhaileysMedia.
Import Whaileys.

(** What the function reads of the media part of the message besides the
    content type: its [mimetype] and, for a document, its [title]. *)
Record MediaPart := mkMediaPart {
  partMimetype : option string;
  documentTitle : option string
}.

(** [mimetype.split("/")[1]?.split(";")[0] || fallback]. *)
Definition getExtension (mimetype fallback : string) : string :=
  Js.orElse (Js.split "/" mimetype !! 1%nat ≫= fun subtype =>
               head (Js.split ";" subtype))
            fallback.

(** [convertToMediaPayload].  [download] is the outcome of
    [downloadMediaMessage], in base64; [now] is the rendering of
    [Date.now()]. *)
Definition convertToMediaPayload
    (msg : WAMessage) (part : MediaPart) (download : Result string)
    (now : Js.Rendered) : option Handlers.MediaPayload :=
  if negb (hasMedia msg) then None
  else
    match download with
    | Thrown _ => None
    | Returned buffer =>
        let messageType := typeOrEmpty msg in
        if decide (messageType = "imageMessage") then
          let mimetype := Js.orElse (partMimetype part) "image/jpeg" in
          Some (Handlers.mkMediaPayload
                  ("image-" +:+ now +:+ "." +:+ getExtension mimetype "jpg")
                  mimetype buffer)
        else if decide (messageType = "videoMessage") then
          let mimetype := Js.orElse (partMimetype part) "video/mp4" in
          Some (Handlers.mkMediaPayload
                  ("video-" +:+ now +:+ "." +:+ getExtension mimetype "mp4")
                  mimetype buffer)
        else if decide (messageType = "audioMessage") then
          let mimetype :=
            Js.orElse (partMimetype part) "audio/ogg; codecs=opus" in
          Some (Handlers.mkMediaPayload ("audio-" +:+ now +:+ ".ogg")
                                        mimetype buffer)
        else if decide (messageType = "documentMessage") then
          let mimetype :=
            Js.orElse (partMimetype part) "application/octet-stream" in
          let ext := getExtension mimetype "bin" in
          Some (Handlers.mkMediaPayload
                  (Js.orElse (documentTitle part)
                             ("document-" +:+ now +:+ "." +:+ ext))
                  mimetype buffer)
        else if decide (messageType = "stickerMessage") then
          let mimetype := Js.orElse (partMimetype part) "image/webp" in
          Some (Handlers.mkMediaPayload ("sticker-" +:+ now +:+ ".webp")
                                        mimetype buffer)
        else Some (Handlers.mkMediaPayload "" "" buffer)
    end.

End WhaileysMedia.

(** ** Vocabulary of the statements, and inputs on which the model is run *)

(** The error of a number that has no account. *)
Definition notOnWhatsApp : Error :=
  App (mkAppError "ERR_NUMBER_NOT_ON_WHATSAPP" 404).

(** The text has no pipe in it. *)
Definition noPipe (s : string) : Prop := Js.includes "|" s = false.

(** A network on which the numbers of [registered] have an account. *)
Definition network (registered : list (string * string)) (n : string)
  : Result (list Whaileys.OnWhatsApp) :=
  Returned
    (match List.find (fun e => String.eqb (fst e) n) registered with
     | Some e => [Whaileys.mkOnWhatsApp true (snd e)]
     | None => []
     end).

Definition sentWaMessage : Whaileys.WAMessage :=
  Whaileys.mkWAMessage
    (Whaileys.mkKey (Some "5511999999999@s.whatsapp.net") (Some true)
                    (Some "3EB0A1") None)
    None (Some 1700000000) (Some 1).

Definition pendingWbotMessage : Wwebjs.WbotMessage :=
  Wwebjs.mkWbotMessage "3EB0A1" "hi" true false "chat" 1700000000
                       "5511888888888@c.us" "5511999999999@c.us" false 0 None.

Definition statusBroadcastText : Whaileys.WAMessage :=
  Whaileys.mkWAMessage
    (Whaileys.mkKey (Some "status@broadcast") (Some false) (Some "A1")
                    (Some "5511999999999@s.whatsapp.net"))
    (Some (Whaileys.mkIMessage (Some "conversation") (Some "hi") None None
             None None None None None false None None None None))
    (Some 1700000000) None.



Definition whaileysPin : Whaileys.WAMessage :=
  Whaileys.mkWAMessage
    (Whaileys.mkKey (Some "5511999999999@s.whatsapp.net") (Some false)
                    (Some "L1") None)
    (Some (Whaileys.mkIMessage (Some "locationMessage") None None None None
             None None None
             (Some (Whaileys.mkLocation "-23.55" "-46.63" None))
             false None None None None))
    (Some 1700000000) None.

Definition wwebjsPin : Wwebjs.WbotMessage :=
  Wwebjs.mkWbotMessage "L2" "iVBORw0KGgo" false false "location" 1700000000
    "5511999999999@c.us" "5511888888888@c.us" false 0
    (Some (Wwebjs.mkLocation "-23.55" "-46.63" (Some "Praca da Se"))).

(** A table in which one person is stored twice, once under the phone
    number, with a picture, and once under the linked-device id. *)
Definition twoIdentities : Contacts.Store :=
  Contacts.mkStore
    [ Contacts.mkContact 1 "Ana" (Some "5511999999999") None
                         (Some "https://pps.whatsapp.net/ana.jpg") "" false;
      Contacts.mkContact 2 "Ana L." (Some "") (Some "123456@lid") None ""
                         false ]
    [ Contacts.mkTicket 10 1; Contacts.mkTicket 11 2; Contacts.mkTicket 12 2 ]
    3 [].

(** A payload with both identities and without picture. *)
Definition bothIdentities : Contacts.Request :=
  Contacts.mkRequest "Ana" "+55 (11) 99999-9999" (Some "123456@lid") false None.

Definition oneMessage : Ack.State :=
  Ack.mkState {[ "3EB0A1" := Ack.mkMessage "3EB0A1" 7 "hi" 1 ]} [].

Definition aliceChat : string := "5511999999999@s.whatsapp.net".

Definition aliceSocket : WhaileysChats.Socket :=
  WhaileysChats.mkSocket None
    (Some {[ aliceChat := [statusBroadcastText; whaileysPin; sentWaMessage] ]}).

Definition aliceSockets : gmap Z WhaileysChats.Socket := {[ 1 := aliceSocket ]}.

Definition signalKeys : SessionKeys.SignalDataSet KeyStore.JsonConstant :=
  [ ("session", Some [("5511999999999.0", KeyStore.JBool true);
                      ("5511888888888.0", KeyStore.JNull)]);
    ("pre-key", Some [("1", KeyStore.JBool false)]);
    ("app-state-sync-key", None) ].

(** A connection that is linked, and the close event of a logout made on
    the phone. *)
Definition linkedRows : gmap Z Creds.Whatsapp :=
  {[ 1 := Creds.mkWhatsapp "{old}" "CONNECTED" "" 0 ]}.

Definition loggedOutClose : Creds.ConnectionUpdate :=
  Creds.mkConnectionUpdate (Some "close")
    (Some (Creds.mkBoom (Some 401) (Some "Connection Failure") None)) None.

(** A whaileys process with one live session, on a network that accepts
    what is sent and knows no number. *)
Definition oneSessionWorld : Services.WhaileysWorld :=
  Services.mkWhaileysWorld
    {[ 1 := Whaileys.mkSession (Some "5511888888888@s.whatsapp.net") ]}
    (Returned (Some sentWaMessage))
    (fun _ => Thrown (JsError "ENOENT"))
    (network [])
    1700000000000.

Definition aliceTicket : Services.Ticket :=
  Services.mkTicket (Some 1) "5511999999999" false.

(** A whatsapp-web.js process with one client in the array, on a network
    that knows no number. *)
Definition oneClientWorld : Services.WwebjsWorld :=
  Services.mkWwebjsWorld [Wwebjs.mkSession (Some 1)]
                         (Returned pendingWbotMessage) (Returned tt)
                         (fun _ => Returned None).

(** A payload that carries a phone number only. *)
Definition numberOnly : Contacts.Request :=
  Contacts.mkRequest "Ana Maria" "+55 (11) 99999-9999" None false None.

(** * Properties *)

Section RegistryFacts.
Import Registry.

Lemma registry_inv_initial : registry_inv initial.
Proof. split; cbn; intros; simplify_map_eq; done. Qed.

Lemma removeAllListeners_not_in ev w :
  ev ∉ listeners (removeAllListeners ev w).
Proof.
  cbn. rewrite list_elem_of_In, filter_In. intros [_ H].
  rewrite String.eqb_refl in H. discriminate.
Qed.

Lemma assertUnique_tornDown w :
  tornDown (end_ (removeAllListeners "connection.update" w)).
Proof. split; [done | apply removeAllListeners_not_in]. Qed.

End RegistryFacts.

Section RegistryProofs.
Import Registry.

Lemma assertUnique_sessions i j st :
  sessions (assertUnique i st) !! j =
  if decide (i = j) then None else sessions st !! j.
Proof.
  unfold assertUnique. destruct (sessions st !! i) as [k|] eqn:E; cbn.
  - rewrite lookup_delete. done.
  - case_decide; subst; done.
Qed.

Lemma assertUnique_inv i st :
  registry_inv st → registry_inv (assertUnique i st).
Proof.
  intros [Hl Hd Hr Hf]. unfold assertUnique.
  destruct (sessions st !! i) as [k|] eqn:E; [|by split].
  destruct (Hr _ _ E) as (w & Hw & Hid & Hen).
  split; cbn.
  - intros k' w' Hk' He. rewrite lookup_alter in Hk'. case_decide.
    + subst k'. rewrite Hw in Hk'. by simplify_eq/=.
    + specialize (Hl _ _ Hk' He). rewrite lookup_delete_ne; [done|].
      intros ?. congruence.
  - intros k' w' Hk' He. rewrite lookup_alter in Hk'. case_decide.
    + subst k'. rewrite Hw in Hk'. simplify_eq/=. apply assertUnique_tornDown.
    + eauto.
  - intros j k' Hj. rewrite lookup_delete in Hj. case_decide; [done|].
    destruct (Hr _ _ Hj) as (w' & Hw' & ? & ?). exists w'.
    split_and!; try done. rewrite lookup_alter_ne; [done|].
    intros <-. congruence.
  - intros k' Hk'. rewrite lookup_alter. case_decide; subst; rewrite Hf; done.
Qed.

Lemma initPrepare_inv i st :
  registry_inv st → registry_inv (snd (initPrepare i st)).
Proof. intros [Hl Hd Hr Hf]. by split. Qed.

Lemma initAttach_inv i s st :
  registry_inv st → registry_inv (initAttach i s st).
Proof.
  intros H. pose proof (assertUnique_inv i st H) as [Hl Hd Hr Hf].
  pose proof (assertUnique_sessions i i st) as Hnone.
  rewrite decide_True in Hnone by done.
  unfold initAttach. set (st1 := assertUnique i st) in *.
  split; cbn.
  - intros k w Hk He. rewrite lookup_insert in Hk. case_decide.
    + simplify_eq/=. by rewrite lookup_insert_eq.
    + specialize (Hl _ _ Hk He). rewrite lookup_insert_ne; [done|].
      intros ?. congruence.
  - intros k w Hk He. rewrite lookup_insert in Hk. case_decide.
    + by simplify_eq/=.
    + eauto.
  - intros j k Hj. rewrite lookup_insert in Hj. case_decide.
    + simplify_eq/=. eexists. by rewrite lookup_insert_eq.
    + destruct (Hr _ _ Hj) as (w & Hw & ? & ?). exists w.
      split_and!; try done. rewrite lookup_insert_ne; [done|].
      intros ?. subst k. rewrite Hf in Hw; [done | lia].
  - intros k Hk. rewrite lookup_insert_ne by lia. apply Hf. lia.
Qed.

Lemma step_inv st x : registry_inv st → registry_inv (step st x).
Proof. destruct x; cbn [step]; auto using initPrepare_inv, initAttach_inv. Qed.

Lemma run_inv sched st : registry_inv st → registry_inv (run sched st).
Proof.
  revert st. induction sched as [|x sched IH]; intros st H; [done|].
  apply IH, step_inv, H.
Qed.

Lemma step_sessions_is_Some st x i :
  is_Some (sessions st !! i) → is_Some (sessions (step st x) !! i).
Proof.
  destruct x as [j|j s]; cbn; [done|]. intros H.
  rewrite lookup_insert. case_decide; [done|].
  rewrite assertUnique_sessions. by rewrite decide_False.
Qed.

Lemma run_sessions_is_Some sched st i :
  is_Some (sessions st !! i) → is_Some (sessions (run sched st) !! i).
Proof.
  revert st. induction sched as [|x sched IH]; intros st H; [done|].
  apply IH, step_sessions_is_Some, H.
Qed.

Lemma run_attached sched st i s :
  In (Attach i s) sched → is_Some (sessions (run sched st) !! i).
Proof.
  revert st. induction sched as [|x sched IH]; intros st; [done|].
  intros [->|Hin]; [|by apply IH].
  apply (run_sessions_is_Some sched (step st (Attach i s))).
  cbn. rewrite lookup_insert_eq. done.
Qed.

Lemma live_registered st i k :
  registry_inv st → sessions st !! i = Some k →
  ∃ w, heap st !! k = Some w ∧ live i st = {[ k := w ]}.
Proof.
  intros [Hl Hd Hr Hf] Hk. destruct (Hr _ _ Hk) as (w & Hw & Hid & Hen).
  exists w. split; [done|]. apply map_eq. intros k'. unfold live.
  destruct (decide (k' = k)) as [->|Hne].
  - rewrite lookup_singleton_eq. by apply map_lookup_filter_Some.
  - rewrite lookup_singleton_ne by done.
    apply map_lookup_filter_None. right. intros w' Hw' [Hi He]. cbn in *.
    specialize (Hl _ _ Hw' He). congruence.
Qed.

Lemma live_unregistered st i :
  registry_inv st → sessions st !! i = None → live i st = ∅.
Proof.
  intros [Hl Hd Hr Hf] Hk. apply map_eq. intros k. rewrite lookup_empty.
  apply map_lookup_filter_None. right. intros w Hw [Hi He]. cbn in *.
  specialize (Hl _ _ Hw He). congruence.
Qed.

Lemma live_at_most_one st i : registry_inv st → (size (live i st) ≤ 1)%nat.
Proof.
  intros H. destruct (sessions st !! i) as [k|] eqn:E.
  - destruct (live_registered _ _ _ H E) as (w & _ & ->).
    rewrite map_size_singleton. lia.
  - rewrite live_unregistered by done. rewrite map_size_empty. lia.
Qed.

(** C1.  From the initial process state and along any schedule of the
    atomic steps of [init] calls: (1) every connection id has at most one
    socket that was not ended; (2) a further [init] attach for an id whose
    socket [old] is registered first evicts the registration, and leaves
    [old] ended with its "connection.update" listeners removed, while a
    fresh socket is registered in its place; (3) an id for which an attach
    step ran has exactly one not-ended socket, the registered one. *)
Theorem init_keeps_one_live_handle_per_id (sched : list Step) :
  let st := run sched initial in
  (∀ i, (size (live i st) ≤ 1)%nat) ∧
  (∀ i s old,
      sessions st !! i = Some old →
      sessions (assertUnique i st) !! i = None ∧
      ∃ w new,
        heap (initAttach i s st) !! old = Some w ∧ tornDown w ∧
        heap st !! new = None ∧ new ≠ old ∧
        sessions (initAttach i s st) !! i = Some new ∧
        live i (initAttach i s st) =
          {[ new := mkSession i (Some s) initListeners false ]}) ∧
  (∀ i s, In (Attach i s) sched →
          ∃ k w, sessions st !! i = Some k ∧ live i st = {[ k := w ]}).
Proof.
  intros st. assert (Hinv : registry_inv st).
  { apply run_inv, registry_inv_initial. }
  split_and!.
  - intros i. by apply live_at_most_one.
  - intros i s old Hold.
    pose proof (assertUnique_sessions i i st) as Hnone.
    rewrite decide_True in Hnone by done. split; [done|].
    pose proof (initAttach_inv i s st Hinv) as Hinv'.
    destruct (inv_reg _ Hinv _ _ Hold) as (w0 & Hw0 & Hid0 & Hen0).
    assert (Hlt : (old < nextSocket st)%nat).
    { destruct (decide (old < nextSocket st)%nat); [done|].
      rewrite (inv_fresh _ Hinv) in Hw0; [done | lia]. }
    assert (Hnext : nextSocket (assertUnique i st) = nextSocket st).
    { unfold assertUnique. by rewrite Hold. }
    exists (end_ (removeAllListeners "connection.update" w0)), (nextSocket st).
    assert (Hnew : sessions (initAttach i s st) !! i = Some (nextSocket st)).
    { unfold initAttach. cbn. rewrite Hnext. apply lookup_insert_eq. }
    split_and!.
    + unfold initAttach. cbn. rewrite Hnext.
      rewrite lookup_insert_ne by lia. unfold assertUnique. rewrite Hold. cbn.
      rewrite lookup_alter_eq. by rewrite Hw0.
    + apply assertUnique_tornDown.
    + by apply (inv_fresh _ Hinv).
    + lia.
    + done.
    + destruct (live_registered _ _ _ Hinv' Hnew) as (w & Hw & ->).
      f_equal. unfold initAttach in Hw. cbn in Hw. rewrite Hnext in Hw.
      rewrite lookup_insert_eq in Hw. congruence.
  - intros i s Hin. destruct (run_attached sched initial i s Hin) as [k Hk].
    destruct (live_registered _ _ _ Hinv Hk) as (w & _ & Hw). eauto.
Qed.

Lemma init_keeps_one_live_handle_per_id_witness :
  let st := run [Prepare 7; Attach 7 0%nat] initial in
  sessions st !! 7 = Some 0%nat ∧
  (∃ w new,
      heap (initAttach 7 1%nat st) !! 0%nat = Some w ∧ tornDown w ∧
      heap st !! new = None ∧ new ≠ 0%nat ∧
      sessions (initAttach 7 1%nat st) !! 7 = Some new ∧
      live 7 (initAttach 7 1%nat st) =
        {[ new := mkSession 7 (Some 1%nat) initListeners false ]}) ∧
  (∃ k w, sessions st !! 7 = Some k ∧ live 7 st = {[ k := w ]}).
Proof.
  intros st.
  destruct (init_keeps_one_live_handle_per_id [Prepare 7; Attach 7 0%nat])
    as (_ & H2 & H3).
  split_and!.
  - reflexivity.
  - exact (proj2 (H2 7 1%nat 0%nat eq_refl)).
  - apply (H3 7 0%nat). right. left. reflexivity.
Defined.

End RegistryProofs.

Section CredsProofs.
Import Creds.

Lemma debounce_inv_initial rows : debounce_inv (initial rows).
Proof. split; cbn; intros; simplify_map_eq; done. Qed.

Lemma sessionWrites_emit wid e st :
  sessionWrites wid (emit e st) =
  (sessionWrites wid st ++ from_option (λ s, [s]) [] (sessionWrite wid e))%list.
Proof.
  unfold sessionWrites. cbn. rewrite omap_app. cbn.
  by destruct (sessionWrite wid e).
Qed.

Lemma sessionWrites_update_ne wid w p st :
  w ≠ wid → sessionWrites wid (whatsappUpdate w p st) = sessionWrites wid st.
Proof.
  intros Hne. unfold whatsappUpdate. rewrite sessionWrites_emit. cbn.
  rewrite decide_False by done. cbn. by rewrite app_nil_r.
Qed.

Lemma sessionWrites_save wid r st :
  sessionWrites wid (saveSessionCreds wid r st) =
  (sessionWrites wid st ++ [credsObjects st r])%list.
Proof.
  unfold saveSessionCreds, whatsappUpdate. rewrite sessionWrites_emit. cbn.
  by rewrite decide_True.
Qed.

Lemma flush_inv wid st :
  debounce_inv st → debounce_inv (flushPendingCredsSave wid st).
Proof.
  intros [Ht Hn]. unfold flushPendingCredsSave.
  set (st1 := match credsDebounceTimers st !! wid with
              | Some k => _ | None => st end).
  assert (debounce_inv st1) as [Ht1 Hn1].
  { subst st1. destruct (credsDebounceTimers st !! wid) as [k|] eqn:E;
      [|by split].
    split; cbn.
    - intros k' t' Hk'. apply lookup_delete_Some in Hk' as [Hne Hk'].
      specialize (Ht _ _ Hk'). rewrite lookup_delete_ne; [done|].
      intros ?. congruence.
    - intros k' Hk'. rewrite lookup_delete. case_decide; auto. }
  destruct (pendingCredsSaves st1 !! wid) as [[w c]|]; by split.
Qed.

Lemma flush_idle wid st :
  debounce_inv st → idle wid (flushPendingCredsSave wid st).
Proof.
  intros [Ht Hn]. unfold flushPendingCredsSave.
  set (st1 := match credsDebounceTimers st !! wid with
              | Some k => _ | None => st end).
  assert (credsDebounceTimers st1 !! wid = None ∧
          ∀ k t, timers st1 !! k = Some t → t_whatsapp t ≠ wid) as [H1 H2].
  { subst st1. destruct (credsDebounceTimers st !! wid) as [k|] eqn:E; cbn.
    - split; [apply lookup_delete_eq|].
      intros k' t' Hk' ?. apply lookup_delete_Some in Hk' as [Hne Hk'].
      specialize (Ht _ _ Hk'). congruence.
    - split; [done|]. intros k' t' Hk' ?. specialize (Ht _ _ Hk').
      congruence. }
  destruct (pendingCredsSaves st1 !! wid) as [[w c]|] eqn:E; cbn.
  - split_and!; [done | apply lookup_delete_eq | done].
  - by split_and!.
Qed.

Lemma flush_pending wid r st :
  pendingCredsSaves st !! wid = Some (wid, r) →
  log (flushPendingCredsSave wid st) =
    (log st ++ [Update wid (credsPatch (credsObjects st r))])%list ∧
  sessionWrites wid (flushPendingCredsSave wid st) =
    (sessionWrites wid st ++ [credsObjects st r])%list.
Proof.
  intros Hp. unfold flushPendingCredsSave.
  set (st1 := match credsDebounceTimers st !! wid with
              | Some k => _ | None => st end).
  assert (pendingCredsSaves st1 = pendingCredsSaves st ∧ log st1 = log st ∧
          credsObjects st1 = credsObjects st) as (E1 & E2 & E3).
  { subst st1. by destruct (credsDebounceTimers st !! wid). }
  rewrite E1, Hp. rewrite sessionWrites_save. cbn.
  unfold sessionWrites. cbn. by rewrite E2, E3.
Qed.

Lemma flush_nothing_pending wid st :
  pendingCredsSaves st !! wid = None →
  log (flushPendingCredsSave wid st) = log st.
Proof.
  intros Hp. unfold flushPendingCredsSave.
  set (st1 := match credsDebounceTimers st !! wid with
              | Some k => _ | None => st end).
  assert (pendingCredsSaves st1 = pendingCredsSaves st ∧ log st1 = log st)
    as (E1 & E2).
  { subst st1. by destruct (credsDebounceTimers st !! wid). }
  by rewrite E1, Hp.
Qed.

Lemma debounced_inv d wid r st :
  debounce_inv st → debounce_inv (debouncedSaveCredsAfter d wid r st).
Proof.
  intros [Ht Hn]. unfold debouncedSaveCredsAfter.
  set (st1 := match credsDebounceTimers st !! wid with
              | Some k => _ | None => st end).
  assert (credsDebounceTimers st1 = credsDebounceTimers st ∧
          nextTimer st1 = nextTimer st ∧
          (∀ k t, timers st1 !! k = Some t →
                  timers st !! k = Some t ∧ t_whatsapp t ≠ wid))
    as (E1 & E2 & E3).
  { subst st1. destruct (credsDebounceTimers st !! wid) as [k|] eqn:E; cbn.
    - split_and!; try done. intros k' t' Hk'.
      apply lookup_delete_Some in Hk' as [Hne Hk']. split; [done|].
      intros ?. specialize (Ht _ _ Hk'). congruence.
    - split_and!; try done. intros k' t' Hk'. split; [done|].
      intros ?. specialize (Ht _ _ Hk'). congruence. }
  split; cbn; rewrite ?E1, ?E2.
  - intros k t Hk. rewrite lookup_insert in Hk. case_decide.
    + simplify_eq/=. apply lookup_insert_eq.
    + destruct (E3 _ _ Hk) as [Hk' Hne]. rewrite lookup_insert_ne by done.
      by apply Ht.
  - intros k Hk. rewrite lookup_insert_ne by lia.
    destruct (timers st1 !! k) as [t|] eqn:E; [|done].
    destruct (E3 _ _ E) as [Hk' _]. rewrite Hn in Hk'; [done | lia].
Qed.

Lemma debounced_armed wid r st :
  debounce_inv st →
  armed wid r (now st + 1000) (debouncedSaveCreds wid r st) ∧
  log (debouncedSaveCreds wid r st) = log st ∧
  now (debouncedSaveCreds wid r st) = now st ∧
  credsObjects (debouncedSaveCreds wid r st) = credsObjects st.
Proof.
  intros Hinv. unfold debouncedSaveCreds, debouncedSaveCredsAfter.
  set (st1 := match credsDebounceTimers st !! wid with
              | Some k => _ | None => st end).
  assert (log st1 = log st ∧ now st1 = now st ∧
          credsObjects st1 = credsObjects st) as (E1 & E2 & E3).
  { subst st1. by destruct (credsDebounceTimers st !! wid). }
  split_and!; cbn; try done.
  exists (nextTimer st1). cbn. rewrite !lookup_insert_eq, E2. done.
Qed.

Lemma elem_of_dueTimers k t st :
  (k, t) ∈ dueTimers st ↔ timers st !! k = Some t ∧ deadline t ≤ now st.
Proof.
  unfold dueTimers. rewrite merge_sort_Permutation.
  rewrite list_elem_of_filter, elem_of_map_to_list. cbn. tauto.
Qed.

Lemma NoDup_dueTimers st : NoDup (dueTimers st).
Proof.
  unfold dueTimers. rewrite merge_sort_Permutation.
  apply NoDup_filter, NoDup_map_to_list.
Qed.

(** A timeout that belongs to another connection leaves [wid] alone. *)
Lemma fire_other wid k t st :
  t_whatsapp t ≠ wid →
  sessionWrites wid (fire (k, t) st) = sessionWrites wid st ∧
  credsDebounceTimers (fire (k, t) st) !! wid =
    credsDebounceTimers st !! wid ∧
  pendingCredsSaves (fire (k, t) st) !! wid = pendingCredsSaves st !! wid.
Proof.
  intros Hne. unfold fire, saveSessionCreds.
  rewrite sessionWrites_update_ne by done. cbn.
  by rewrite !lookup_delete_ne.
Qed.

Lemma fire_frame k t st :
  timers (fire (k, t) st) = delete k (timers st) ∧
  now (fire (k, t) st) = now st ∧
  nextTimer (fire (k, t) st) = nextTimer st ∧
  credsObjects (fire (k, t) st) = credsObjects st.
Proof. done. Qed.

Lemma fire_own wid k t st :
  t_whatsapp t = wid →
  sessionWrites wid (fire (k, t) st) =
    (sessionWrites wid st ++ [credsObjects st (t_creds t)])%list ∧
  credsDebounceTimers (fire (k, t) st) !! wid = None ∧
  pendingCredsSaves (fire (k, t) st) !! wid = None.
Proof.
  intros <-. unfold fire. rewrite sessionWrites_save. cbn.
  by rewrite !lookup_delete_eq.
Qed.

Lemma fire_inv k t st :
  timers st !! k = Some t → debounce_inv st → debounce_inv (fire (k, t) st).
Proof.
  intros Hk [Ht Hn]. split; cbn.
  - intros k' t' Hk'. apply lookup_delete_Some in Hk' as [Hne Hk'].
    rewrite lookup_delete_ne; [by apply Ht|].
    intros E. specialize (Ht _ _ Hk) as H1. specialize (Ht _ _ Hk') as H2.
    congruence.
  - intros k' Hk'. rewrite lookup_delete. case_decide; auto.
Qed.

(** Running a list of distinct pending timeouts. *)
Lemma fold_fire_frame l st :
  now (fold_left (fun s kt => fire kt s) l st) = now st ∧
  nextTimer (fold_left (fun s kt => fire kt s) l st) = nextTimer st ∧
  credsObjects (fold_left (fun s kt => fire kt s) l st) = credsObjects st ∧
  ∀ k, (∀ t, (k, t) ∉ l) →
       timers (fold_left (fun s kt => fire kt s) l st) !! k = timers st !! k.
Proof.
  revert st. induction l as [|[k t] l IH]; intros st; [done|].
  cbn [fold_left]. destruct (IH (fire (k, t) st)) as (E1 & E2 & E3 & E4).
  destruct (fire_frame k t st) as (F1 & F2 & F3 & F4).
  rewrite E1, E2, E3, F2, F3, F4. split_and!; try done.
  intros k' Hk'. rewrite E4.
  - rewrite F1. apply lookup_delete_ne. intros ->. apply (Hk' t).
    apply elem_of_cons. by left.
  - intros t' ?. apply (Hk' t'). apply elem_of_cons. by right.
Qed.

Lemma fold_fire_inv l st :
  NoDup l → (∀ k t, (k, t) ∈ l → timers st !! k = Some t) →
  debounce_inv st → debounce_inv (fold_left (fun s kt => fire kt s) l st).
Proof.
  revert st. induction l as [|[k t] l IH]; intros st Hnd Hin Hinv; [done|].
  apply NoDup_cons in Hnd as [Hnotin Hnd]. cbn [fold_left].
  assert (Hk : timers st !! k = Some t) by (apply Hin; apply elem_of_cons; by left).
  apply IH; [done | | by apply fire_inv].
  intros k' t' Hin'. cbn.
  assert (timers st !! k' = Some t') by (apply Hin, elem_of_cons; by right).
  rewrite lookup_delete_ne; [done|]. intros ->.
  assert (t' = t) as -> by congruence. done.
Qed.

Lemma fold_fire_others wid l st :
  (∀ k t, (k, t) ∈ l → t_whatsapp t ≠ wid) →
  let st' := fold_left (fun s kt => fire kt s) l st in
  sessionWrites wid st' = sessionWrites wid st ∧
  credsDebounceTimers st' !! wid = credsDebounceTimers st !! wid ∧
  pendingCredsSaves st' !! wid = pendingCredsSaves st !! wid.
Proof.
  revert st. induction l as [|[k t] l IH]; intros st Hl; [done|].
  cbn [fold_left]. cbn zeta.
  destruct (IH (fire (k, t) st)) as (E1 & E2 & E3).
  { intros k' t' ?. apply (Hl k' t'), elem_of_cons. by right. }
  destruct (fire_other wid k t st) as (F1 & F2 & F3);
    [apply (Hl k t), elem_of_cons; by left|].
  cbn zeta in *. by rewrite E1, E2, E3, F1, F2, F3.
Qed.

Lemma fold_fire_own wid kw tw l st :
  NoDup l → t_whatsapp tw = wid →
  (∀ k t, (k, t) ∈ l → (k, t) = (kw, tw) ∨ t_whatsapp t ≠ wid) →
  (kw, tw) ∈ l →
  let st' := fold_left (fun s kt => fire kt s) l st in
  sessionWrites wid st' =
    (sessionWrites wid st ++ [credsObjects st (t_creds tw)])%list ∧
  credsDebounceTimers st' !! wid = None ∧
  pendingCredsSaves st' !! wid = None.
Proof.
  revert st. induction l as [|[k t] l IH]; intros st Hnd Hw Hl Hin.
  { by apply elem_of_nil in Hin. }
  apply NoDup_cons in Hnd as [Hnotin Hnd]. cbn [fold_left]. cbn zeta.
  destruct (decide ((k, t) = (kw, tw))) as [E|Hne].
  - simplify_eq. destruct (fold_fire_others (t_whatsapp tw) l
                             (fire (kw, tw) st)) as (E1 & E2 & E3).
    { intros k t Hkt.
      destruct (Hl k t) as [?|?]; [apply elem_of_cons; by right| |done].
      simplify_eq. done. }
    destruct (fire_own (t_whatsapp tw) kw tw st) as (F1 & F2 & F3); [done|].
    cbn zeta in *. by rewrite E1, E2, E3, F1, F2, F3.
  - apply elem_of_cons in Hin as [?|Hin]; [congruence|].
    destruct (IH (fire (k, t) st)) as (E1 & E2 & E3); try done.
    { intros k' t' ?. apply (Hl k' t'), elem_of_cons. by right. }
    destruct (Hl k t) as [?|Hother]; [apply elem_of_cons; by left | done |].
    destruct (fire_other wid k t st Hother) as (F1 & F2 & F3).
    destruct (fire_frame k t st) as (_ & _ & _ & F4).
    cbn zeta in *. by rewrite E1, E2, E3, F1, F4.
Qed.

Lemma fold_fire_timers_sub l st k t :
  timers (fold_left (fun s kt => fire kt s) l st) !! k = Some t →
  timers st !! k = Some t.
Proof.
  revert st. induction l as [|[k' t'] l IH]; intros st; [done|].
  cbn [fold_left]. intros H. apply IH in H. cbn in H.
  by apply lookup_delete_Some in H as [_ H].
Qed.

Lemma advance_inv dt st : debounce_inv st → debounce_inv (advance dt st).
Proof.
  intros [Ht Hn]. unfold advance. apply fold_fire_inv.
  - apply NoDup_dueTimers.
  - intros k t Hin. by apply elem_of_dueTimers in Hin as [? _].
  - by split.
Qed.

Lemma advance_frame dt st :
  now (advance dt st) = now st + dt ∧
  credsObjects (advance dt st) = credsObjects st.
Proof.
  unfold advance.
  destruct (fold_fire_frame (dueTimers (setNow (now st + dt) st))
              (setNow (now st + dt) st)) as (E1 & _ & E3 & _).
  by rewrite E1, E3.
Qed.

Lemma idle_of_inv wid st :
  debounce_inv st → credsDebounceTimers st !! wid = None →
  pendingCredsSaves st !! wid = None → idle wid st.
Proof.
  intros [Ht _] H1 H2. split_and!; try done.
  intros k t Hk ?. specialize (Ht _ _ Hk). congruence.
Qed.

(** Before its deadline a scheduled write stays scheduled and unwritten. *)
Lemma advance_not_due wid r d dt st :
  debounce_inv st → armed wid r d st → now st + dt < d →
  armed wid r d (advance dt st) ∧
  sessionWrites wid (advance dt st) = sessionWrites wid st.
Proof.
  intros [Ht Hn] (kw & Hreg & Htimer & Hpend) Hlt. unfold advance.
  set (st1 := setNow (now st + dt) st).
  assert (Hothers : ∀ k t, (k, t) ∈ dueTimers st1 → t_whatsapp t ≠ wid).
  { intros k t Hin Hw. apply elem_of_dueTimers in Hin as [Hk Hdue].
    cbn in Hk, Hdue. specialize (Ht _ _ Hk). rewrite Hw, Hreg in Ht.
    assert (k = kw) as -> by congruence.
    assert (t = mkTimer d wid r) as -> by congruence. cbn in Hdue. lia. }
  destruct (fold_fire_others wid _ st1 Hothers) as (E1 & E2 & E3).
  destruct (fold_fire_frame (dueTimers st1) st1) as (_ & _ & _ & E4).
  cbn zeta in *. split; [|done]. exists kw. rewrite E2, E3, E4; [done|].
  intros t Hin. apply (Hothers _ _ Hin).
  apply elem_of_dueTimers in Hin as [Hk _]. cbn in Hk.
  assert (t = mkTimer d wid r) as -> by congruence. done.
Qed.

(** Once the deadline has passed the write is made, with the credentials
    as they are then, and nothing stays scheduled. *)
Lemma advance_due wid r d dt st :
  debounce_inv st → armed wid r d st → d ≤ now st + dt →
  sessionWrites wid (advance dt st) =
    sessionWrites wid st ++ [credsObjects st r] ∧
  idle wid (advance dt st).
Proof.
  intros Hinv (kw & Hreg & Htimer & Hpend) Hle.
  pose proof (advance_inv dt st Hinv) as Hinv'.
  destruct Hinv as [Ht Hn]. unfold advance in *.
  set (st1 := setNow (now st + dt) st) in *.
  destruct (fold_fire_own wid kw (mkTimer d wid r) (dueTimers st1) st1)
    as (E1 & E2 & E3).
  - apply NoDup_dueTimers.
  - done.
  - intros k t Hin. apply elem_of_dueTimers in Hin as [Hk _]. cbn in Hk.
    destruct (decide (t_whatsapp t = wid)) as [Hw|]; [left | by right].
    specialize (Ht _ _ Hk). rewrite Hw, Hreg in Ht.
    assert (k = kw) as -> by congruence. congruence.
  - apply elem_of_dueTimers. by split.
  - cbn zeta in *. split; [done|]. by apply idle_of_inv.
Qed.

Lemma advance_idle wid dt st :
  debounce_inv st → idle wid st →
  sessionWrites wid (advance dt st) = sessionWrites wid st ∧
  idle wid (advance dt st).
Proof.
  intros Hinv (H1 & H2 & H3).
  pose proof (advance_inv dt st Hinv) as Hinv'. unfold advance in *.
  set (st1 := setNow (now st + dt) st) in *.
  destruct (fold_fire_others wid (dueTimers st1) st1) as (E1 & E2 & E3).
  { intros k t Hin. apply elem_of_dueTimers in Hin as [Hk _]. eauto. }
  cbn zeta in *. split; [done|]. apply idle_of_inv; [done| |].
  - by rewrite E2.
  - by rewrite E3.
Qed.

Lemma inv_same st st' :
  timers st' = timers st → credsDebounceTimers st' = credsDebounceTimers st →
  nextTimer st' = nextTimer st → debounce_inv st → debounce_inv st'.
Proof. intros E1 E2 E3 [Ht Hn]. split; rewrite ?E1, ?E2, ?E3; done. Qed.

Lemma emit_inv e st : debounce_inv st → debounce_inv (emit e st).
Proof. by apply (inv_same st). Qed.

Lemma whatsappUpdate_inv w p st :
  debounce_inv st → debounce_inv (whatsappUpdate w p st).
Proof. by apply (inv_same st). Qed.

Lemma emitIfFound_inv w st : debounce_inv st → debounce_inv (emitIfFound w st).
Proof. unfold emitIfFound. destruct (_ !! _); auto using emit_inv. Qed.

Lemma sleep_inv ms st : debounce_inv st → debounce_inv (sleep ms st).
Proof. intros. by apply advance_inv, emit_inv. Qed.

Lemma removeSession_inv w st :
  debounce_inv st → debounce_inv (removeSession w st).
Proof. intros. by apply emit_inv, flush_inv. Qed.

Lemma afterClose_inv w u st :
  debounce_inv st → debounce_inv (afterClose w u st).
Proof.
  intros H. unfold afterClose, onOpen, onQr.
  case_decide; destruct (qr u);
    auto 10 using emit_inv, whatsappUpdate_inv, emitIfFound_inv, flush_inv.
Qed.

Lemma onConnectionUpdate_inv w u st :
  debounce_inv st → debounce_inv (onConnectionUpdate w u st).
Proof.
  intros H. unfold onConnectionUpdate. repeat case_decide;
    auto 10 using emit_inv, whatsappUpdate_inv, emitIfFound_inv, flush_inv,
      sleep_inv, removeSession_inv, afterClose_inv.
Qed.

Lemma logout_inv w live st : debounce_inv st → debounce_inv (logout w live st).
Proof.
  intros H. unfold logout. apply emit_inv.
  set (st3 := removeSession w _).
  assert (debounce_inv st3).
  { subst st3. destruct live;
      auto 10 using emit_inv, flush_inv, removeSession_inv. }
  destruct (whatsapps st3 !! w);
    auto 10 using emitIfFound_inv, whatsappUpdate_inv.
Qed.

Lemma handle_inv e st : debounce_inv st → debounce_inv (handle st e).
Proof.
  destruct e; cbn [handle];
    auto using advance_inv, flush_inv, onConnectionUpdate_inv, logout_inv.
  - by apply (inv_same st).
  - apply debounced_inv.
Qed.

Lemma run_debounce_inv es st : debounce_inv st → debounce_inv (run es st).
Proof.
  revert st. induction es as [|e es IH]; intros st H; [done|].
  apply IH, handle_inv, H.
Qed.

Lemma run_app es1 es2 st : run (es1 ++ es2) st = run es2 (run es1 st).
Proof. apply fold_left_app. Qed.

Lemma last_cons_default {A} (a d : A) l :
  List.last (a :: l) d = List.last l a.
Proof.
  revert a d. induction l as [|b l IH]; intros a d; [done|].
  change (List.last (a :: b :: l) d) with (List.last (b :: l) d).
  rewrite (IH b d), (IH b a). done.
Qed.

(** One credential event: the object is rewritten, the write is scheduled
    one second ahead, nothing is written. *)
Lemma burstEvent_armed wid r v st :
  debounce_inv st →
  let st' := run (burstEvent wid r v) st in
  debounce_inv st' ∧ armed wid r (now st' + 1000) st' ∧
  sessionWrites wid st' = sessionWrites wid st ∧ credsObjects st' r = v.
Proof.
  intros Hinv.
  change (run (burstEvent wid r v) st)
    with (debouncedSaveCreds wid r (setCredsObject r v st)).
  cbn zeta.
  assert (Hinv1 : debounce_inv (setCredsObject r v st))
    by by apply (inv_same st).
  destruct (debounced_armed wid r _ Hinv1) as (Ha & El & En & Eo).
  split_and!.
  - by apply debounced_inv.
  - by rewrite En.
  - unfold sessionWrites. by rewrite El.
  - rewrite Eo. cbn. by rewrite decide_True.
Qed.

Lemma burst_armed wid r rest : ∀ v1 st,
  debounce_inv st → (∀ d v, (d, v) ∈ rest → 0 ≤ d < 1000) →
  let st' := run (burst wid r v1 rest) st in
  debounce_inv st' ∧ armed wid r (now st' + 1000) st' ∧
  sessionWrites wid st' = sessionWrites wid st ∧
  credsObjects st' r = lastValue v1 rest.
Proof.
  induction rest as [|[d v] rest IH]; intros v1 st Hinv Hd.
  - unfold burst. cbn [flat_map]. rewrite app_nil_r.
    by apply burstEvent_armed.
  - assert (E : burst wid r v1 ((d, v) :: rest) =
                burstEvent wid r v1 ++ Advance d :: burst wid r v rest)
      by done.
    rewrite E. cbn zeta. rewrite run_app.
    destruct (burstEvent_armed wid r v1 st Hinv) as (Hinv1 & Ha1 & Ew1 & _).
    set (st1 := run (burstEvent wid r v1) st) in *.
    change (run (Advance d :: burst wid r v rest) st1)
      with (run (burst wid r v rest) (advance d st1)).
    assert (0 ≤ d < 1000) as Hrange by (apply (Hd d v), elem_of_cons; by left).
    destruct (advance_not_due wid r _ d st1 Hinv1 Ha1) as (_ & Ew2); [lia|].
    destruct (IH v (advance d st1)) as (Hinv3 & Ha3 & Ew3 & Eo3).
    { by apply advance_inv. }
    { intros d' v' ?. apply (Hd d' v'), elem_of_cons. by right. }
    cbn zeta in *. split_and!; try done.
    + by rewrite Ew3, Ew2, Ew1.
    + rewrite Eo3. unfold lastValue. cbn [List.map snd].
      by rewrite last_cons_default.
Qed.

(** Effects are only ever added at the end of the log. *)
Lemma fold_fire_log l st :
  ∃ es, log (fold_left (fun s kt => fire kt s) l st) = log st ++ es.
Proof.
  revert st. induction l as [|[k t] l IH]; intros st.
  - exists []. by rewrite app_nil_r.
  - cbn [fold_left]. destruct (IH (fire (k, t) st)) as [es ->]. cbn.
    eexists. by rewrite <- app_assoc.
Qed.

Lemma sleep_log ms st : ∃ es, log (sleep ms st) = log st ++ Sleep ms :: es.
Proof.
  unfold sleep, advance.
  destruct (fold_fire_log
              (dueTimers (setNow (now (emit (Sleep ms) st) + ms)
                                 (emit (Sleep ms) st)))
              (setNow (now (emit (Sleep ms) st) + ms) (emit (Sleep ms) st)))
    as [es ->].
  cbn. exists es. by rewrite <- app_assoc.
Qed.

Lemma afterClose_log w u st : ∃ es, log (afterClose w u st) = log st ++ es.
Proof.
  unfold afterClose, onQr.
  assert (∃ es, log (if decide (connection u = Some "open")
                     then onOpen w st else st) = log st ++ es) as [es1 E1].
  { case_decide; [|exists []; by rewrite app_nil_r].
    unfold onOpen, emitIfFound, flushPendingCredsSave.
    repeat case_match; cbn; rewrite <- ?app_assoc; eauto. }
  destruct (qr u); cbn; rewrite E1, <- ?app_assoc; eauto.
Qed.

Lemma flush_clears wid st :
  credsDebounceTimers (flushPendingCredsSave wid st) !! wid = None ∧
  pendingCredsSaves (flushPendingCredsSave wid st) !! wid = None.
Proof.
  unfold flushPendingCredsSave.
  set (st1 := match credsDebounceTimers st !! wid with
              | Some k => _ | None => st end).
  assert (credsDebounceTimers st1 !! wid = None) as H1.
  { subst st1. destruct (credsDebounceTimers st !! wid) eqn:E; cbn; [|done].
    apply lookup_delete_eq. }
  destruct (pendingCredsSaves st1 !! wid) as [[w c]|] eqn:E; cbn; [|done].
  by rewrite lookup_delete_eq.
Qed.

(** A reconnect: the pending credentials are written first, [init] is
    called afterwards. *)
Lemma reconnect_log wid r u st :
  pendingCredsSaves st !! wid = Some (wid, r) →
  connection u = Some "close" →
  errorMessageOf u ≠ "Intentional Logout" →
  statusCodeOf u ≠ Some loggedOut →
  ∃ es1 es2,
    log (onConnectionUpdate wid u st) =
      log st ++ [Update wid (credsPatch (credsObjects st r));
                 Update wid openingPatch; EmitSession wid; Sleep 3000]
             ++ es1 ++ Reinit wid :: es2.
Proof.
  intros Hp Hc Hm Hs. unfold onConnectionUpdate.
  rewrite decide_True, !decide_False by done.
  destruct (afterClose_log wid u
              (emit (Reinit wid)
                 (sleep 3000
                    (emit (EmitSession wid)
                       (whatsappUpdate wid openingPatch
                          (flushPendingCredsSave wid st))))))
    as [es2 ->].
  cbn [emit log].
  destruct (sleep_log 3000
              (emit (EmitSession wid)
                 (whatsappUpdate wid openingPatch
                    (flushPendingCredsSave wid st)))) as [es1 ->].
  cbn. destruct (flush_pending wid r st Hp) as [-> _].
  exists es1, es2. by rewrite <- !app_assoc.
Qed.

(** The "open" event: the pending credentials are written before the row
    is put in status CONNECTED. *)
Lemma open_log wid r u st :
  pendingCredsSaves st !! wid = Some (wid, r) →
  connection u = Some "open" →
  ∃ es,
    log (onConnectionUpdate wid u st) =
      log st ++ [Update wid (credsPatch (credsObjects st r));
                 Update wid connectedPatch] ++ es.
Proof.
  intros Hp Hc. unfold onConnectionUpdate.
  rewrite decide_False by (rewrite Hc; done).
  unfold afterClose, onOpen, onQr, emitIfFound. rewrite decide_True by done.
  destruct (flush_pending wid r st Hp) as [E _].
  repeat case_match; cbn; rewrite E, <- ?app_assoc; cbn; eauto.
Qed.

(** [logout]: the pending credentials are written before the socket is
    logged out and taken down. *)
Lemma logout_log wid r live st :
  pendingCredsSaves st !! wid = Some (wid, r) →
  ∃ es,
    log (logout wid live st) =
      log st ++ [Update wid (credsPatch (credsObjects st r))]
             ++ (if live then [SocketLogout wid] else [])
             ++ TearDown wid :: es.
Proof.
  intros Hp. unfold logout, removeSession.
  destruct (flush_pending wid r st Hp) as [E _].
  destruct (flush_clears wid st) as [_ Hnone].
  set (st1 := flushPendingCredsSave wid st) in *.
  set (st2 := if live then emit (SocketLogout wid) st1 else st1).
  assert (pendingCredsSaves st2 !! wid = None ∧
          log st2 = log st1 ++ (if live then [SocketLogout wid] else []))
    as [Hp2 E2].
  { subst st2. destruct live; cbn; [done|]. by rewrite app_nil_r. }
  pose proof (flush_nothing_pending wid st2 Hp2) as E3.
  unfold emitIfFound. repeat case_match; cbn; rewrite E3, E2, E;
    rewrite <- ?app_assoc; cbn; eauto.
Qed.

(** C2.  In every state the debouncer can reach:
    (1) a credential event leaves exactly one pending timeout for its
    connection, due 1000 ms later (an earlier one is cancelled), and writes
    nothing; the write is not made before the 1000 ms are over and is made
    once they are;
    (2) a burst of credential events, each less than 1000 ms after the one
    before, followed by a flush, makes exactly one credential write for
    the connection, holding the value of the last event, and leaves
    nothing scheduled (no later write follows);
    (3) a flush makes the pending write itself and leaves nothing
    scheduled or pending;
    (4)-(6) on a reconnect, on [logout] and on the "open" event the
    pending write is the first effect, before [init] is called again,
    before the socket is logged out and taken down, and before the row is
    put in status CONNECTED. *)
Theorem creds_debounce_collapses_and_flushes
    (rows : gmap Z Whatsapp) (es : list Event) :
  let st := run es (initial rows) in
  (∀ wid r,
      let st' := debouncedSaveCreds wid r st in
      (∃ k, timers st' !! k = Some (mkTimer (now st + defaultDelayMs) wid r) ∧
            ∀ k' t', timers st' !! k' = Some t' → t_whatsapp t' = wid →
                     k' = k) ∧
      log st' = log st ∧
      (∀ dt, dt < defaultDelayMs →
             sessionWrites wid (advance dt st') = sessionWrites wid st) ∧
      (∀ dt, defaultDelayMs ≤ dt →
             sessionWrites wid (advance dt st') =
               sessionWrites wid st ++ [credsObjects st r])) ∧
  (∀ wid r v1 rest,
      Forall (λ dv, 0 ≤ fst dv < defaultDelayMs) rest →
      let st' := run (burst wid r v1 rest ++ [Flush wid]) st in
      sessionWrites wid st' = sessionWrites wid st ++ [lastValue v1 rest] ∧
      idle wid st' ∧
      ∀ dt, sessionWrites wid (advance dt st') = sessionWrites wid st') ∧
  (∀ wid r,
      pendingCredsSaves st !! wid = Some (wid, r) →
      log (flushPendingCredsSave wid st) =
        log st ++ [Update wid (credsPatch (credsObjects st r))] ∧
      idle wid (flushPendingCredsSave wid st)) ∧
  (∀ wid r u,
      pendingCredsSaves st !! wid = Some (wid, r) →
      connection u = Some "close" →
      errorMessageOf u ≠ "Intentional Logout" →
      statusCodeOf u ≠ Some loggedOut →
      ∃ es1 es2,
        log (onConnectionUpdate wid u st) =
          log st ++ [Update wid (credsPatch (credsObjects st r));
                     Update wid openingPatch; EmitSession wid; Sleep 3000]
                 ++ es1 ++ Reinit wid :: es2) ∧
  (∀ wid r live,
      pendingCredsSaves st !! wid = Some (wid, r) →
      ∃ es',
        log (logout wid live st) =
          log st ++ [Update wid (credsPatch (credsObjects st r))]
                 ++ (if live then [SocketLogout wid] else [])
                 ++ TearDown wid :: es') ∧
  (∀ wid r u,
      pendingCredsSaves st !! wid = Some (wid, r) →
      connection u = Some "open" →
      ∃ es',
        log (onConnectionUpdate wid u st) =
          log st ++ [Update wid (credsPatch (credsObjects st r));
                     Update wid connectedPatch] ++ es').
Proof.
  intros st.
  assert (Hinv : debounce_inv st)
    by apply run_debounce_inv, debounce_inv_initial.
  unfold defaultDelayMs. split_and!.
  - intros wid r. cbn zeta.
    destruct (debounced_armed wid r st Hinv) as (Ha & El & En & Eo).
    assert (Hinv' : debounce_inv (debouncedSaveCreds wid r st))
      by apply debounced_inv, Hinv.
    assert (Ew : sessionWrites wid (debouncedSaveCreds wid r st) =
                 sessionWrites wid st)
      by (unfold sessionWrites; by rewrite El).
    split_and!.
    + destruct Ha as (k & Hreg & Htimer & _). exists k. split; [done|].
      intros k' t' Hk' Hw. pose proof (inv_timer _ Hinv' _ _ Hk') as H.
      rewrite Hw in H. congruence.
    + done.
    + intros dt Hdt. rewrite <- Ew.
      apply (advance_not_due wid r (now st + 1000)); [done..|]. lia.
    + intros dt Hdt. rewrite <- Ew, <- Eo.
      apply (advance_due wid r (now st + 1000)); [done..|]. lia.
  - intros wid r v1 rest Hrest. cbn zeta. rewrite run_app.
    destruct (burst_armed wid r rest v1 st Hinv) as (Hinv1 & Ha & Ew & Eo).
    { intros d v Hin. rewrite Forall_forall in Hrest.
      apply (Hrest (d, v) Hin). }
    cbn zeta in *. set (st1 := run (burst wid r v1 rest) st) in *.
    change (run [Flush wid] st1) with (flushPendingCredsSave wid st1).
    destruct Ha as (k & _ & _ & Hp).
    destruct (flush_pending wid r st1 Hp) as [_ Ef].
    pose proof (flush_idle wid st1 Hinv1) as Hidle.
    pose proof (flush_inv wid st1 Hinv1) as Hinv2.
    split_and!.
    + by rewrite Ef, Ew, Eo.
    + done.
    + intros dt. by apply advance_idle.
  - intros wid r Hp. split; [apply (flush_pending wid r st Hp)|].
    by apply flush_idle.
  - intros wid r u. apply reconnect_log.
  - intros wid r live. apply logout_log.
  - intros wid r u. apply open_log.
Qed.

Lemma creds_debounce_collapses_and_flushes_witness :
  let rows : gmap Z Whatsapp := {[ 1 := mkWhatsapp "" "OPENING" "" 0 ]} in
  let st0 := initial rows in
  let st := run [CredsChanged 0%nat "a"; CredsUpdate 1 0%nat] st0 in
  let closed :=
    mkConnectionUpdate (Some "close")
      (Some (mkBoom (Some 428) None (Some "Connection Closed"))) None in
  let opened := mkConnectionUpdate (Some "open") None None in
  sessionWrites 1 (advance 999 (debouncedSaveCreds 1 0%nat st0)) = [] ∧
  sessionWrites 1 (advance 1000 (debouncedSaveCreds 1 0%nat st0)) = ["{}"] ∧
  sessionWrites 1
    (run (burst 1 0%nat "a" [(500, "b"); (999, "c")] ++ [Flush 1]) st0)
    = ["c"] ∧
  log (flushPendingCredsSave 1 st) = [Update 1 (credsPatch "a")] ∧
  (∃ es1 es2,
      log (onConnectionUpdate 1 closed st) =
        [Update 1 (credsPatch "a"); Update 1 openingPatch; EmitSession 1;
         Sleep 3000] ++ es1 ++ Reinit 1 :: es2) ∧
  (∃ es', log (logout 1 true st) =
            [Update 1 (credsPatch "a"); SocketLogout 1] ++ TearDown 1 :: es') ∧
  (∃ es', log (onConnectionUpdate 1 opened st) =
            [Update 1 (credsPatch "a"); Update 1 connectedPatch] ++ es').
Proof.
  intros rows st0 st closed opened.
  destruct (creds_debounce_collapses_and_flushes rows [])
    as (Hsched & Hburst & _).
  destruct (Hsched 1 0%nat) as (_ & _ & Hearly & Hlate).
  destruct (creds_debounce_collapses_and_flushes rows
              [CredsChanged 0%nat "a"; CredsUpdate 1 0%nat])
    as (_ & _ & Hflush & Hre & Hout & Hopen).
  split_and!.
  - apply (Hearly 999). reflexivity.
  - apply (Hlate 1000). discriminate.
  - refine (proj1 (Hburst 1 0%nat "a" [(500, "b"); (999, "c")] _)).
    repeat constructor; cbn; lia.
  - exact (proj1 (Hflush 1 0%nat eq_refl)).
  - apply (Hre 1 0%nat closed eq_refl eq_refl); cbn; discriminate.
  - exact (Hout 1 0%nat true eq_refl).
  - exact (Hopen 1 0%nat opened eq_refl eq_refl).
Defined.

End CredsProofs.

Section StringFacts.

Lemma string_app_assoc (a b c : string) : (a +:+ b) +:+ c = a +:+ (b +:+ c).
Proof.
  induction a as [|x a IH]; [done|].
  change (String x ((a +:+ b) +:+ c) = String x (a +:+ (b +:+ c))).
  by rewrite IH.
Qed.

Lemma prefix_empty s : String.prefix "" s = true.
Proof. by destruct s. Qed.

Lemma includes_char_cons c a s :
  Js.includes (String c "") (String a s) =
  bool_decide (c = a) || Js.includes (String c "") s.
Proof.
  cbn. destruct (ascii_dec c a) as [->|Hne].
  - rewrite prefix_empty, bool_decide_eq_true_2; done.
  - by rewrite bool_decide_eq_false_2.
Qed.

Lemma includes_char_app c s t :
  Js.includes (String c "") (s +:+ t) =
  Js.includes (String c "") s || Js.includes (String c "") t.
Proof.
  induction s as [|a s IH].
  - change ("" +:+ t) with t. by destruct t.
  - change (String a s +:+ t) with (String a (s +:+ t)).
    rewrite !includes_char_cons, IH. by rewrite orb_assoc.
Qed.

(** Splitting at the first separator. *)
Lemma split_first c s t :
  Js.includes (String c "") s = false →
  Js.split c (s +:+ String c t) = s :: Js.split c t.
Proof.
  induction s as [|a s IH]; intros H.
  - change ("" +:+ String c t) with (String c t). cbn [Js.split].
    by rewrite decide_True.
  - rewrite includes_char_cons in H. apply orb_false_iff in H as [Ha Hs].
    apply bool_decide_eq_false in Ha.
    change (String a s +:+ String c t) with (String a (s +:+ String c t)).
    cbn [Js.split]. rewrite decide_False by congruence. by rewrite IH.
Qed.

(** Two texts without the separator, each followed by the separator and a
    rest: equal wholes have equal parts. *)
Lemma separator_inj c s s' r r' :
  Js.includes (String c "") s = false →
  Js.includes (String c "") s' = false →
  s +:+ String c r = s' +:+ String c r' → s = s' ∧ r = r'.
Proof.
  revert s'. induction s as [|a s IH]; intros [|b s'] Hs Hs' E.
  - change (String c r = String c r') in E. by simplify_eq.
  - change (String c r = String b (s' +:+ String c r')) in E.
    rewrite includes_char_cons in Hs'. injection E as <- _.
    by rewrite bool_decide_eq_true_2 in Hs'.
  - change (String a (s +:+ String c r) = String c r') in E.
    rewrite includes_char_cons in Hs. injection E as -> _.
    by rewrite bool_decide_eq_true_2 in Hs.
  - change (String a (s +:+ String c r) = String b (s' +:+ String c r'))
      in E.
    rewrite includes_char_cons in Hs, Hs'.
    apply orb_false_iff in Hs as [_ Hs].
    apply orb_false_iff in Hs' as [_ Hs'].
    injection E as -> E. destruct (IH s' Hs Hs' E) as [-> ->]. done.
Qed.

Lemma pretty_N_go_no_colon x : ∀ s,
  Js.includes ":" (pretty_N_go x s) = Js.includes ":" s.
Proof.
  induction (N.lt_wf_0 x) as [x _ IH]; intros s.
  destruct (decide (x = 0)%N) as [->|Hx].
  - by rewrite pretty_N_go_0.
  - rewrite pretty_N_go_step by lia.
    rewrite IH by (apply N.div_lt; lia).
    rewrite includes_char_cons. rewrite bool_decide_eq_false_2; [done|].
    unfold pretty_N_char. by repeat case_match.
Qed.

Lemma pretty_Z_no_colon (z : Z) : Js.includes ":" (pretty z) = false.
Proof.
  unfold pretty, pretty_Z. destruct z as [|x|x]; [done| |].
  - unfold pretty, pretty_positive, pretty, pretty_N.
    rewrite decide_False by done. by rewrite pretty_N_go_no_colon.
  - unfold pretty, pretty_positive, pretty, pretty_N.
    rewrite decide_False by done.
    rewrite (includes_char_app ":" "-"), pretty_N_go_no_colon. done.
Qed.

End StringFacts.

Section KeyStoreProofs.
Import KeyStore.
Context {Value : Type} `{!BufferJSON Value}.

Lemma stored_wf_initial b : stored_wf (initial b).
Proof.
  split; cbn; intros *; [by rewrite lookup_empty|].
  destruct b; intros ?; simplify_eq. by rewrite lookup_empty.
Qed.

Lemma apply_wf st (o : Op Value) : stored_wf st → stored_wf (apply st o).
Proof.
  intros [Hd Hr]. destruct o as [c d t i v|dt]; [|done]. cbn.
  unfold StoreWppSessionKeys, setInRedis. destruct (isRedisType t).
  - destruct (redisClient st) as [r|] eqn:E.
    2:{ split; [done|]. intros; congruence. }
    split; [done|].
    cbn. intros r' key text expires ? Hk. simplify_eq.
    rewrite lookup_insert in Hk. case_decide; [|by eapply Hr].
    simplify_eq. rewrite parse_stringify. done.
  - split; [|done]. cbn. intros k text Hk.
    rewrite lookup_insert in Hk. case_decide; [|by eapply Hd].
    simplify_eq. rewrite parse_stringify. done.
Qed.

Lemma run_wf ops st : stored_wf st → stored_wf (run ops st).
Proof.
  revert st. induction ops as [|o ops IH]; intros st H; [done|].
  apply IH, apply_wf, H.
Qed.

Lemma getFromRedis_wf key text st :
  stored_wf st → getFromRedis key st = Some text →
  is_Some (parse (Value:=Value) text).
Proof.
  intros [_ Hr]. unfold getFromRedis.
  destruct (redisClient st) as [r|] eqn:E; [|done].
  destruct (r !! key) as [[value expires]|] eqn:Ek; [|done].
  repeat case_decide; intros; simplify_eq. by eapply Hr.
Qed.

(** Ids that are not asked for, or for which nothing is found, are left
    as they were in [data]. *)
Lemma collect_absent find ids : ∀ (data : gmap string Value) id,
  id ∉ ids ∨ find id = None →
  fst (collect find ids data) !! id = data !! id.
Proof.
  induction ids as [|i ids IH]; intros data id Hid; [done|]. cbn.
  assert (Hid' : id ∉ ids ∨ find id = None).
  { destruct Hid as [Hid|]; [left|by right]. intros ?. apply Hid.
    apply elem_of_cons. by right. }
  destruct (find i) as [text|] eqn:Ei; [|by apply IH].
  destruct (parse text) as [v|]; [|by apply IH].
  rewrite IH by done. apply lookup_insert_ne. intros ->.
  destruct Hid as [Hid|]; [|congruence]. apply Hid, elem_of_cons. by left.
Qed.

(** When every text found parses, no callback throws and every id asked
    for and found is in the result, with its parsed value. *)
Lemma collect_wf find ids : ∀ (data : gmap string Value),
  (∀ id text, find id = Some text → is_Some (parse (Value:=Value) text)) →
  snd (collect find ids data) = false ∧
  ∀ id text, id ∈ ids → find id = Some text →
             fst (collect find ids data) !! id = parse text.
Proof.
  induction ids as [|i ids IH]; intros data Hwf.
  { split; [done|]. intros id text Hin. by apply elem_of_nil in Hin. }
  cbn. destruct (find i) as [text|] eqn:Ei.
  - destruct (Hwf _ _ Ei) as [v Ev]. rewrite Ev.
    destruct (IH (<[i := v]> data) Hwf) as [Hs Hl]. split; [done|].
    intros id text' Hin Hid.
    destruct (decide (id ∈ ids)) as [Hin'|Hnin]; [by apply Hl|].
    apply elem_of_cons in Hin as [->|?]; [|done].
    rewrite collect_absent by (by left). rewrite lookup_insert_eq.
    congruence.
  - destruct (IH data Hwf) as [Hs Hl]. split; [done|].
    intros id text' Hin Hid. apply elem_of_cons in Hin as [->|?];
      [congruence | by apply Hl].
Qed.

Lemma isRedisType_store_durable conn dev ty id (v : Value) st :
  isRedisType ty = false →
  StoreWppSessionKeys conn dev ty id v st =
  mkState (clock st) (redisClient st)
          (<[(conn, ty, id) := stringify v]> (wppKeys st)).
Proof. intros H. unfold StoreWppSessionKeys. by rewrite H. Qed.

Lemma get_durable conn dev ty ids st :
  isRedisType ty = false →
  GetWppSessionKeys (Value:=Value) conn dev ty ids st =
  Resolved (fst (collect (fun id => wppKeys st !! (conn, ty, id)) ids ∅)).
Proof.
  intros H. unfold GetWppSessionKeys. rewrite H.
  by destruct (collect _ ids ∅).
Qed.

Lemma get_hot conn dev ty ids st :
  isRedisType ty = true →
  GetWppSessionKeys (Value:=Value) conn dev ty ids st =
  let r := collect (fun id => getFromRedis (redisKey conn dev ty id) st)
                   ids ∅ in
  if snd r then Rejected else Resolved (fst r).
Proof.
  intros H. unfold GetWppSessionKeys. rewrite H.
  by destruct (collect _ ids ∅).
Qed.

(** In a state where every stored text parses, a read resolves, and its
    result holds exactly the ids asked for that have a stored text. *)
Lemma get_wf conn dev ty ids st :
  stored_wf st →
  ∃ data, GetWppSessionKeys (Value:=Value) conn dev ty ids st = Resolved data ∧
    (∀ id, id ∉ ids → data !! id = None) ∧
    (∀ id, stored conn dev ty id st = None → data !! id = None) ∧
    (∀ id text, id ∈ ids → stored conn dev ty id st = Some text →
                data !! id = parse text).
Proof.
  intros Hwf. unfold stored. destruct (isRedisType ty) eqn:Ety.
  - rewrite get_hot by done. cbn zeta.
    destruct (collect_wf (fun id => getFromRedis (redisKey conn dev ty id) st)
                ids ∅) as [Hs Hl].
    { intros id text. by apply getFromRedis_wf. }
    rewrite Hs. eexists. split; [done|]. split_and!.
    + intros id ?. rewrite collect_absent by (by left). apply lookup_empty.
    + intros id ?. rewrite collect_absent by (by right). apply lookup_empty.
    + done.
  - rewrite get_durable by done.
    destruct (collect_wf (fun id => wppKeys st !! (conn, ty, id)) ids ∅)
      as [Hs Hl].
    { intros id text. apply (proj1 Hwf). }
    eexists. split; [done|]. split_and!.
    + intros id ?. rewrite collect_absent by (by left). apply lookup_empty.
    + intros id ?. rewrite collect_absent by (by right). apply lookup_empty.
    + done.
Qed.

Lemma run_wppKeys_unwritten (ops : list (Op Value)) conn ty id : ∀ st,
  wppKeys st !! (conn, ty, id) = None →
  (∀ dev v, Set_ conn dev ty id v ∉ ops) →
  wppKeys (run ops st) !! (conn, ty, id) = None.
Proof.
  induction ops as [|o ops IH]; intros st Hst Hops; [done|].
  cbn. apply IH.
  - destruct o as [c d t i v|dt]; [|done]. cbn.
    unfold StoreWppSessionKeys, setInRedis.
    destruct (isRedisType t); [by destruct (redisClient st)|]. cbn.
    rewrite lookup_insert_ne; [done|]. intros ?. simplify_eq.
    apply (Hops d v). apply elem_of_cons. by left.
  - intros dev v ?. apply (Hops dev v). apply elem_of_cons. by right.
Qed.

Lemma hot_type_no_colon ty :
  isRedisType ty = true → Js.includes ":" ty = false.
Proof.
  unfold isRedisType, REDIS_KEY_TYPES. intros H%bool_decide_eq_true.
  repeat (apply elem_of_cons in H as [->|H]; [reflexivity|]).
  by apply elem_of_nil in H.
Qed.

(** Cache keys of types without a colon determine all four parts. *)
Lemma redisKey_inj c d ty i c' d' ty' i' :
  Js.includes ":" ty = false → Js.includes ":" ty' = false →
  redisKey c d ty i = redisKey c' d' ty' i' →
  c = c' ∧ d = d' ∧ ty = ty' ∧ i = i'.
Proof.
  intros Hty Hty' E. unfold redisKey in E.
  apply (inj (String.append "wpp:")) in E.
  apply (separator_inj ":" (pretty c) (pretty c')) in E as [Ec E];
    [|apply pretty_Z_no_colon..].
  apply (separator_inj ":" (pretty d) (pretty d')) in E as [Ed E];
    [|apply pretty_Z_no_colon..].
  apply (separator_inj ":" ty ty') in E as [Et E]; [|done..].
  apply (inj pretty) in Ec. apply (inj pretty) in Ed. done.
Qed.

Lemma run_cache_unwritten (ops : list (Op Value)) key : ∀ st,
  getFromRedis key st = None ∧
    (∀ r, redisClient st = Some r → r !! key = None) →
  (∀ c d t i v, Set_ c d t i v ∈ ops → isRedisType t = true →
                redisKey c d t i ≠ key) →
  getFromRedis key (run ops st) = None.
Proof.
  induction ops as [|o ops IH]; intros st [Hget Hst] Hops; [done|].
  cbn. apply IH.
  - destruct o as [c d t i v|dt]; cbn.
    + unfold StoreWppSessionKeys, setInRedis.
      destruct (isRedisType t) eqn:Et; [|done].
      destruct (redisClient st) as [r|] eqn:Er;
        [|split; [done | intros; congruence]].
      assert (Hne : redisKey c d t i ≠ key).
      { apply (Hops c d t i v); [|done]. apply elem_of_cons. by left. }
      unfold getFromRedis. cbn. rewrite lookup_insert_ne by done.
      rewrite (Hst r eq_refl). split; [done|].
      intros r' [= <-]. rewrite lookup_insert_ne by done. by apply Hst.
    + split; [|done]. unfold getFromRedis, tick. cbn.
      destruct (redisClient st) as [r|]; [|done]. by rewrite (Hst r eq_refl).
  - intros c d t i v ?. apply (Hops c d t i v). apply elem_of_cons. by right.
Qed.

Lemma get_one_durable conn dev ty id (v : Value) st :
  isRedisType ty = false →
  GetWppSessionKeys conn dev ty [id] (StoreWppSessionKeys conn dev ty id v st)
  = Resolved {[ id := v ]}.
Proof.
  intros H. rewrite get_durable, isRedisType_store_durable by done. cbn.
  rewrite lookup_insert_eq, parse_stringify. done.
Qed.

Lemma get_one_hot conn dev ty id (v : Value) st dt :
  isRedisType ty = true → is_Some (redisClient st) →
  GetWppSessionKeys conn dev ty [id]
    (tick dt (StoreWppSessionKeys conn dev ty id v st))
  = Resolved (if decide (dt < REDIS_SESSION_TTL) then {[ id := v ]} else ∅).
Proof.
  intros H [r Hr]. rewrite get_hot by done.
  unfold StoreWppSessionKeys, setInRedis. rewrite H, Hr. cbn.
  unfold getFromRedis. cbn. rewrite lookup_insert_eq.
  destruct (decide (dt < REDIS_SESSION_TTL)).
  - rewrite decide_True by lia.
    rewrite decide_False by apply stringify_nonempty.
    rewrite parse_stringify. done.
  - rewrite decide_False by lia. done.
Qed.

(** C3, as the code has it.  A write of a hot type (session, sender-keys,
    sender-key-memory) leaves the table alone and, when the cache client
    is connected, puts the serialised value in the cache under the key made
    of all of (connectionId, deviceId, type, id), to expire 604800 seconds
    (7 days) after the write, however often it is read; a read of a hot
    type depends on the cache and the time only, and two hot keys share a
    cache key only when all four parts are the same.  A write of any other type
    leaves the cache alone and upserts the table row of
    (connectionId, type, id); a read of such a type depends on the table
    only, and not on the deviceId. *)
Theorem key_store_routing
    (st : State) (conn dev : Z) (ty id : string) (v : Value) :
  (isRedisType ty = true →
     wppKeys (StoreWppSessionKeys conn dev ty id v st) = wppKeys st ∧
     redisClient (StoreWppSessionKeys conn dev ty id v st) =
       (λ r, <[redisKey conn dev ty id :=
                 (stringify v, clock st + 604800)]> r) <$> redisClient st ∧
     (∀ ids st', redisClient st' = redisClient st → clock st' = clock st →
                 GetWppSessionKeys (Value:=Value) conn dev ty ids st' =
                 GetWppSessionKeys conn dev ty ids st) ∧
     (is_Some (redisClient st) → ∀ dt,
        GetWppSessionKeys conn dev ty [id]
          (tick dt (StoreWppSessionKeys conn dev ty id v st)) =
        Resolved (if decide (dt < 604800) then {[ id := v ]} else ∅)) ∧
     (∀ conn' dev' ty' id',
        isRedisType ty' = true →
        redisKey conn dev ty id = redisKey conn' dev' ty' id' →
        conn = conn' ∧ dev = dev' ∧ ty = ty' ∧ id = id')) ∧
  (isRedisType ty = false →
     redisClient (StoreWppSessionKeys conn dev ty id v st) = redisClient st ∧
     wppKeys (StoreWppSessionKeys conn dev ty id v st) =
       <[(conn, ty, id) := stringify v]> (wppKeys st) ∧
     (∀ ids dev' st', wppKeys st' = wppKeys st →
                      GetWppSessionKeys (Value:=Value) conn dev' ty ids st' =
                      GetWppSessionKeys conn dev ty ids st) ∧
     (∀ dev', GetWppSessionKeys conn dev' ty [id]
                (StoreWppSessionKeys conn dev ty id v st) =
              Resolved {[ id := v ]})).
Proof.
  split; intros Hty.
  - split_and!.
    + unfold StoreWppSessionKeys, setInRedis. rewrite Hty.
      by destruct (redisClient st).
    + unfold StoreWppSessionKeys, setInRedis. rewrite Hty.
      destruct (redisClient st) eqn:E; cbn; [done | by rewrite E].
    + intros ids st' E1 E2. rewrite !get_hot by done.
      unfold getFromRedis. by rewrite E1, E2.
    + intros Hr dt. by apply get_one_hot.
    + intros conn' dev' ty' id' Hty'.
      apply redisKey_inj; by apply hot_type_no_colon.
  - split_and!.
    + by rewrite isRedisType_store_durable.
    + by rewrite isRedisType_store_durable.
    + intros ids dev' st' E. rewrite !get_durable by done. by rewrite E.
    + intros dev'. rewrite get_durable, isRedisType_store_durable by done.
      cbn. rewrite lookup_insert_eq, parse_stringify. done.
Qed.

(** C4.  In every state that writes and the passing of time lead to from
    the empty key store: a write of [(type, id, v)] of a durable type
    followed by a read of [id] returns [{id: v}], and a read of several ids
    among which [id] is returns a mapping with [id ↦ v]; every read, of a
    hot or a durable type, returns a mapping and never an error; ids not
    asked for, ids for which nothing is stored, and ids that were never
    written (for a durable type under the connection and type, for a hot
    type under the connection, device and type) are absent from that
    mapping. *)
Theorem key_store_round_trip (redisConnected : bool) (ops : list (Op Value)) :
  let st := run ops (initial redisConnected) in
  (∀ conn dev ty id v, isRedisType ty = false →
      GetWppSessionKeys conn dev ty [id]
        (StoreWppSessionKeys conn dev ty id v st) = Resolved {[ id := v ]}) ∧
  (∀ conn dev ty id v ids, isRedisType ty = false → id ∈ ids →
      ∃ data,
        GetWppSessionKeys conn dev ty ids
          (StoreWppSessionKeys conn dev ty id v st) = Resolved data ∧
        data !! id = Some v) ∧
  (∀ conn dev ty ids,
      ∃ data,
        GetWppSessionKeys (Value:=Value) conn dev ty ids st = Resolved data ∧
        (∀ id, id ∉ ids → data !! id = None) ∧
        (∀ id, stored conn dev ty id st = None → data !! id = None)) ∧
  (∀ conn dev ty ids id, isRedisType ty = false →
      (∀ d v, Set_ conn d ty id v ∉ ops) →
      ∃ data,
        GetWppSessionKeys (Value:=Value) conn dev ty ids st = Resolved data ∧
        data !! id = None) ∧
  (∀ conn dev ty ids id, isRedisType ty = true →
      (∀ v, Set_ conn dev ty id v ∉ ops) →
      ∃ data,
        GetWppSessionKeys (Value:=Value) conn dev ty ids st = Resolved data ∧
        data !! id = None).
Proof.
  intros st.
  assert (Hwf : stored_wf st) by apply run_wf, stored_wf_initial.
  split_and!.
  - intros. by apply get_one_durable.
  - intros conn dev ty id v ids Hty Hin.
    destruct (get_wf conn dev ty ids
                (StoreWppSessionKeys conn dev ty id v st))
      as (data & Hget & _ & _ & Hfound).
    { apply (apply_wf st (Set_ conn dev ty id v) Hwf). }
    exists data. split; [done|].
    rewrite (Hfound id (stringify v) Hin); [apply parse_stringify|].
    unfold stored. rewrite Hty, isRedisType_store_durable by done. cbn.
    apply lookup_insert_eq.
  - intros conn dev ty ids.
    destruct (get_wf conn dev ty ids st Hwf) as (data & ? & ? & ? & _).
    by exists data.
  - intros conn dev ty ids id Hty Hops.
    destruct (get_wf conn dev ty ids st Hwf) as (data & Hget & _ & Hnone & _).
    exists data. split; [done|]. apply Hnone. unfold stored. rewrite Hty.
    apply run_wppKeys_unwritten; [|done]. destruct redisConnected; done.
  - intros conn dev ty ids id Hty Hops.
    destruct (get_wf conn dev ty ids st Hwf) as (data & Hget & _ & Hnone & _).
    exists data. split; [done|]. apply Hnone. unfold stored. rewrite Hty.
    apply run_cache_unwritten.
    + split; [by destruct redisConnected|].
      intros r. destruct redisConnected; intros [= <-]. apply lookup_empty.
    + intros c d t i v Hin Ht E.
      apply redisKey_inj in E as (-> & -> & -> & ->);
        [|by apply hot_type_no_colon..].
      by apply (Hops v).
Qed.

End KeyStoreProofs.

Section KeyStoreInstances.
Import KeyStore.

(** The claim with the 4-tuple fails: a durable key written under one
    deviceId is read back under another, which a store keyed by
    (connectionId, deviceId, type, keyId) would not do. *)
Lemma durable_store_not_keyed_by_deviceId :
  ¬ (∀ (ops : list (Op JsonConstant)) conn dev ty ids,
        isRedisType ty = false →
        GetWppSessionKeys conn dev ty ids (run ops (initial true)) =
        Resolved (specGet conn dev ty ids (specRun ops))).
Proof.
  intros H.
  specialize (H [Set_ 1 1 "pre-key" "k1" (JBool true)] 1 2 "pre-key" ["k1"]
                eq_refl).
  assert (Hk : ∀ d : gmap string JsonConstant,
             Resolved d = Resolved ∅ → d !! "k1" = None).
  { intros d [= ->]. done. }
  apply Hk in H. vm_compute in H. discriminate.
Qed.

Lemma key_store_routing_witness :
  let st := initial true in
  GetWppSessionKeys 1 1 "session" ["k1"]
    (tick 604799 (StoreWppSessionKeys 1 1 "session" "k1" JNull st)) =
    Resolved {[ "k1" := JNull ]} ∧
  GetWppSessionKeys 1 1 "session" ["k1"]
    (tick 604800 (StoreWppSessionKeys 1 1 "session" "k1" JNull st)) =
    Resolved ∅ ∧
  GetWppSessionKeys 1 2 "pre-key" ["k1"]
    (StoreWppSessionKeys 1 1 "pre-key" "k1" (JBool true) st) =
    Resolved {[ "k1" := JBool true ]}.
Proof.
  intros st.
  destruct (key_store_routing st 1 1 "session" "k1" JNull) as [Hhot _].
  destruct (key_store_routing st 1 1 "pre-key" "k1" (JBool true))
    as [_ Hdur].
  destruct (Hhot eq_refl) as (_ & _ & _ & Hexp & _).
  destruct (Hdur eq_refl) as (_ & _ & _ & Hany).
  split_and!.
  - exact (Hexp (ex_intro _ ∅ eq_refl) 604799).
  - exact (Hexp (ex_intro _ ∅ eq_refl) 604800).
  - exact (Hany 2).
Defined.

Lemma key_store_round_trip_witness :
  let ops := [Set_ 1 1 "session" "s1" JNull; Tick 60;
              Set_ 1 1 "pre-key" "k0" (JBool false)] in
  let st := run ops (initial true) in
  GetWppSessionKeys 1 1 "identity-key" ["k1"]
    (StoreWppSessionKeys 1 1 "identity-key" "k1" (JBool true) st) =
    Resolved {[ "k1" := JBool true ]} ∧
  (∃ data,
      GetWppSessionKeys 1 1 "identity-key" ["k0"; "k1"]
        (StoreWppSessionKeys 1 1 "identity-key" "k1" (JBool true) st) =
        Resolved data ∧ data !! "k1" = Some (JBool true)) ∧
  (∃ data,
      GetWppSessionKeys (Value:=JsonConstant) 1 1 "pre-key" ["k0"; "k9"] st
        = Resolved data ∧ data !! "k9" = None) ∧
  (∃ data,
      GetWppSessionKeys (Value:=JsonConstant) 1 2 "session" ["s1"] st
        = Resolved data ∧ data !! "s1" = None).
Proof.
  intros ops st.
  destruct (key_store_round_trip true ops) as (H1 & H2 & _ & H4 & H5).
  split_and!.
  - exact (H1 1 1 "identity-key" "k1" (JBool true) eq_refl).
  - apply (H2 1 1 "identity-key" "k1" (JBool true) ["k0"; "k1"] eq_refl).
    apply elem_of_cons. right. apply elem_of_cons. by left.
  - apply (H4 1 1 "pre-key" ["k0"; "k9"] "k9" eq_refl).
    intros d v Hin. repeat (apply elem_of_cons in Hin as [Hin|Hin];
                            [discriminate Hin|]).
    by apply elem_of_nil in Hin.
  - apply (H5 1 2 "session" ["s1"] "s1" eq_refl).
    intros v Hin. repeat (apply elem_of_cons in Hin as [Hin|Hin];
                          [discriminate Hin|]).
    by apply elem_of_nil in Hin.
Defined.

End KeyStoreInstances.

Section SendProofs.

Lemma whaileys_getWbot_none sessions sid :
  sessions !! sid = None →
  Whaileys.getWbot sessions sid =
  Thrown (App (appError "ERR_WAPP_NOT_INITIALIZED")).
Proof. intros H. unfold Whaileys.getWbot. by rewrite H. Qed.

Lemma whaileys_getWbot_returned sessions sid w :
  Whaileys.getWbot sessions sid = Returned w → sessions !! sid = Some w.
Proof.
  unfold Whaileys.getWbot. destruct (sessions !! sid); intros; by simplify_eq.
Qed.

Lemma whaileys_sendMessage_returned sessions sid to body opts reply now sends p :
  Whaileys.sendMessage sessions sid to body opts reply now
    = (sends, Returned p) →
  pm_fromMe p = true ∧ pm_ack p = Some 1 ∧ is_Some (sessions !! sid) ∧
  sends ≠ [].
Proof.
  unfold Whaileys.sendMessage.
  destruct (Whaileys.getWbot sessions sid) as [w|e] eqn:Ew; [|done].
  apply whaileys_getWbot_returned in Ew.
  destruct reply as [sent|e]; [|done].
  destruct (Whaileys.truthy _) as [sentId|]; [|done].
  destruct sent as [m|]; [|done].
  intros [= <- <-]. by rewrite Ew.
Qed.

Lemma whaileys_sendMedia_returned
    sessions sid to media opts readFile reply now sends p :
  Whaileys.sendMedia sessions sid to media opts readFile reply now
    = (sends, Returned p) →
  pm_fromMe p = true ∧ pm_ack p = Some 1 ∧ is_Some (sessions !! sid) ∧
  sends ≠ [].
Proof.
  unfold Whaileys.sendMedia.
  destruct (Whaileys.getWbot sessions sid) as [w|e] eqn:Ew; [|done].
  apply whaileys_getWbot_returned in Ew.
  destruct (match Whaileys.truthy (Whaileys.path media) with
            | Some _ => _ | None => _ end) as [[buffer|]|e]; [|done..].
  destruct (if Js.startsWith "image/" _ then _ else _) as [content type].
  destruct reply as [sent|e]; [|done].
  destruct (Whaileys.truthy _) as [sentId|]; [|done].
  destruct sent as [m|]; [|done].
  intros [= <- <-]. by rewrite Ew.
Qed.

Lemma wwebjs_getWbot_none sessions wid :
  Forall (λ s, Wwebjs.sessionId s ≠ Some wid) sessions →
  Wwebjs.getWbot sessions wid =
  Thrown (App (appError "ERR_WAPP_NOT_INITIALIZED")).
Proof.
  intros H. unfold Wwebjs.getWbot.
  destruct (List.find _ sessions) as [w|] eqn:E; [|done].
  apply find_some in E as [Hin Hw]. apply bool_decide_eq_true in Hw.
  rewrite Forall_forall in H. apply list_elem_of_In in Hin.
  by destruct (H _ Hin).
Qed.

Lemma wwebjs_ack_at_least_server a :
  1 ≤ Wwebjs.mapMessageAck a ↔ 1 ≤ a ≤ 4.
Proof. unfold Wwebjs.mapMessageAck. case_decide; lia. Qed.

(** C5, as the code has it.  With no socket registered for the session id,
    [sendMessage] and [sendMedia] of both providers throw
    ERR_WAPP_NOT_INITIALIZED and ask the network for nothing.  A payload
    returned by the whaileys provider has [fromMe = true] and ack 1.  A
    payload returned by the whatsapp-web.js provider carries the [fromMe]
    of the message that the client library answered and its ack mapped to
    0..4, which is at least 1 exactly when the library's ack is 1..4. *)
Theorem send_needs_session_and_reports_ack :
  (∀ sessions sid to body opts reply now,
      sessions !! sid = None →
      Whaileys.sendMessage sessions sid to body opts reply now =
        ([], Thrown (App (appError "ERR_WAPP_NOT_INITIALIZED")))) ∧
  (∀ sessions sid to media opts readFile reply now,
      sessions !! sid = None →
      Whaileys.sendMedia sessions sid to media opts readFile reply now =
        ([], Thrown (App (appError "ERR_WAPP_NOT_INITIALIZED")))) ∧
  (∀ sessions sid to body opts reply now sends p,
      Whaileys.sendMessage sessions sid to body opts reply now
        = (sends, Returned p) →
      pm_fromMe p = true ∧ pm_ack p = Some 1) ∧
  (∀ sessions sid to media opts readFile reply now sends p,
      Whaileys.sendMedia sessions sid to media opts readFile reply now
        = (sends, Returned p) →
      pm_fromMe p = true ∧ pm_ack p = Some 1) ∧
  (∀ sessions wid to body reply,
      Forall (λ s, Wwebjs.sessionId s ≠ Some wid) sessions →
      Wwebjs.sendMessage sessions wid to body reply =
        ([], Thrown (App (appError "ERR_WAPP_NOT_INITIALIZED")))) ∧
  (∀ sessions wid to loaded reply,
      Forall (λ s, Wwebjs.sessionId s ≠ Some wid) sessions →
      Wwebjs.sendMedia sessions wid to loaded reply =
        ([], Thrown (App (appError "ERR_WAPP_NOT_INITIALIZED")))) ∧
  (∀ sessions wid to body reply sends p,
      Wwebjs.sendMessage sessions wid to body reply = (sends, Returned p) →
      ∃ m, reply = Returned m ∧ pm_fromMe p = Wwebjs.fromMe m ∧
           pm_ack p = Some (Wwebjs.mapMessageAck (Wwebjs.ack m)) ∧
           (1 ≤ Wwebjs.mapMessageAck (Wwebjs.ack m) ↔ 1 ≤ Wwebjs.ack m ≤ 4)) ∧
  (∀ sessions wid to loaded reply sends p,
      Wwebjs.sendMedia sessions wid to loaded reply = (sends, Returned p) →
      ∃ m, reply = Returned m ∧ pm_fromMe p = Wwebjs.fromMe m ∧
           pm_ack p = Some (Wwebjs.mapMessageAck (Wwebjs.ack m)) ∧
           (1 ≤ Wwebjs.mapMessageAck (Wwebjs.ack m) ↔ 1 ≤ Wwebjs.ack m ≤ 4)).
Proof.
  split_and!.
  - intros * H. unfold Whaileys.sendMessage.
    by rewrite whaileys_getWbot_none.
  - intros * H. unfold Whaileys.sendMedia.
    by rewrite whaileys_getWbot_none.
  - intros * H. by apply whaileys_sendMessage_returned in H as (? & ? & _).
  - intros * H. by apply whaileys_sendMedia_returned in H as (? & ? & _).
  - intros * H. unfold Wwebjs.sendMessage. by rewrite wwebjs_getWbot_none.
  - intros * H. unfold Wwebjs.sendMedia. by rewrite wwebjs_getWbot_none.
  - intros *. unfold Wwebjs.sendMessage.
    destruct (Wwebjs.getWbot sessions wid); [|done].
    destruct reply as [m|]; [|done]. intros [= <- <-]. exists m.
    split_and!; try done. apply wwebjs_ack_at_least_server.
  - intros *. unfold Wwebjs.sendMedia.
    destruct (Wwebjs.getWbot sessions wid); [|done].
    destruct loaded; [|done].
    destruct reply as [m|]; [|done]. intros [= <- <-]. exists m.
    split_and!; try done. apply wwebjs_ack_at_least_server.
Qed.

Lemma send_needs_session_and_reports_ack_witness :
  let live : gmap Z Whaileys.Session :=
    {[ 1 := Whaileys.mkSession (Some "me@s.whatsapp.net") ]} in
  Whaileys.sendMessage ∅ 1 "5511999999999@c.us" "hi" None
      (Returned (Some sentWaMessage)) 0 =
    ([], Thrown (App (appError "ERR_WAPP_NOT_INITIALIZED"))) ∧
  (∃ sends p,
      Whaileys.sendMessage live 1 "5511999999999@c.us" "hi" None
        (Returned (Some sentWaMessage)) 0 = (sends, Returned p) ∧
      pm_fromMe p = true ∧ pm_ack p = Some 1) ∧
  Wwebjs.sendMessage [Wwebjs.mkSession (Some 2)] 1 "5511999999999@c.us" "hi"
      (Returned pendingWbotMessage) =
    ([], Thrown (App (appError "ERR_WAPP_NOT_INITIALIZED"))) ∧
  (∃ sends p m,
      Wwebjs.sendMessage [Wwebjs.mkSession (Some 1)] 1 "5511999999999@c.us"
        "hi" (Returned pendingWbotMessage) = (sends, Returned p) ∧
      Returned pendingWbotMessage = Returned m ∧
      pm_ack p = Some (Wwebjs.mapMessageAck (Wwebjs.ack m))).
Proof.
  intros live.
  destruct send_needs_session_and_reports_ack
    as (H1 & _ & H3 & _ & H5 & _ & H7 & _).
  split_and!.
  - apply H1. reflexivity.
  - eexists _, _. split; [reflexivity|].
    eapply (H3 live 1 "5511999999999@c.us" "hi" None
              (Returned (Some sentWaMessage)) 0). reflexivity.
  - apply H5. repeat constructor. cbn. discriminate.
  - eexists _, _. 
    destruct (H7 [Wwebjs.mkSession (Some 1)] 1 "5511999999999@c.us" "hi"
                (Returned pendingWbotMessage) _ _ eq_refl)
      as (m & Hm & _ & Hack & _).
    exists m. split_and!; [reflexivity | exact Hm | exact Hack].
Defined.

(** The whatsapp-web.js provider returns ack 0 when the client library
    answers a message that is still pending. *)
Lemma wwebjs_send_returns_pending_ack :
  ¬ (∀ sessions wid to body reply sends p,
        Wwebjs.sendMessage sessions wid to body reply = (sends, Returned p) →
        pm_fromMe p = true ∧ ∃ a, pm_ack p = Some a ∧ 1 ≤ a).
Proof.
  intros H.
  destruct (H [Wwebjs.mkSession (Some 1)] 1 "5511999999999@c.us" "hi"
              (Returned pendingWbotMessage) _ _ eq_refl)
    as (_ & a & Ha & Hle).
  cbn in Ha. injection Ha as <-. vm_compute in Hle. by apply Hle.
Qed.

End SendProofs.

Section CheckNumberProofs.

(** C6, as the code has it.  The whaileys [checkNumber] asks the network
    about the digits of the number; when the answer is empty or its first
    entry does not exist it throws ERR_NUMBER_NOT_ON_WHATSAPP (status 404),
    which is not the error of a failed network call (that one is passed on
    as it is), and otherwise it returns the jid of the first entry.  The
    whatsapp-web.js [checkNumber] throws nothing for a number without
    account: it returns the empty string, and for a number with an account
    the user part of its id. *)
Theorem checkNumber_by_provider :
  (∀ sessions sid w number onWhatsApp answers,
      sessions !! sid = Some w →
      onWhatsApp (Js.onlyDigits number) = Returned answers →
      (head answers = None ∨
       (∃ r, head answers = Some r ∧ Whaileys.exists_ r = false) →
       Whaileys.checkNumber sessions sid number onWhatsApp =
         Thrown notOnWhatsApp) ∧
      (∀ r, head answers = Some r → Whaileys.exists_ r = true →
            Whaileys.checkNumber sessions sid number onWhatsApp =
              Returned (Whaileys.jid r))) ∧
  (∀ sessions sid w number onWhatsApp e,
      sessions !! sid = Some w →
      onWhatsApp (Js.onlyDigits number) = Thrown (JsError e) →
      Whaileys.checkNumber sessions sid number onWhatsApp =
        Thrown (JsError e) ∧
      Thrown (A:=string) (JsError e) ≠ Thrown notOnWhatsApp) ∧
  (∀ sessions wid w number getNumberId,
      Wwebjs.getWbot sessions wid = Returned w →
      (getNumberId (number +:+ "@c.us") = Returned None →
       Wwebjs.checkNumber sessions wid number getNumberId = Returned "") ∧
      (∀ user, user ≠ "" →
         getNumberId (number +:+ "@c.us") = Returned (Some user) →
         Wwebjs.checkNumber sessions wid number getNumberId
           = Returned user)).
Proof.
  split_and!.
  - intros sessions sid w number onWhatsApp answers Hs Ha.
    unfold Whaileys.checkNumber, Whaileys.getWbot. rewrite Hs, Ha. split.
    + intros [->|(r & -> & ->)]; done.
    + intros r -> ->. done.
  - intros sessions sid w number onWhatsApp e Hs Ha.
    unfold Whaileys.checkNumber, Whaileys.getWbot. rewrite Hs, Ha. done.
  - intros sessions wid w number getNumberId Hw.
    unfold Wwebjs.checkNumber. rewrite Hw. split.
    + intros ->. done.
    + intros user Hne ->. cbn. by rewrite decide_False.
Qed.

Lemma checkNumber_by_provider_witness :
  let sessions : gmap Z Whaileys.Session :=
    {[ 1 := Whaileys.mkSession None ]} in
  let net := network [("5511999999999", "5511999999999@s.whatsapp.net")] in
  Whaileys.checkNumber sessions 1 "+55 (11) 99999-9999" net =
    Returned "5511999999999@s.whatsapp.net" ∧
  Whaileys.checkNumber sessions 1 "+55 (11) 4444-4444" net =
    Thrown notOnWhatsApp ∧
  Wwebjs.checkNumber [Wwebjs.mkSession (Some 1)] 1 "551144444444"
    (fun _ => Returned None) = Returned "" ∧
  Wwebjs.checkNumber [Wwebjs.mkSession (Some 1)] 1 "5511999999999"
    (fun _ => Returned (Some "5511999999999")) = Returned "5511999999999".
Proof.
  intros sessions net.
  destruct checkNumber_by_provider as (Hw & _ & Hj).
  split_and!.
  - destruct (Hw sessions 1 (Whaileys.mkSession None) "+55 (11) 99999-9999"
                net _ eq_refl eq_refl) as [_ H].
    exact (H _ eq_refl eq_refl).
  - destruct (Hw sessions 1 (Whaileys.mkSession None) "+55 (11) 4444-4444"
                net _ eq_refl eq_refl) as [H _].
    apply H. left. reflexivity.
  - destruct (Hj [Wwebjs.mkSession (Some 1)] 1 _ "551144444444"
                (fun _ => Returned None) eq_refl) as [H _].
    exact (H eq_refl).
  - destruct (Hj [Wwebjs.mkSession (Some 1)] 1 _ "5511999999999"
                (fun _ => Returned (Some "5511999999999")) eq_refl)
      as [_ H].
    apply (H "5511999999999"); [discriminate | reflexivity].
Defined.

(** The whatsapp-web.js [checkNumber] does not fail for a number that has
    no account. *)
Lemma wwebjs_checkNumber_unregistered_returns :
  ¬ (∀ sessions wid w number getNumberId,
        Wwebjs.getWbot sessions wid = Returned w →
        getNumberId (number +:+ "@c.us") = Returned None →
        ∃ e, Wwebjs.checkNumber sessions wid number getNumberId = Thrown e).
Proof.
  intros H.
  destruct (H [Wwebjs.mkSession (Some 1)] 1 _ "551144444444"
              (fun _ => Returned None) eq_refl eq_refl) as [e He].
  discriminate He.
Qed.

End CheckNumberProofs.

Section FilterProofs.







End FilterProofs.

Section LocationProofs.

Lemma whaileys_gmapsUrl_noPipe lat long :
  noPipe lat → noPipe long → noPipe (Whaileys.gmapsUrl lat long).
Proof.
  unfold noPipe, Whaileys.gmapsUrl. intros H1 H2.
  rewrite !includes_char_app, H1, H2. reflexivity.
Qed.

Lemma wwebjs_gmapsUrl_noPipe lat long :
  noPipe lat → noPipe long → noPipe (Wwebjs.gmapsUrl lat long).
Proof.
  unfold noPipe, Wwebjs.gmapsUrl. intros H1 H2.
  rewrite !includes_char_app, H1, H2. reflexivity.
Qed.

Lemma whaileys_location_type msg m :
  Whaileys.message msg = Some m →
  Whaileys.contentType m = Some "locationMessage" →
  Whaileys.typeOrEmpty msg = "locationMessage".
Proof.
  intros Hm Hc. unfold Whaileys.typeOrEmpty, Whaileys.getContentType.
  rewrite Hm. cbn. rewrite Hc. reflexivity.
Qed.

Lemma whaileys_location_body msg m l :
  Whaileys.message msg = Some m →
  Whaileys.contentType m = Some "locationMessage" →
  Whaileys.locationMessage m = Some l →
  Whaileys.getMessageBody msg =
    Whaileys.gmapsUrl (Whaileys.degreesLatitude l)
                      (Whaileys.degreesLongitude l)
    +:+ "|" +:+ Whaileys.locationDescription l.
Proof.
  intros Hm Hc Hl. unfold Whaileys.getMessageBody.
  rewrite (whaileys_location_type msg m Hm Hc).
  rewrite !decide_False by discriminate. rewrite decide_True by done.
  rewrite Hm. cbn. by rewrite Hl.
Qed.

(** C8, as the code has it.  For a location message the whaileys
    provider makes the body [link|description]; the whatsapp-web.js
    provider makes it [data:image/png;base64,<body>|link|description], the
    thumbnail first.  In both the link comes before the description, the
    link is [https://maps.google.com/maps?q=<lat>%2C<long>&z=17&hl=pt-BR],
    and the description is the place name (or description) when there is a
    non-empty one and [<lat>, <long>] otherwise.  When the rendered
    coordinates (and the thumbnail) have no pipe in them, the
    pipe-delimited fields of the body are the link followed by the fields
    of the description (after the thumbnail, for whatsapp-web.js). *)
Theorem location_body_by_provider :
  (∀ now msg m l,
      Whaileys.message msg = Some m →
      Whaileys.contentType m = Some "locationMessage" →
      Whaileys.locationMessage m = Some l →
      let url := Whaileys.gmapsUrl (Whaileys.degreesLatitude l)
                                   (Whaileys.degreesLongitude l) in
      let desc := Whaileys.locationDescription l in
      let p := Whaileys.convertToMessagePayload now msg in
      mp_type p = location ∧
      mp_body p = url +:+ "|" +:+ desc ∧
      (noPipe (Whaileys.degreesLatitude l) →
       noPipe (Whaileys.degreesLongitude l) →
       Js.split "|" (mp_body p) = url :: Js.split "|" desc)) ∧
  (∀ msg l quoted,
      Wwebjs.type msg = "location" →
      Wwebjs.location msg = Some l →
      let url := Wwebjs.gmapsUrl (Wwebjs.latitude l) (Wwebjs.longitude l) in
      let desc := Wwebjs.locationDescription l in
      let thumb := "data:image/png;base64," +:+ Wwebjs.body msg in
      ∃ p, Wwebjs.convertToMessagePayload msg quoted = Returned p ∧
           mp_type p = location ∧
           mp_body p = thumb +:+ "|" +:+ url +:+ "|" +:+ desc ∧
           (noPipe (Wwebjs.body msg) → noPipe (Wwebjs.latitude l) →
            noPipe (Wwebjs.longitude l) →
            Js.split "|" (mp_body p) = thumb :: url :: Js.split "|" desc)) ∧
  (∀ l, Whaileys.locationDescription l =
        match Whaileys.name l with
        | Some n =>
            if decide (n = "")
            then Whaileys.degreesLatitude l +:+ ", " +:+
                 Whaileys.degreesLongitude l
            else n
        | None => Whaileys.degreesLatitude l +:+ ", " +:+
                  Whaileys.degreesLongitude l
        end) ∧
  (∀ l, Wwebjs.locationDescription l =
        match Wwebjs.description l with
        | Some n =>
            if decide (n = "")
            then Wwebjs.latitude l +:+ ", " +:+ Wwebjs.longitude l
            else n
        | None => Wwebjs.latitude l +:+ ", " +:+ Wwebjs.longitude l
        end).
Proof.
  split_and!.
  - intros now msg m l Hm Hc Hl. cbn zeta.
    assert (Hb : mp_body (Whaileys.convertToMessagePayload now msg) =
                 Whaileys.getMessageBody msg) by done.
    rewrite Hb, (whaileys_location_body msg m l Hm Hc Hl). split_and!.
    + cbn. unfold Whaileys.mapMessageType.
      rewrite (whaileys_location_type msg m Hm Hc). reflexivity.
    + done.
    + intros H1 H2.
      apply (split_first "|" (Whaileys.gmapsUrl _ _)
               (Whaileys.locationDescription l)).
      by apply whaileys_gmapsUrl_noPipe.
  - intros msg l quoted Ht Hl. cbn zeta.
    unfold Wwebjs.convertToMessagePayload, Wwebjs.prepareLocation.
    rewrite Ht, Hl. rewrite decide_True by done. eexists. split; [done|].
    cbn [mp_type mp_body Wwebjs.setBody Wwebjs.body Wwebjs.type].
    rewrite Ht.
    set (url := Wwebjs.gmapsUrl (Wwebjs.latitude l) (Wwebjs.longitude l)).
    set (desc := Wwebjs.locationDescription l).
    assert (E : ("data:image/png;base64," +:+ Wwebjs.body msg +:+ "|" +:+ url)
                  +:+ "|" +:+ desc =
                ("data:image/png;base64," +:+ Wwebjs.body msg) +:+ "|" +:+
                url +:+ "|" +:+ desc)
      by (by rewrite !string_app_assoc).
    rewrite E. split_and!; [done..|].
    intros H0 H1 H2.
    etrans.
    { apply (split_first "|" ("data:image/png;base64," +:+ Wwebjs.body msg)
               (url +:+ "|" +:+ desc)).
      unfold noPipe in *. by rewrite includes_char_app, H0. }
    f_equal. apply (split_first "|" url desc).
    by apply wwebjs_gmapsUrl_noPipe.
  - intros l. unfold Whaileys.locationDescription, Js.orElse.
    by destruct (Whaileys.name l).
  - intros l. unfold Wwebjs.locationDescription, Js.orElse.
    by destruct (Wwebjs.description l).
Qed.

Lemma location_body_by_provider_witness :
  Js.split "|" (mp_body (Whaileys.convertToMessagePayload 0 whaileysPin)) =
    ["https://maps.google.com/maps?q=-23.55%2C-46.63&z=17&hl=pt-BR";
     "-23.55, -46.63"] ∧
  (∃ p, Wwebjs.convertToMessagePayload wwebjsPin "" = Returned p ∧
        Js.split "|" (mp_body p) =
          ["data:image/png;base64,iVBORw0KGgo";
           "https://maps.google.com/maps?q=-23.55%2C-46.63&z=17&hl=pt-BR";
           "Praca da Se"]).
Proof.
  destruct location_body_by_provider as (Hw & Hj & _ & _).
  split.
  - destruct (Hw 0 whaileysPin _ _ eq_refl eq_refl eq_refl) as (_ & _ & H).
    exact (H eq_refl eq_refl).
  - destruct (Hj wwebjsPin _ "" eq_refl eq_refl) as (p & Hp & _ & _ & H).
    exists p. split; [exact Hp|]. exact (H eq_refl eq_refl eq_refl).
Defined.

(** In the whatsapp-web.js provider the first pipe-delimited field of a
    location body is the thumbnail, not the link. *)
Lemma wwebjs_location_link_is_not_first :
  ¬ (∀ msg l quoted p,
        Wwebjs.type msg = "location" → Wwebjs.location msg = Some l →
        Wwebjs.convertToMessagePayload msg quoted = Returned p →
        head (Js.split "|" (mp_body p)) =
          Some (Wwebjs.gmapsUrl (Wwebjs.latitude l) (Wwebjs.longitude l))).
Proof.
  intros H.
  specialize (H wwebjsPin _ "" _ eq_refl eq_refl eq_refl).
  vm_compute in H. discriminate H.
Qed.

End LocationProofs.

Section ContactProofs.
Import Contacts.

Lemma findByNumber_Some n cs c :
  findByNumber n cs = Some c → c ∈ cs ∧ number c = Some n.
Proof.
  intros H. apply find_some in H as [Hin Hn].
  apply bool_decide_eq_true in Hn. by rewrite list_elem_of_In.
Qed.

Lemma findByNumber_None n cs :
  findByNumber n cs = None → ∀ c, c ∈ cs → number c ≠ Some n.
Proof.
  intros H c Hin Hn. apply list_elem_of_In in Hin.
  pose proof (find_none _ _ H c Hin) as Hf. cbn in Hf.
  by rewrite bool_decide_eq_true_2 in Hf.
Qed.

Lemma findByLid_Some l cs c :
  findByLid l cs = Some c → c ∈ cs ∧ lid c = Some l.
Proof.
  intros H. apply find_some in H as [Hin Hn].
  apply bool_decide_eq_true in Hn. by rewrite list_elem_of_In.
Qed.

Lemma findByLid_None l cs :
  findByLid l cs = None → ∀ c, c ∈ cs → lid c ≠ Some l.
Proof.
  intros H c Hin Hn. apply list_elem_of_In in Hin.
  pose proof (find_none _ _ H c Hin) as Hf. cbn in Hf.
  by rewrite bool_decide_eq_true_2 in Hf.
Qed.

Lemma elem_of_updateRow k f cs c' :
  c' ∈ updateRow k f cs ↔
  ∃ c, c ∈ cs ∧ c' = if decide (id c = k) then f c else c.
Proof.
  unfold updateRow. rewrite list_elem_of_fmap.
  split; intros (c & H1 & H2); exists c; by split.
Qed.

Lemma updateRow_ids k f cs :
  (∀ c, id (f c) = id c) → id <$> updateRow k f cs = id <$> cs.
Proof.
  intros Hf. unfold updateRow. rewrite <- list_fmap_compose.
  apply list_fmap_ext. intros i c _. cbn. case_decide; auto.
Qed.

Lemma elem_of_destroyRow k cs c :
  c ∈ destroyRow k cs ↔ id c ≠ k ∧ c ∈ cs.
Proof. unfold destroyRow. by rewrite list_elem_of_filter. Qed.

Lemma destroyRow_ids_NoDup k cs :
  NoDup (id <$> cs) → NoDup (id <$> destroyRow k cs).
Proof.
  intros H. unfold destroyRow.
  eapply sublist_NoDup; [exact H|].
  apply fmap_sublist, sublist_filter.
Qed.

Lemma filter_none (P : Contact → Prop) `{∀ c, Decision (P c)} cs :
  (∀ c, c ∈ cs → ¬ P c) → filter P cs = [].
Proof.
  induction cs as [|x cs IH]; intros Hall; [done|].
  rewrite filter_cons_False; [apply IH|].
  - intros c ?. apply Hall, elem_of_cons. by right.
  - apply Hall, elem_of_cons. by left.
Qed.

(** Among rows with distinct keys, a property that only rows with the key
    of [c] have, and that [c] has, selects [c] alone. *)
Lemma filter_only (P : Contact → Prop) `{∀ c, Decision (P c)} cs c :
  NoDup (id <$> cs) → c ∈ cs → P c →
  (∀ c', c' ∈ cs → P c' → id c' = id c) →
  filter P cs = [c].
Proof.
  induction cs as [|x cs IH]; intros Hnd Hin Hc Hall.
  { by apply elem_of_nil in Hin. }
  rewrite fmap_cons in Hnd. apply NoDup_cons in Hnd as [Hx Hnd].
  assert (Hrest : ∀ y, y ∈ cs → id y ≠ id x).
  { intros y Hy E. apply Hx. rewrite <- E. by apply list_elem_of_fmap_2. }
  apply elem_of_cons in Hin as [->|Hin].
  - rewrite filter_cons_True by done. f_equal.
    apply filter_none. intros y Hy Py.
    apply (Hrest y Hy). apply Hall; [|done]. apply elem_of_cons. by right.
  - rewrite filter_cons_False.
    + apply IH; try done. intros c' ? ?. apply Hall; [|done].
      apply elem_of_cons. by right.
    + intros Px. apply (Hrest c Hin). symmetry. apply Hall; [|done].
      apply elem_of_cons. by left.
Qed.

Lemma destroy_wf k st st' :
  store_wf st → contacts st' = destroyRow k (contacts st) →
  nextId st' = nextId st → store_wf st'.
Proof.
  intros [Hi Hx Hn Hl] Ec En. split; rewrite ?Ec, ?En.
  - by apply destroyRow_ids_NoDup.
  - intros c Hc. apply elem_of_destroyRow in Hc as [_ Hc]. auto.
  - intros c1 c2 n [_ H1]%elem_of_destroyRow [_ H2]%elem_of_destroyRow.
    by apply Hn.
  - intros c1 c2 l [_ H1]%elem_of_destroyRow [_ H2]%elem_of_destroyRow.
    by apply Hl.
Qed.

(** Updating the row of [x] with [f], which at most sets the number to
    [n] and the lid to [l], when no other row has that number or lid:
    the table stays well formed and [f x] is the one row that matches. *)
Lemma update_wf_matching n l x f st st' :
  store_wf st → x ∈ contacts st →
  contacts st' = updateRow (id x) f (contacts st) →
  nextId st' = nextId st →
  (∀ c, id (f c) = id c) →
  (∀ c, number (f c) = number c ∨ number (f c) = Some n) →
  (∀ c, lid (f c) = lid c ∨ lid (f c) = Some l) →
  number (f x) = Some n → lid (f x) = Some l →
  (∀ c, c ∈ contacts st → number c = Some n → id c = id x) →
  (∀ c, c ∈ contacts st → lid c = Some l → id c = id x) →
  store_wf st' ∧ matching n l (contacts st') = [f x].
Proof.
  intros [Hi Hx Hn Hl] Hin Ec En Hfid Hfn Hfl Hxn Hxl Hon Hol.
  assert (Hids : id <$> contacts st' = id <$> contacts st).
  { rewrite Ec. by apply updateRow_ids. }
  assert (Hfx : f x ∈ contacts st').
  { rewrite Ec. apply elem_of_updateRow. exists x. by rewrite decide_True. }
  split; [split|].
  - by rewrite Hids.
  - intros c' Hc'. rewrite Ec in Hc'.
    apply elem_of_updateRow in Hc' as (c & Hc & ->). rewrite En.
    case_decide; rewrite ?Hfid; auto.
  - intros c1' c2' m H1 H2. rewrite Ec in H1, H2.
    apply elem_of_updateRow in H1 as (c1 & H1 & ->).
    apply elem_of_updateRow in H2 as (c2 & H2 & ->).
    repeat case_decide; rewrite ?Hfid; intros E1 E2; try congruence.
    + destruct (Hfn c1) as [E|E]; rewrite E in E1.
      * by apply (Hn c1 c2 m).
      * simplify_eq. rewrite (Hon c2); done.
    + destruct (Hfn c2) as [E|E]; rewrite E in E2.
      * by apply (Hn c1 c2 m).
      * simplify_eq. rewrite (Hon c1); done.
    + by apply (Hn c1 c2 m).
  - intros c1' c2' m H1 H2. rewrite Ec in H1, H2.
    apply elem_of_updateRow in H1 as (c1 & H1 & ->).
    apply elem_of_updateRow in H2 as (c2 & H2 & ->).
    repeat case_decide; rewrite ?Hfid; intros E1 E2; try congruence.
    + destruct (Hfl c1) as [E|E]; rewrite E in E1.
      * by apply (Hl c1 c2 m).
      * simplify_eq. rewrite (Hol c2); done.
    + destruct (Hfl c2) as [E|E]; rewrite E in E2.
      * by apply (Hl c1 c2 m).
      * simplify_eq. rewrite (Hol c1); done.
    + by apply (Hl c1 c2 m).
  - unfold matching. apply filter_only.
    + by rewrite Hids.
    + done.
    + by left.
    + intros c' Hc' Pc'. rewrite Ec in Hc'.
      apply elem_of_updateRow in Hc' as (c & Hc & ->). rewrite Hfid.
      case_decide; rewrite ?Hfid; [done|].
      destruct Pc' as [?|?]; [by apply Hon | by apply Hol].
Qed.

Lemma reassignTickets_gone from to ts t :
  from ≠ to → t ∈ reassignTickets from to ts → contactId t ≠ from.
Proof.
  intros Hne Ht. unfold reassignTickets in Ht.
  apply list_elem_of_fmap in Ht as (t0 & -> & _). by case_decide.
Qed.

Lemma reassignTickets_moved from to ts t :
  t ∈ ts → contactId t = from →
  mkTicket (ticketId t) to ∈ reassignTickets from to ts.
Proof.
  intros Ht E. unfold reassignTickets. apply list_elem_of_fmap.
  exists t. by rewrite decide_True.
Qed.

(** C9.  For a payload that carries a number [n] (digits, not empty) and
    a lid [l] (not empty), on a table whose numbers and lids are unique:
    the service returns a contact that carries both [n] and [l], and after
    the call that contact is the one stored contact that matches [n] or
    [l], the table still being well formed.  When the table held two
    distinct contacts, [byNumber] found by the number and [byLid] found by
    the lid, every ticket of [byLid] now belongs to [byNumber], no ticket
    and no contact with the key of [byLid] is left, and the contact
    returned is [byNumber] carrying the lid, with the picture of the
    payload or, when the payload has none, with the picture it had. *)
Theorem contact_upsert_reconciles (st : Store) (req : Request) (n l : string) :
  store_wf st →
  (if r_isGroup req then r_number req else Js.onlyDigits (r_number req)) = n →
  n ≠ "" → r_lid req = Some l → l ≠ "" →
  let out := CreateOrUpdateContactService req st in
  store_wf (snd out) ∧
  (∃ c, fst out = Returned c ∧ number c = Some n ∧ lid c = Some l ∧
        matching n l (contacts (snd out)) = [c]) ∧
  (∀ byNumber byLid,
      findByNumber n (contacts st) = Some byNumber →
      findByLid l (contacts st) = Some byLid →
      id byNumber ≠ id byLid →
      fst out = Returned (setLid (Some l) (r_profilePicUrl req) byNumber) ∧
      tickets (snd out) =
        reassignTickets (id byLid) (id byNumber) (tickets st) ∧
      (∀ t, t ∈ tickets st → contactId t = id byLid →
            mkTicket (ticketId t) (id byNumber) ∈ tickets (snd out)) ∧
      (∀ t, t ∈ tickets (snd out) → contactId t ≠ id byLid) ∧
      (∀ c, c ∈ contacts (snd out) → id c ≠ id byLid)).
Proof.
  intros Hwf En Hn El Hl. cbn zeta.
  unfold CreateOrUpdateContactService. rewrite En, El.
  rewrite (bool_decide_eq_false_2 (n = "")) by done. cbn [andb].
  unfold whenTruthy. rewrite !decide_False by done.
  destruct (findByNumber n (contacts st)) as [N|] eqn:EN;
    destruct (findByLid l (contacts st)) as [L|] eqn:EL.
  - (* both found *)
    apply findByNumber_Some in EN as [HN HNn].
    apply findByLid_Some in EL as [HL HLl].
    destruct (decide (id N ≠ id L)) as [Hne|Heq].
    + (* merge *)
      set (st0 := mkStore (destroyRow (id L) (contacts st)) (tickets st)
                          (nextId st) (emitted st)).
      assert (Hwf0 : store_wf st0) by by apply (destroy_wf (id L) st).
      destruct (update_wf_matching n l N (setLid (lid L) (r_profilePicUrl req))
                  st0
                  (snd (Returned (setLid (lid L) (r_profilePicUrl req) N),
                        emit "update"
                          (setLid (lid L) (r_profilePicUrl req) N)
                          (mkStore
                             (updateRow (id N)
                                (setLid (lid L) (r_profilePicUrl req))
                                (destroyRow (id L) (contacts st)))
                             (reassignTickets (id L) (id N) (tickets st))
                             (nextId st) (emitted st)))))
        as [Hwf' Hm]; try done.
      * apply elem_of_destroyRow. split; [done|done].
      * intros c. by left.
      * intros c. right. by rewrite HLl.
      * intros c [_ Hc]%elem_of_destroyRow Hcn.
        by apply (wf_number _ Hwf c N n).
      * intros c [Hcne Hc]%elem_of_destroyRow Hcl.
        destruct Hcne. by apply (wf_lid _ Hwf c L l).
      * split_and!; [done| |].
        -- eexists. split_and!; [done | done | done | exact Hm].
        -- intros N' L' [= <-] [= <-] _. cbn. rewrite HLl.
           split_and!; [done | done | | |].
           ++ intros t Ht E. by apply reassignTickets_moved.
           ++ intros t Ht. apply (reassignTickets_gone _ (id N) (tickets st));
                [congruence | done].
           ++ intros c Hc. apply elem_of_updateRow in Hc as (c0 & Hc0 & ->).
              apply elem_of_destroyRow in Hc0 as [Hc0 _].
              case_decide; cbn; congruence.
    + (* the same row was found twice *)
      assert (Hsame : id N = id L) by (destruct (decide (id N = id L)); tauto).
      destruct (update_wf_matching n l N
                  (setLid (orColumn (Some l) (lid N)) (r_profilePicUrl req))
                  st
                  (snd (Returned (setLid (orColumn (Some l) (lid N))
                                    (r_profilePicUrl req) N),
                        emit "update"
                          (setLid (orColumn (Some l) (lid N))
                             (r_profilePicUrl req) N)
                          (mkStore
                             (updateRow (id N)
                                (setLid (orColumn (Some l) (lid N))
                                   (r_profilePicUrl req))
                                (contacts st))
                             (tickets st) (nextId st) (emitted st)))))
        as [Hwf' Hm]; try done.
      * intros c. by left.
      * intros c. right. cbn. by rewrite decide_False.
      * cbn. by rewrite decide_False.
      * intros c Hc Hcn. by apply (wf_number _ Hwf c N n).
      * intros c Hc Hcl. rewrite Hsame. by apply (wf_lid _ Hwf c L l).
      * split_and!; [done| |].
        -- eexists. split_and!; [done | done | | exact Hm].
           cbn. by rewrite decide_False.
        -- intros N' L' [= <-] [= <-] ?. done.
  - (* found by number only *)
    apply findByNumber_Some in EN as [HN HNn].
    pose proof (findByLid_None _ _ EL) as HnoL.
    destruct (update_wf_matching n l N
                (setLid (orColumn (Some l) (lid N)) (r_profilePicUrl req))
                st
                (snd (Returned (setLid (orColumn (Some l) (lid N))
                                  (r_profilePicUrl req) N),
                      emit "update"
                        (setLid (orColumn (Some l) (lid N))
                           (r_profilePicUrl req) N)
                        (mkStore
                           (updateRow (id N)
                              (setLid (orColumn (Some l) (lid N))
                                 (r_profilePicUrl req))
                              (contacts st))
                           (tickets st) (nextId st) (emitted st)))))
      as [Hwf' Hm]; try done.
    + intros c. by left.
    + intros c. right. cbn. by rewrite decide_False.
    + cbn. by rewrite decide_False.
    + intros c Hc Hcn. by apply (wf_number _ Hwf c N n).
    + intros c Hc Hcl. by destruct (HnoL c Hc).
    + split_and!; [done| |].
      * eexists. split_and!; [done | done | | exact Hm].
        cbn. by rewrite decide_False.
      * intros N' L' _ [=].
  - (* found by lid only *)
    apply findByLid_Some in EL as [HL HLl].
    pose proof (findByNumber_None _ _ EN) as HnoN.
    destruct (update_wf_matching n l L
                (setNumber (orColumn (Some n) (number L)) (r_profilePicUrl req))
                st
                (snd (Returned (setNumber (orColumn (Some n) (number L))
                                  (r_profilePicUrl req) L),
                      emit "update"
                        (setNumber (orColumn (Some n) (number L))
                           (r_profilePicUrl req) L)
                        (mkStore
                           (updateRow (id L)
                              (setNumber (orColumn (Some n) (number L))
                                 (r_profilePicUrl req))
                              (contacts st))
                           (tickets st) (nextId st) (emitted st)))))
      as [Hwf' Hm]; try done.
    + intros c. right. cbn. by rewrite decide_False.
    + intros c. by left.
    + cbn. by rewrite decide_False.
    + intros c Hc Hcn. by destruct (HnoN c Hc).
    + intros c Hc Hcl. by apply (wf_lid _ Hwf c L l).
    + split_and!; [done| |].
      * eexists. split_and!; [done | | done | exact Hm].
        cbn. by rewrite decide_False.
      * intros N' L' [=].
  - (* not found: create *)
    pose proof (findByNumber_None _ _ EN) as HnoN.
    pose proof (findByLid_None _ _ EL) as HnoL.
    rewrite bool_decide_eq_false_2.
    2:{ intros (c & Hc & [?|[_ ?]])%Exists_exists.
        - by destruct (HnoN c Hc).
        - by destruct (HnoL c Hc). }
    set (created := mkContact (nextId st) (r_name req) (Some n) (Some l)
                              (r_profilePicUrl req) "" (r_isGroup req)).
    destruct Hwf as [Hi Hx Hnum Hlid]. cbn [fst snd].
    assert (Hfresh : ∀ c, c ∈ contacts st → id c ≠ id created).
    { intros c Hc. specialize (Hx c Hc). cbn. lia. }
    split_and!.
    + split; cbn [contacts nextId emit].
      * rewrite fmap_app. apply NoDup_app. split_and!; [done| |].
        -- intros k Hk Hk'. apply list_elem_of_fmap in Hk as (c & -> & Hc).
           apply list_elem_of_singleton in Hk'. by apply (Hfresh c Hc).
        -- apply NoDup_singleton.
      * intros c [Hc| ->%list_elem_of_singleton]%elem_of_app.
        -- specialize (Hx c Hc). lia.
        -- cbn. lia.
      * intros c1 c2 m [H1| ->%list_elem_of_singleton]%elem_of_app
                       [H2| ->%list_elem_of_singleton]%elem_of_app E1 E2;
          try done.
        -- by apply (Hnum c1 c2 m).
        -- cbn in E2. simplify_eq. by destruct (HnoN c1 H1).
        -- cbn in E1. simplify_eq. by destruct (HnoN c2 H2).
      * intros c1 c2 m [H1| ->%list_elem_of_singleton]%elem_of_app
                       [H2| ->%list_elem_of_singleton]%elem_of_app E1 E2;
          try done.
        -- by apply (Hlid c1 c2 m).
        -- cbn in E2. simplify_eq. by destruct (HnoL c1 H1).
        -- cbn in E1. simplify_eq. by destruct (HnoL c2 H2).
    + exists created. split_and!; try done.
      unfold matching. cbn [contacts emit]. rewrite filter_app.
      rewrite filter_none.
      * rewrite filter_cons_True by (by left). done.
      * intros c Hc [?|?]; [by destruct (HnoN c Hc) | by destruct (HnoL c Hc)].
    + intros N' L' [=].
Qed.

Lemma twoIdentities_wf : store_wf twoIdentities.
Proof.
  split; cbn.
  - apply NoDup_ListNoDup. repeat constructor; cbn; intuition discriminate.
  - intros c Hc.
    repeat (apply elem_of_cons in Hc as [->|Hc]; [cbn; lia|]).
    by apply elem_of_nil in Hc.
  - intros c1 c2 n H1 H2.
    repeat (apply elem_of_cons in H1 as [->|H1]);
      try (by apply elem_of_nil in H1);
      repeat (apply elem_of_cons in H2 as [->|H2]);
      try (by apply elem_of_nil in H2); cbn; congruence.
  - intros c1 c2 n H1 H2.
    repeat (apply elem_of_cons in H1 as [->|H1]);
      try (by apply elem_of_nil in H1);
      repeat (apply elem_of_cons in H2 as [->|H2]);
      try (by apply elem_of_nil in H2); cbn; congruence.
Qed.

Lemma contact_upsert_reconciles_witness :
  let out := CreateOrUpdateContactService bothIdentities twoIdentities in
  let merged :=
    mkContact 1 "Ana" (Some "5511999999999") (Some "123456@lid")
              (Some "https://pps.whatsapp.net/ana.jpg") "" false in
  fst out = Returned merged ∧
  contacts (snd out) = [merged] ∧
  matching "5511999999999" "123456@lid" (contacts (snd out)) = [merged] ∧
  tickets (snd out) = [mkTicket 10 1; mkTicket 11 1; mkTicket 12 1].
Proof.
  intros out merged.
  destruct (contact_upsert_reconciles twoIdentities bothIdentities
              "5511999999999" "123456@lid" twoIdentities_wf eq_refl)
    as (_ & (c & Hc & _ & _ & Hm) & Hmerge);
    [discriminate | reflexivity | discriminate |].
  destruct (Hmerge (mkContact 1 "Ana" (Some "5511999999999") None
                              (Some "https://pps.whatsapp.net/ana.jpg") ""
                              false)
                   (mkContact 2 "Ana L." (Some "") (Some "123456@lid") None
                              "" false)
                   eq_refl eq_refl) as (Hret & Ht & _); [discriminate|].
  split_and!.
  - exact Hret.
  - reflexivity.
  - assert (E : Returned c = Returned merged)
      by (etrans; [symmetry; exact Hc | exact Hret]).
    injection E as ->. exact Hm.
  - exact Ht.
Defined.

End ContactProofs.

Section AckProofs.
Import Ack.

(** C10.  When [getIO()] returns and no stored message has the id of the
    acknowledgment event, [handleMessageAck] returns normally, whatever the
    database does with the lookup; no message record is changed and
    nothing is emitted; when the lookup is served nothing happens at all.
    (For a stored message the ack is written and the update is emitted to
    the room of its ticket.) *)
Theorem ack_for_unknown_message_is_ignored
    (db : Database) (messageId : string) (newAck : MessageAck) (st : State) :
  messages st !! messageId = None →
  let out := handleMessageAck (Returned tt) db messageId newAck st in
  fst out = Returned tt ∧
  messages (snd out) = messages st ∧
  List.filter isEmit (effects (snd out)) = List.filter isEmit (effects st) ∧
  (findByPkFails db = None → snd out = st).
Proof.
  intros Hnone. unfold handleMessageAck. rewrite Hnone.
  destruct (findByPkFails db) as [err|]; cbn; [|done].
  split_and!; try done.
  rewrite List.filter_app. cbn. by rewrite app_nil_r.
Qed.

Lemma ack_for_stored_message (messageId : string) (newAck : MessageAck)
    (st : State) (m : Message) :
  messages st !! messageId = Some m →
  let out := handleMessageAck (Returned tt) working messageId newAck st in
  let updated := mkMessage (id m) (ticketId m) (body m) newAck in
  fst out = Returned tt ∧
  messages (snd out) = <[messageId := updated]> (messages st) ∧
  effects (snd out) =
    effects st ++ [EmitAppMessage (pretty (ticketId m)) "update" updated].
Proof. intros H. unfold handleMessageAck. rewrite H. done. Qed.

Lemma ack_for_unknown_message_is_ignored_witness :
  handleMessageAck (Returned tt) working "FFFF" 3 oneMessage
    = (Returned tt, oneMessage) ∧
  fst (handleMessageAck (Returned tt) (mkDatabase (Some "ECONNRESET") None)
         "FFFF" 3 oneMessage) = Returned tt.
Proof.
  destruct (ack_for_unknown_message_is_ignored working "FFFF" 3 oneMessage
              eq_refl) as (H1 & _ & _ & H4).
  destruct (ack_for_unknown_message_is_ignored
              (mkDatabase (Some "ECONNRESET") None) "FFFF" 3 oneMessage
              eq_refl) as (H5 & _).
  split; [|exact H5].
  rewrite (surjective_pairing (handleMessageAck _ _ _ _ _)).
  by rewrite H1, (H4 eq_refl).
Defined.

End AckProofs.

(** ** Chat ids ([normalizeJid]) *)

Section JidFacts.
Import Whaileys.

Lemma string_app_nil_r (s : string) : s +:+ "" = s.
Proof.
  induction s as [|a s IH]; [done|].
  change (String a (s +:+ "") = String a s). by rewrite IH.
Qed.

Lemma string_app_length (s t : string) :
  String.length (s +:+ t) = (String.length s + String.length t)%nat.
Proof.
  induction s as [|a s IH]; [done|].
  change (S (String.length (s +:+ t)) = S (String.length s + String.length t)).
  by rewrite IH.
Qed.

Lemma toLowerCase_length s : String.length (Js.toLowerCase s) = String.length s.
Proof. induction s as [|a s IH]; [done|]. cbn. by rewrite IH. Qed.

Lemma toLowerCase_app s t :
  Js.toLowerCase (s +:+ t) = Js.toLowerCase s +:+ Js.toLowerCase t.
Proof.
  induction s as [|a s IH]; [done|].
  change (String a s +:+ t) with (String a (s +:+ t)). cbn [Js.toLowerCase].
  by rewrite IH.
Qed.

Lemma eqb_length_ne (s t : string) :
  String.length s ≠ String.length t → String.eqb s t = false.
Proof.
  intros H. apply String.eqb_neq. intros ->. done.
Qed.

(** Only the end of a text can be a given suffix. *)
Lemma endsWith_app suffix p t :
  (String.length suffix ≤ String.length t)%nat →
  Js.endsWith suffix (p +:+ t) = Js.endsWith suffix t.
Proof.
  intros Hlen. induction p as [|a p IH]; [done|].
  change (String a p +:+ t) with (String a (p +:+ t)). cbn [Js.endsWith].
  rewrite IH, eqb_length_ne; [done|].
  cbn [String.length]. rewrite string_app_length. lia.
Qed.

Lemma endsWith_self s : Js.endsWith s s = true.
Proof. destruct s; cbn [Js.endsWith]; by rewrite String.eqb_refl. Qed.

Lemma replaceCUs_unchanged jid :
  Js.endsWith "@c.us" (Js.toLowerCase jid) = false → replaceCUs jid = jid.
Proof.
  induction jid as [|a s IH]; intros H; [done|].
  cbn [Js.toLowerCase Js.endsWith] in H.
  apply orb_false_iff in H as [H1 H2].
  cbn [replaceCUs Js.toLowerCase].
  rewrite String.eqb_sym, H1. by rewrite IH.
Qed.

Lemma replaceCUs_suffix p x :
  Js.toLowerCase x = "@c.us" → replaceCUs (p +:+ x) = p +:+ "@s.whatsapp.net".
Proof.
  intros Hx. induction p as [|a p IH].
  - change ("" +:+ x) with x. destruct x as [|b x]; [done|].
    cbn [replaceCUs]. by rewrite Hx.
  - change (String a p +:+ x) with (String a (p +:+ x)).
    cbn [replaceCUs]. rewrite IH.
    rewrite eqb_length_ne; [done|].
    rewrite toLowerCase_length. cbn [String.length].
    rewrite string_app_length, <-(toLowerCase_length x), Hx. cbn. lia.
Qed.

(** A text whose lower-case form ends with the suffix splits there. *)
Lemma endsWith_lower_split suffix s :
  Js.endsWith suffix (Js.toLowerCase s) = true →
  ∃ p x, s = p +:+ x ∧ Js.toLowerCase x = suffix.
Proof.
  induction s as [|a s IH]; intros H.
  - exists "", "". split; [done|]. cbn in H.
    rewrite orb_false_r in H. by apply String.eqb_eq in H.
  - cbn [Js.toLowerCase Js.endsWith] in H.
    apply orb_true_iff in H as [H|H].
    + exists "", (String a s). split; [done|].
      apply String.eqb_eq in H. done.
    + destruct (IH H) as (p & x & -> & Hx).
      by exists (String a p), x.
Qed.

Lemma replaceCUs_no_CUs jid :
  Js.endsWith "@c.us" (Js.toLowerCase (replaceCUs jid)) = false.
Proof.
  destruct (Js.endsWith "@c.us" (Js.toLowerCase jid)) eqn:E.
  - destruct (endsWith_lower_split _ _ E) as (p & x & -> & Hx).
    rewrite (replaceCUs_suffix _ _ Hx), toLowerCase_app.
    by rewrite endsWith_app by (cbn; lia).
  - by rewrite (replaceCUs_unchanged _ E).
Qed.

Lemma normalizeJid_no_CUs jid :
  Js.endsWith "@c.us" (Js.toLowerCase (normalizeJid jid)) = false.
Proof.
  unfold normalizeJid. destruct (decide (jid = "")) as [->|Hne]; [done|].
  destruct (Js.includes "@" jid); cbn [negb].
  - apply replaceCUs_no_CUs.
  - rewrite toLowerCase_app. by rewrite endsWith_app by (cbn; lia).
Qed.

Lemma normalizeJid_has_at jid :
  jid ≠ "" → Js.includes "@" (normalizeJid jid) = true.
Proof.
  intros Hne. unfold normalizeJid. rewrite decide_False by done.
  destruct (Js.includes "@" jid) eqn:E; cbn [negb].
  - destruct (Js.endsWith "@c.us" (Js.toLowerCase jid)) eqn:E'.
    + destruct (endsWith_lower_split _ _ E') as (p & x & -> & Hx).
      rewrite (replaceCUs_suffix _ _ Hx), includes_char_app.
      by rewrite orb_true_r.
    + by rewrite (replaceCUs_unchanged _ E').
  - rewrite includes_char_app. by rewrite orb_true_r.
Qed.

Lemma normalizeJid_nonempty jid : jid ≠ "" → normalizeJid jid ≠ "".
Proof.
  intros Hne E. pose proof (normalizeJid_has_at jid Hne) as H.
  by rewrite E in H.
Qed.

Lemma normalizeJid_fixed jid :
  Js.includes "@" jid = true →
  Js.endsWith "@c.us" (Js.toLowerCase jid) = false →
  normalizeJid jid = jid.
Proof.
  intros Hat Hcus. unfold normalizeJid.
  destruct (decide (jid = "")) as [->|Hne]; [done|].
  rewrite Hat. cbn [negb]. by apply replaceCUs_unchanged.
Qed.

(** X1.  [normalizeJid] is idempotent, its result never ends with "@c.us"
    in any letter case, and on a non-empty chat id the result carries a
    server part. *)
Theorem normalizeJid_idempotent jid :
  normalizeJid (normalizeJid jid) = normalizeJid jid ∧
  Js.endsWith "@c.us" (Js.toLowerCase (normalizeJid jid)) = false ∧
  (jid ≠ "" → Js.includes "@" (normalizeJid jid) = true).
Proof.
  split_and!.
  - destruct (decide (jid = "")) as [->|Hne]; [done|].
    apply normalizeJid_fixed.
    + by apply normalizeJid_has_at.
    + apply normalizeJid_no_CUs.
  - apply normalizeJid_no_CUs.
  - apply normalizeJid_has_at.
Qed.

Lemma normalizeJid_c_us number :
  normalizeJid (number +:+ "@c.us") = number +:+ "@s.whatsapp.net".
Proof.
  unfold normalizeJid. rewrite decide_False by by destruct number.
  rewrite includes_char_app. cbn -[String.append replaceCUs].
  rewrite orb_true_r. cbn [negb]. by apply replaceCUs_suffix.
Qed.

Lemma normalizeJid_g_us number :
  normalizeJid (number +:+ "@g.us") = number +:+ "@g.us".
Proof.
  apply normalizeJid_fixed.
  - rewrite includes_char_app. by rewrite orb_true_r.
  - rewrite toLowerCase_app. by rewrite endsWith_app by (cbn; lia).
Qed.

End JidFacts.

(** ** The message store of a whaileys session *)

Section ChatsProofs.
Import Whaileys WhaileysChats.

Lemma slice_zero {A} (l : list A) : slice 0 l = l.
Proof. unfold slice. rewrite decide_False by lia. by rewrite Z.min_l by lia. Qed.

Lemma slice_last {A} (n : nat) (l : list A) :
  (0 < n)%nat → slice (- Z.of_nat n) l = drop (length l - n) l.
Proof.
  intros Hn. unfold slice. rewrite decide_True by lia. f_equal. lia.
Qed.

Lemma slice_last_length {A} (n : nat) (l : list A) :
  (0 < n)%nat → length (slice (- Z.of_nat n) l) = (n `min` length l)%nat.
Proof. intros Hn. rewrite slice_last by done. rewrite length_drop. lia. Qed.

Lemma mapMessageAck_range status : 0 ≤ mapMessageAck status ≤ 4.
Proof. destruct status as [s|]; cbn; repeat case_decide; lia. Qed.

(** X2.  For a live session [fetchChatMessages] answers the newest
    messages of the chat, at most [limit] of them and in the order of the
    store; with a limit of 0 it answers all of them.  Every element is
    addressed to the normalised chat id and carries an ack between 0
    and 4. *)
Theorem fetchChatMessages_newest
    sessions sessionId chatId (limit : Z) now wbot :
  sessions !! sessionId = Some wbot →
  0 ≤ limit →
  let chat := normalizeJid chatId in
  let stored := messagesOf wbot chat in
  ∃ out,
    fetchChatMessages sessions sessionId chatId (Some limit) now =
      Returned out ∧
    length out = (if decide (limit = 0)%Z then length stored
                  else Z.to_nat limit `min` length stored)%nat ∧
    out = imap (fun i msg => toProviderMessage chat (now i) msg)
               (drop (length stored - length out) stored) ∧
    Forall (fun p => pm_to p = chat ∧
                     ∃ a, pm_ack p = Some a ∧ 0 ≤ a ≤ 4) out.
Proof.
  intros Hs Hlimit chat stored. unfold fetchChatMessages, getWbot.
  rewrite Hs. change (default 100 (Some limit)) with limit.
  fold chat. fold stored.
  eexists. split; [reflexivity|].
  assert (Hlen : length (slice (- limit) stored) =
                 (if decide (limit = 0)%Z then length stored
                  else Z.to_nat limit `min` length stored)%nat).
  { case_decide as H0.
    - subst limit. by rewrite slice_zero.
    - rewrite <-(Z2Nat.id limit) at 1 by done.
      apply slice_last_length. lia. }
  rewrite length_imap. split_and!.
  - done.
  - f_equal. rewrite Hlen. case_decide as H0.
    + subst limit. rewrite slice_zero. by rewrite Nat.sub_diag.
    + rewrite <-(Z2Nat.id limit) at 1 by done.
      rewrite slice_last by lia. f_equal. lia.
  - apply Forall_forall. intros p Hp.
    apply list_elem_of_lookup in Hp as [i Hi].
    rewrite list_lookup_imap in Hi.
    destruct (slice (- limit) stored !! i) as [msg|]; [|done].
    cbn in Hi. injection Hi as <-. split; [done|].
    eexists. split; [done|]. apply mapMessageAck_range.
Qed.

Lemma fetchChatMessages_newest_witness :
  ∃ out,
    fetchChatMessages aliceSockets 1 "5511999999999@c.us" (Some 2)
                      (fun _ => 0) = Returned out ∧
    pm_id <$> out = ["L1"; "3EB0A1"].
Proof.
  destruct (fetchChatMessages_newest
              aliceSockets 1 "5511999999999@c.us" 2 (fun _ => 0) aliceSocket
              eq_refl ltac:(lia))
    as (out & Hout & _ & Hmsgs & _).
  exists out. split; [exact Hout|].
  vm_compute in Hout. injection Hout as <-. reflexivity.
Defined.

Lemma elem_of_slice_last {A} (n : nat) (l : list A) x :
  (0 < n)%nat → x ∈ slice (- Z.of_nat n) l →
  ∃ i, l !! i = Some x ∧ (length l ≤ i + n)%nat.
Proof.
  intros Hn. rewrite slice_last by done.
  intros [j Hj]%list_elem_of_lookup. rewrite lookup_drop in Hj.
  exists (length l - n + j)%nat. split; [done|lia].
Qed.

(** X3.  [sendSeen] makes at most one call of [readMessages].  The call
    names between one and five messages; each of them is stored among the
    last five of the normalised chat, was not sent by the session itself
    and has an id. *)
Theorem sendSeen_marks_recent_inbound
    sessions sessionId chatId readMessages :
  let chat := normalizeJid chatId in
  let calls := (sendSeen sessions sessionId chatId readMessages).1 in
  (length calls ≤ 1)%nat ∧
  ∀ keys, keys ∈ calls →
    (1 ≤ length keys ≤ 5)%nat ∧
    ∀ k, k ∈ keys →
      readRemoteJid k = chat ∧ readId k ≠ "" ∧
      ∃ wbot i msg,
        sessions !! sessionId = Some wbot ∧
        messagesOf wbot chat !! i = Some msg ∧
        (length (messagesOf wbot chat) ≤ i + 5)%nat ∧
        isFromMe msg = false ∧
        id (key msg) = Some (readId k) ∧
        participant (key msg) = readParticipant k.
Proof.
  intros chat. unfold sendSeen, getWbot.
  destruct (sessions !! sessionId) as [wbot|] eqn:Hs; cbn zeta.
  2:{ cbn. split; [lia|]. intros keys Hk. by apply elem_of_nil in Hk. }
  fold chat. set (stored := messagesOf wbot chat).
  case_decide as Hempty.
  { cbn. split; [lia|]. intros keys Hk. by apply elem_of_nil in Hk. }
  case_decide as Hkeys.
  2:{ cbn. split; [lia|]. intros keys Hk. by apply elem_of_nil in Hk. }
  cbn [fst length]. split; [lia|].
  intros keys ->%list_elem_of_singleton. split.
  - split; [lia|]. rewrite length_fmap.
    etrans; [apply List.filter_length_le|].
    change (-5) with (- Z.of_nat 5). rewrite slice_last_length by lia. lia.
  - intros k (msg & -> & Hmsg)%list_elem_of_fmap.
    apply list_elem_of_In, filter_In in Hmsg as [Hin Hun].
    apply list_elem_of_In in Hin.
    change (-5) with (- Z.of_nat 5) in Hin.
    apply elem_of_slice_last in Hin as (i & Hi & Hlen); [|lia].
    unfold unreadFromOthers in Hun.
    apply andb_true_iff in Hun as [Hfrom Hid].
    apply negb_true_iff in Hfrom.
    apply bool_decide_eq_true in Hid as [x Hx].
    unfold truthy in Hx. destruct (id (key msg)) as [y|] eqn:Hy; [|done].
    case_decide; [done|]. injection Hx as ->.
    cbn [readRemoteJid readId readParticipant]. unfold Js.orElse.
    rewrite decide_False by done.
    split_and!; [done..|]. by exists wbot, i, msg.
Qed.

(** X22.  In what the whaileys provider hands on, the media flag and the
    canonical type go together: [hasMedia] holds exactly when
    [mapMessageType] answers image, video, audio, ptt, document or
    sticker; ptt is answered for a voice note only, and a content type
    that the provider does not know counts as chat, without media. *)
Theorem whaileys_hasMedia_iff_media_type msg :
  hasMedia msg =
    bool_decide (mapMessageType msg ∈
                   [image; video; audio; ptt; document; sticker]) ∧
  (mapMessageType msg = ptt ↔
   typeOrEmpty msg = "audioMessage" ∧
   from_option audioPtt false (message msg) = true) ∧
  (typeOrEmpty msg ∉ validTypes →
   mapMessageType msg = chat ∧ hasMedia msg = false).
Proof.
  unfold hasMedia, mapMessageType, mediaTypes, validTypes.
  generalize (typeOrEmpty msg) as t.
  generalize (from_option audioPtt false (message msg)) as voice.
  intros voice t. split_and!.
  - destruct voice; cbn [andb];
      repeat (case_bool_decide || case_decide); subst;
      try done;
      repeat match goal with
             | H : _ ∈ _ |- _ =>
                 apply elem_of_cons in H as [H|H]; [try done|]
             | H : _ ∈ [] |- _ => by apply elem_of_nil in H
             | H : ¬ (_ ∈ _) |- _ => destruct H; repeat constructor
             end.
  - destruct voice; cbn [andb];
      repeat (case_bool_decide || case_decide); subst;
      intuition (try done; try congruence).
  - intros Hnot.
    assert (Hne : ∀ x, x ∈ ["conversation"; "extendedTextMessage";
                            "imageMessage"; "videoMessage"; "audioMessage";
                            "documentMessage"; "stickerMessage";
                            "locationMessage"; "contactMessage";
                            "contactsArrayMessage"] → t ≠ x)
      by (intros x Hx ->; done).
    rewrite (bool_decide_eq_false_2 (t = "audioMessage"))
      by (apply Hne; repeat constructor).
    cbn [andb].
    repeat (rewrite decide_False by (apply Hne; repeat constructor)).
    split; [done|]. apply bool_decide_eq_false_2.
    intros Hin. apply Hnot.
    repeat (apply elem_of_cons in Hin as [->|Hin]; [repeat constructor|]).
    by apply elem_of_nil in Hin.
Qed.

End ChatsProofs.

(** ** Acknowledgment updates, and the listeners that report them *)

Section AckEventProofs.
Import Whaileys WhaileysEvents.

(** What one call of [handleMessageAck] does to the row of a message:
    nothing, or it sets the ack of the message named to the ack given. *)
Lemma handleMessageAck_rows getIO db messageId newAck st j :
  let st' := (Ack.handleMessageAck getIO db messageId newAck st).2 in
  match Ack.messages st !! j with
  | None => Ack.messages st' !! j = None
  | Some m =>
      Ack.messages st' !! j = Some m ∨
      (j = messageId ∧
       Ack.messages st' !! j =
         Some (Ack.mkMessage (Ack.id m) (Ack.ticketId m) (Ack.body m) newAck))
  end.
Proof.
  cbn zeta. unfold Ack.handleMessageAck.
  destruct getIO as [[]|e]; cbn [snd].
  2:{ destruct (Ack.messages st !! j); auto. }
  destruct (Ack.findByPkFails db); cbn [snd Ack.capture Ack.messages].
  { destruct (Ack.messages st !! j); auto. }
  destruct (Ack.messages st !! messageId) as [m0|] eqn:Hm; cbn [snd].
  2:{ destruct (Ack.messages st !! j); auto. }
  destruct (Ack.updateFails db); cbn [snd Ack.capture Ack.messages].
  { destruct (Ack.messages st !! j); auto. }
  destruct (decide (j = messageId)) as [->|Hne].
  - rewrite Hm, lookup_insert_eq. auto.
  - rewrite lookup_insert_ne by done. destruct (Ack.messages st !! j); auto.
Qed.

(** The rows after the calls of a listener: no row appears or disappears,
    body and ticket stay, and a changed ack is one that a call gave for
    that message. *)
Lemma forward_rows getIO calls st j :
  let st' := forward getIO calls st in
  match Ack.messages st !! j with
  | None => Ack.messages st' !! j = None
  | Some m =>
      ∃ a, Ack.messages st' !! j =
             Some (Ack.mkMessage (Ack.id m) (Ack.ticketId m) (Ack.body m) a) ∧
           (a = Ack.ack m ∨ Some (j, a) ∈ calls.*2)
  end.
Proof.
  cbn zeta. revert st. induction calls as [|[db call] calls IH]; intros st.
  - cbn. destruct (Ack.messages st !! j) as [[]|]; eauto.
  - cbn [forward fold_left fst snd].
    set (st1 := match call with
                | Some (messageId, ack) =>
                    (Ack.handleMessageAck getIO db messageId ack st).2
                | None => st
                end).
    specialize (IH st1). fold (forward getIO calls st1).
    assert (Hstep :
      match Ack.messages st !! j with
      | None => Ack.messages st1 !! j = None
      | Some m =>
          ∃ a, Ack.messages st1 !! j =
                 Some (Ack.mkMessage (Ack.id m) (Ack.ticketId m)
                                     (Ack.body m) a) ∧
               (a = Ack.ack m ∨ Some (j, a) = call)
      end).
    { subst st1. destruct call as [[i a]|].
      - pose proof (handleMessageAck_rows getIO db i a st j) as H.
        cbn zeta in H. destruct (Ack.messages st !! j) as [m|]; [|done].
        destruct H as [H|[-> H]].
        + exists (Ack.ack m). by destruct m; auto.
        + exists a. auto.
      - destruct (Ack.messages st !! j) as [[]|]; eauto. }
    destruct (Ack.messages st !! j) as [m|].
    + destruct Hstep as (a1 & H1 & Ha1). rewrite H1 in IH.
      destruct IH as (a & H & Ha). cbn in H, Ha.
      exists a. split; [done|]. cbn [fmap list_fmap snd].
      destruct Ha as [->|Ha]; [|right; by apply list_elem_of_further].
      destruct Ha1 as [->|<-]; [by left|right; apply list_elem_of_here].
    + by rewrite Hstep in IH.
Qed.

Lemma forward_calls {A} (db : nat → Ack.Database)
    (f : A → option (string * MessageAck)) (l : list A) call :
  call ∈ (imap (fun i u => (db i, f u)) l).*2 → ∃ u, u ∈ l ∧ f u = call.
Proof.
  intros ([d c] & -> & Hin)%list_elem_of_fmap.
  apply elem_of_lookup_imap_1 in Hin as (i & u & [= -> ->] & Hu).
  exists u. split; [by eapply list_elem_of_lookup_2|done].
Qed.

Lemma receiptAck_range r : 2 ≤ receiptAck r ≤ 4.
Proof. unfold receiptAck. repeat case_match; lia. Qed.

(** X4.  The "message-receipt.update" listener neither adds nor removes a
    message, keeps body and ticket, and leaves every ack as it was or
    between 2 (delivered) and 4 (played): 4 for a receipt that was played,
    3 for one that was read and not played, 2 otherwise. *)
Theorem receipt_listener_reports_delivery getIO db updates st :
  let st' := onMessageReceiptUpdate getIO db updates st in
  (∀ r, receiptAck r =
          if truthyNumber (playedTimestamp r) then 4
          else if truthyNumber (readTimestamp r) then 3 else 2) ∧
  ∀ j,
    match Ack.messages st !! j with
    | None => Ack.messages st' !! j = None
    | Some m =>
        ∃ a, Ack.messages st' !! j =
               Some (Ack.mkMessage (Ack.id m) (Ack.ticketId m)
                                   (Ack.body m) a) ∧
             (a = Ack.ack m ∨ 2 ≤ a ≤ 4)
    end.
Proof.
  cbn zeta. split.
  { intros r. unfold receiptAck. by repeat case_match. }
  intros j. unfold onMessageReceiptUpdate.
  pose proof (forward_rows getIO
                (imap (fun i u => (db i, receiptCall u)) updates) st j) as H.
  cbn zeta in H.
  destruct (Ack.messages st !! j) as [m|]; [|done].
  destruct H as (a & H & Ha). exists a. split; [done|].
  destruct Ha as [->|Ha]; [by left|right].
  apply forward_calls in Ha as (u & _ & Hu).
  unfold receiptCall in Hu. destruct (truthy _); [|done].
  injection Hu as _ <-. apply receiptAck_range.
Qed.

(** X5.  The "messages.update" listener passes on the status of the
    library as it is: afterwards every ack is the one from before or the
    status, not 0, of an update for that message.  An update without
    status, with status 0 or without message id changes nothing. *)
Theorem status_listener_forwards_status getIO db updates st :
  let st' := onMessagesUpdate getIO db updates st in
  ∀ j,
    match Ack.messages st !! j with
    | None => Ack.messages st' !! j = None
    | Some m =>
        ∃ a, Ack.messages st' !! j =
               Some (Ack.mkMessage (Ack.id m) (Ack.ticketId m)
                                   (Ack.body m) a) ∧
             (a = Ack.ack m ∨
              a ≠ 0 ∧
              ∃ u, u ∈ updates ∧ id (updateKey u) = Some j ∧
                   updateStatus u = Some a)
    end.
Proof.
  cbn zeta. intros j. unfold onMessagesUpdate.
  pose proof (forward_rows getIO
                (imap (fun i u => (db i, statusAck u)) updates) st j) as H.
  cbn zeta in H.
  destruct (Ack.messages st !! j) as [m|]; [|done].
  destruct H as (a & H & Ha). exists a. split; [done|].
  destruct Ha as [->|Ha]; [by left|right].
  apply forward_calls in Ha as (u & Hin & Hu).
  unfold statusAck in Hu.
  destruct (updateStatus u) as [s|] eqn:Hs; cbn in Hu; [|done].
  case_bool_decide as Hs0; cbn in Hu; [|done].
  unfold truthy in Hu. destruct (id (updateKey u)) as [i|] eqn:Hi; [|done].
  case_decide; [done|]. injection Hu as -> <-.
  split; [done|]. by exists u.
Qed.

(** X6.  [handleMessageAck] overwrites: of two acks handled for a stored
    message the second one is kept, whether it is higher or lower than the
    first.  Each call is announced to the room of the ticket, and no other
    message changes. *)
Theorem handleMessageAck_last_wins messageId m a1 a2 st :
  Ack.messages st !! messageId = Some m →
  let withAck a := Ack.mkMessage (Ack.id m) (Ack.ticketId m) (Ack.body m) a in
  let st1 :=
    (Ack.handleMessageAck (Returned tt) Ack.working messageId a1 st).2 in
  let st2 :=
    (Ack.handleMessageAck (Returned tt) Ack.working messageId a2 st1).2 in
  Ack.messages st2 !! messageId = Some (withAck a2) ∧
  Ack.effects st2 =
    Ack.effects st ++
    [Ack.EmitAppMessage (pretty (Ack.ticketId m)) "update" (withAck a1);
     Ack.EmitAppMessage (pretty (Ack.ticketId m)) "update" (withAck a2)] ∧
  ∀ j, j ≠ messageId → Ack.messages st2 !! j = Ack.messages st !! j.
Proof.
  intros Hm. cbn zeta. unfold Ack.handleMessageAck at 2 4 6.
  cbn [Ack.working Ack.findByPkFails Ack.updateFails]. rewrite Hm.
  cbn [snd]. unfold Ack.handleMessageAck.
  cbn [Ack.working Ack.findByPkFails Ack.updateFails Ack.messages].
  rewrite lookup_insert_eq.
  cbn [snd Ack.messages Ack.effects Ack.id Ack.ticketId Ack.body].
  split_and!.
  - by rewrite lookup_insert_eq.
  - by rewrite <-app_assoc.
  - intros j Hj. by rewrite !lookup_insert_ne.
Qed.

Lemma handleMessageAck_last_wins_witness :
  Ack.ack <$>
    Ack.messages
      (Ack.handleMessageAck (Returned tt) Ack.working "3EB0A1" 2
         (Ack.handleMessageAck (Returned tt) Ack.working "3EB0A1" 3
            oneMessage).2).2 !! "3EB0A1" = Some 2.
Proof.
  destruct (handleMessageAck_last_wins
              "3EB0A1" (Ack.mkMessage "3EB0A1" 7 "hi" 1) 3 2 oneMessage
              eq_refl) as (H & _ & _).
  cbn zeta in H. rewrite H. reflexivity.
Defined.

End AckEventProofs.

(** ** The key store of a session *)

Section SessionKeysProofs.
Import KeyStore SessionKeys.
Context {Value : Type} `{!BufferJSON Value}.

Lemma prefix_app p r : String.prefix p (p +:+ r) = true.
Proof.
  induction p as [|a p IH]; [apply prefix_empty|].
  change (String a p +:+ r) with (String a (p +:+ r)). cbn.
  destruct (ascii_dec a a); [done|congruence].
Qed.

Lemma prefix_split p s : String.prefix p s = true → ∃ r, s = p +:+ r.
Proof.
  revert s. induction p as [|a p IH]; intros s H; [by exists s|].
  destruct s as [|b s]; [done|]. cbn in H.
  destruct (ascii_dec a b) as [->|]; [|done].
  destruct (IH s H) as [r ->]. by exists r.
Qed.

Lemma redisKey_matches sessionId dev ty id :
  matchesSession sessionId (redisKey sessionId dev ty id) = true.
Proof.
  unfold matchesSession, Js.startsWith.
  assert (redisKey sessionId dev ty id =
          ("wpp:" +:+ pretty sessionId +:+ ":") +:+
          (pretty dev +:+ ":" +:+ ty +:+ ":" +:+ id)) as ->
    by (unfold redisKey; by rewrite !string_app_assoc).
  apply prefix_app.
Qed.

Lemma redisKey_matches_inv sessionId c dev ty id :
  matchesSession sessionId (redisKey c dev ty id) = true → c = sessionId.
Proof.
  unfold matchesSession, Js.startsWith, redisKey.
  intros [r Hr]%prefix_split.
  rewrite !string_app_assoc in Hr.
  apply (inj (String.append "wpp:")) in Hr.
  apply (separator_inj ":" (pretty c) (pretty sessionId)) in Hr as [Hc _];
    [|apply pretty_Z_no_colon..].
  by apply (inj pretty) in Hc.
Qed.

Lemma getFromRedis_cleared sessionId key st :
  getFromRedis key (clearSessionKeys sessionId st) =
  if matchesSession sessionId key then None else getFromRedis key st.
Proof.
  unfold getFromRedis, clearSessionKeys.
  destruct (redisClient st) as [r|] eqn:Er; cbn; [|rewrite Er; by case_match].
  destruct (matchesSession sessionId key) eqn:Em.
  - rewrite map_lookup_filter_None_2; [done|].
    right. intros x _ Hx. cbn [fst] in Hx. congruence.
  - destruct (r !! key) as [x|] eqn:Ex.
    + by rewrite (map_lookup_filter_Some_2 _ _ _ _ Ex).
    + rewrite map_lookup_filter_None_2; [done|]. by left.
Qed.

Lemma collect_ext (f g : string → option string) ids :
  (∀ id, f id = g id) →
  ∀ data : gmap string Value, collect f ids data = collect g ids data.
Proof.
  intros E. induction ids as [|i ids IH]; intros data; [done|]. cbn.
  rewrite E. destruct (g i) as [text|]; [|done].
  destruct (parse text); by rewrite IH.
Qed.

Lemma collect_nothing ids : ∀ data : gmap string Value,
  collect (fun _ => None) ids data = (data, false).
Proof. induction ids as [|i ids IH]; intros data; [done|]. cbn. apply IH. Qed.

(** X7.  [clearSessionKeys] empties the cache for its connection and for
    nothing else: afterwards a read of a hot type under that connection
    finds nothing, whatever the device; reads under other connections and
    reads of durable types, also under that connection, answer what they
    answered before.  The table is not touched. *)
Theorem clearSessionKeys_purges_cache_only sessionId st :
  let st' := clearSessionKeys sessionId st in
  wppKeys st' = wppKeys st ∧
  (∀ dev ty ids,
      GetWppSessionKeys (Value:=Value) sessionId dev ty ids st' =
      if isRedisType ty then Resolved ∅
      else GetWppSessionKeys sessionId dev ty ids st) ∧
  (∀ conn dev ty ids, conn ≠ sessionId →
      GetWppSessionKeys (Value:=Value) conn dev ty ids st' =
      GetWppSessionKeys conn dev ty ids st).
Proof.
  cbn zeta. split_and!.
  - unfold clearSessionKeys. by destruct (redisClient st).
  - intros dev ty ids. destruct (isRedisType ty) eqn:Ety.
    + rewrite get_hot by done. cbn zeta.
      rewrite (collect_ext _ (fun _ => None)), collect_nothing; [done|].
      intros id. by rewrite getFromRedis_cleared, redisKey_matches.
    + rewrite !get_durable by done.
      unfold clearSessionKeys. by destruct (redisClient st).
  - intros conn dev ty ids Hne. destruct (isRedisType ty) eqn:Ety.
    + rewrite !get_hot by done. cbn zeta.
      rewrite (collect_ext _
                 (fun id => getFromRedis (redisKey conn dev ty id) st));
        [done|].
      intros id. rewrite getFromRedis_cleared.
      destruct (matchesSession sessionId _) eqn:Em; [|done].
      by apply redisKey_matches_inv in Em.
    + rewrite !get_durable by done.
      unfold clearSessionKeys. by destruct (redisClient st).
Qed.

Lemma stored_store_same conn dev ty id (v : Value) st :
  (isRedisType ty = true → is_Some (redisClient st)) →
  stored conn dev ty id (StoreWppSessionKeys conn dev ty id v st) =
  Some (stringify v).
Proof.
  intros Hr. unfold stored, StoreWppSessionKeys.
  destruct (isRedisType ty) eqn:Ety; cbn; [|apply lookup_insert_eq].
  destruct (Hr eq_refl) as [r Er]. unfold setInRedis, getFromRedis.
  rewrite Er. cbn. rewrite lookup_insert_eq.
  rewrite decide_True by (unfold REDIS_SESSION_TTL; lia).
  by rewrite decide_False by apply stringify_nonempty.
Qed.

Lemma stored_store_other conn dev ty id ty' id' (v' : Value) st :
  (ty', id') ≠ (ty, id) →
  stored conn dev ty id (StoreWppSessionKeys conn dev ty' id' v' st) =
  stored conn dev ty id st.
Proof.
  intros Hne. unfold stored, StoreWppSessionKeys.
  destruct (isRedisType ty) eqn:Ety, (isRedisType ty') eqn:Ety'; cbn.
  - unfold setInRedis, getFromRedis.
    destruct (redisClient st) as [r|] eqn:Er; cbn; rewrite ?Er; [|done].
    rewrite lookup_insert_ne; [done|]. intros E.
    apply redisKey_inj in E as (_ & _ & -> & ->);
      [done | by apply hot_type_no_colon..].
  - done.
  - unfold setInRedis. by destruct (redisClient st).
  - rewrite lookup_insert_ne; [done|]. congruence.
Qed.

Lemma store_keeps_client conn dev ty id (v : Value) st :
  is_Some (redisClient st) →
  is_Some (redisClient (StoreWppSessionKeys conn dev ty id v st)).
Proof.
  intros [r Er]. unfold StoreWppSessionKeys, setInRedis. rewrite Er.
  destruct (isRedisType ty); cbn; by eexists.
Qed.

Lemma category_keeps_client conn dev category
    (categoryData : list (string * Value)) : ∀ st,
  is_Some (redisClient st) →
  is_Some (redisClient
             (fold_left
                (fun s' kv =>
                   StoreWppSessionKeys conn dev category kv.1 kv.2 s')
                categoryData st)).
Proof.
  induction categoryData as [|kv l IH]; intros st Hr; [done|].
  cbn [fold_left]. by apply IH, store_keeps_client.
Qed.

(** The writes of one category: a stored text of another type stays, and
    the text of a written id is that of the value written for it. *)
Lemma category_stored conn dev category
    (categoryData : list (string * Value)) ty id text : ∀ st,
  (isRedisType ty = true → is_Some (redisClient st)) →
  (∀ v, ty = category → (id, v) ∈ categoryData → stringify v = text) →
  stored conn dev ty id st = Some text ∨
    (ty = category ∧ id ∈ categoryData.*1) →
  stored conn dev ty id
    (fold_left
       (fun s' kv => StoreWppSessionKeys conn dev category kv.1 kv.2 s')
       categoryData st) = Some text.
Proof.
  induction categoryData as [|[i v] l IH]; intros st Hr Hsame Hst.
  { destruct Hst as [?|[_ Hv]]; [done|]. by apply elem_of_nil in Hv. }
  cbn [fold_left fst snd]. apply IH.
  - intros Hty. by apply store_keeps_client, Hr.
  - intros v' E Hv'. apply Hsame; [done|]. by apply list_elem_of_further.
  - destruct (decide ((category, i) = (ty, id))) as [E|Hne].
    + injection E as -> ->. left. rewrite stored_store_same by done.
      f_equal. apply Hsame; [done|]. apply list_elem_of_here.
    + rewrite stored_store_other by done.
      destruct Hst as [?|[-> Hv']]; [by left|right].
      split; [done|]. cbn [fmap list_fmap fst] in Hv'.
      apply elem_of_cons in Hv' as [->|?]; [done|done].
Qed.

Lemma keysSet_keeps_client sessionId device (data : SignalDataSet Value) :
  ∀ st, is_Some (redisClient st) →
        is_Some (redisClient (keysSet sessionId device data st)).
Proof.
  unfold keysSet. induction data as [|[c cd] data IH]; intros st Hr; [done|].
  cbn [fold_left fst snd]. apply IH. destruct cd as [l|]; [|done].
  by apply category_keeps_client.
Qed.

Lemma keysSet_stored sessionId device (data : SignalDataSet Value)
    ty id text : ∀ st,
  (isRedisType ty = true → is_Some (redisClient st)) →
  (∀ l v, (ty, Some l) ∈ data → (id, v) ∈ l → stringify v = text) →
  stored sessionId (deviceIdOf device) ty id st = Some text ∨
    (∃ l, (ty, Some l) ∈ data ∧ id ∈ l.*1) →
  stored sessionId (deviceIdOf device) ty id
         (keysSet sessionId device data st) = Some text.
Proof.
  unfold keysSet. induction data as [|[c cd] data IH]; intros st Hr Hsame Hst.
  { destruct Hst as [?|(l & Hl & _)]; [done|]. by apply elem_of_nil in Hl. }
  cbn [fold_left fst snd]. apply IH.
  - intros Hty. destruct cd as [l|]; [|by apply Hr].
    by apply category_keeps_client, Hr.
  - intros l v Hl. apply Hsame. by apply list_elem_of_further.
  - destruct cd as [l|].
    + destruct (decide (ty = c ∧ id ∈ l.*1)) as [[-> Hv]|Hno].
      * left. apply category_stored; [done| |by right].
        intros v _ Hin. apply (Hsame l v); [apply list_elem_of_here|done].
      * destruct Hst as [Hst|(l' & Hl' & Hv)].
        -- left. apply category_stored; [done| |by left].
           intros v -> Hin. destruct Hno. split; [done|].
           apply list_elem_of_fmap. by exists (id, v).
        -- apply elem_of_cons in Hl' as [[= -> ->]|Hl'].
           ++ by destruct Hno.
           ++ right. by exists l'.
    + destruct Hst as [?|(l' & Hl' & Hv)]; [by left|right].
      apply elem_of_cons in Hl' as [[=]|Hl']. by exists l'.
Qed.

Lemma NoDup_fst_functional {A B} (l : list (A * B)) a b b' :
  NoDup l.*1 → (a, b) ∈ l → (a, b') ∈ l → b = b'.
Proof.
  induction l as [|[x y] l IH]; intros Hnd H1 H2.
  { by apply elem_of_nil in H1. }
  cbn in Hnd. apply NoDup_cons in Hnd as [Hx Hnd].
  apply elem_of_cons in H1 as [E1|H1];
    apply elem_of_cons in H2 as [E2|H2]; simplify_eq.
  - done.
  - destruct Hx. apply list_elem_of_fmap. by exists (x, b').
  - destruct Hx. apply list_elem_of_fmap. by exists (x, b).
  - by apply IH.
Qed.

(** X8.  What [keys.set] writes, [keys.get] reads back: after a set whose
    categories, and the ids within each category, are distinct, as the
    entries of a JavaScript object are, a get of the ids of a category of
    the set answers the entries of that category.  For the types kept in
    the cache this needs the cache client; the device is the same in both
    calls. *)
Theorem keys_set_then_get
    sessionId device (data : SignalDataSet Value) st category categoryData :
  stored_wf (Value:=Value) st →
  NoDup data.*1 →
  (∀ c l, (c, Some l) ∈ data → NoDup l.*1) →
  (category, Some categoryData) ∈ data →
  (isRedisType category = true → is_Some (redisClient st)) →
  keysGet sessionId device category categoryData.*1
          (keysSet sessionId device data st) =
  Resolved (list_to_map categoryData).
Proof.
  intros Hwf Hcats Hids Hin Hr.
  assert (Hwf' : stored_wf (Value:=Value) (keysSet sessionId device data st)).
  { clear -Hwf. unfold keysSet. revert st Hwf.
    induction data as [|[c cd] data IH]; intros st Hwf; [done|].
    cbn [fold_left fst snd]. apply IH. destruct cd as [l|]; [|done].
    clear IH. revert st Hwf. induction l as [|[i v] l IH]; intros st Hwf;
      [done|].
    cbn [fold_left fst snd]. apply IH.
    apply (apply_wf st (Set_ sessionId (deviceIdOf device) c i v) Hwf). }
  unfold keysGet.
  destruct (get_wf sessionId (deviceIdOf device) category categoryData.*1
              _ Hwf') as (got & -> & Hout & _ & Hfound).
  f_equal. apply map_eq. intros id.
  destruct (decide (id ∈ categoryData.*1)) as [Hid|Hid].
  - pose proof Hid as ((i & v) & -> & Hv)%list_elem_of_fmap. cbn [fst] in *.
    rewrite (Hfound i (stringify v) Hid).
    + rewrite parse_stringify. symmetry.
      apply elem_of_list_to_map; [by apply (Hids category)|done].
    + apply keysSet_stored; [done| |right; by exists categoryData].
      intros l v' Hl Hv'.
      assert (Some l = Some categoryData) as [= ->]
        by apply (NoDup_fst_functional data category _ _ Hcats Hl Hin).
      f_equal.
      apply (NoDup_fst_functional categoryData i _ _
               (Hids _ _ Hin) Hv' Hv).
  - rewrite (Hout id Hid). symmetry.
    by apply not_elem_of_list_to_map.
Qed.

End SessionKeysProofs.

Section SessionKeysInstances.
Import KeyStore SessionKeys.

Lemma keys_set_then_get_witness :
  keysGet 7 (Some 2) "session" ["5511999999999.0"; "5511888888888.0"]
          (keysSet 7 (Some 2) signalKeys (initial true)) =
  Resolved (list_to_map [("5511999999999.0", JBool true);
                         ("5511888888888.0", JNull)]).
Proof.
  apply (keys_set_then_get 7 (Some 2) signalKeys (initial true) "session"
           [("5511999999999.0", JBool true); ("5511888888888.0", JNull)]).
  - apply stored_wf_initial.
  - refine (bool_decide_unpack _ _); vm_compute; exact I.
  - intros c l H. unfold signalKeys in H.
    repeat (apply elem_of_cons in H as [[= -> ->]|H];
            [refine (bool_decide_unpack _ _); vm_compute; exact I|]);
      try apply elem_of_cons in H as [[=]|H];
      try by apply elem_of_nil in H.
  - apply list_elem_of_here.
  - intros _. by eexists.
Defined.

End SessionKeysInstances.

(** ** The connection row after a logout *)

Section LogoutProofs.
Import Creds.

Lemma flush_row_pending wid r st :
  pendingCredsSaves st !! wid = Some (wid, r) →
  whatsapps (flushPendingCredsSave wid st) =
  alter (applyPatch (credsPatch (credsObjects st r))) wid (whatsapps st).
Proof.
  intros Hp. unfold flushPendingCredsSave.
  destruct (credsDebounceTimers st !! wid); cbn; by rewrite Hp.
Qed.

Lemma flush_row_idle wid st :
  pendingCredsSaves st !! wid = None →
  whatsapps (flushPendingCredsSave wid st) = whatsapps st.
Proof.
  intros Hp. unfold flushPendingCredsSave.
  destruct (credsDebounceTimers st !! wid); cbn; by rewrite Hp.
Qed.

Lemma emitIfFound_frame wid st :
  whatsapps (emitIfFound wid st) = whatsapps st ∧
  pendingCredsSaves (emitIfFound wid st) = pendingCredsSaves st ∧
  credsDebounceTimers (emitIfFound wid st) = credsDebounceTimers st ∧
  credsObjects (emitIfFound wid st) = credsObjects st.
Proof. unfold emitIfFound. by destruct (whatsapps st !! wid). Qed.

(** X9.  A close event that reports a logout ("Intentional Logout", or
    status code 401) puts the row in status DISCONNECTED with no QR code
    and no retries, and leaves the stored session as it is.  When a
    credentials write is pending at that time, the write is made after
    that, by [removeSession]: the row ends in status CONNECTED and holds
    the credentials. *)
Theorem close_after_logout_row wid u st row :
  connection u = Some "close" →
  errorMessageOf u = "Intentional Logout" ∨ statusCodeOf u = Some loggedOut →
  whatsapps st !! wid = Some row →
  whatsapps (onConnectionUpdate wid u st) !! wid =
    Some match pendingCredsSaves st !! wid with
         | Some (w, r) =>
             if decide (w = wid)
             then mkWhatsapp (credsObjects st r) "CONNECTED" "" 0
             else mkWhatsapp (session row) "DISCONNECTED" "" 0
         | None => mkWhatsapp (session row) "DISCONNECTED" "" 0
         end.
Proof.
  intros Hclose Hreason Hrow. unfold onConnectionUpdate.
  rewrite decide_True by done.
  set (st1 := whatsappUpdate wid disconnectedPatch st).
  assert (Hrow1 : whatsapps st1 !! wid =
                  Some (mkWhatsapp (session row) "DISCONNECTED" "" 0)).
  { cbn. by rewrite lookup_alter_eq, Hrow. }
  assert (Hgoal : ∀ st3,
    whatsapps st3 = whatsapps st1 →
    pendingCredsSaves st3 = pendingCredsSaves st →
    credsDebounceTimers st3 = credsDebounceTimers st →
    credsObjects st3 = credsObjects st →
    whatsapps (removeSession wid st3) !! wid =
      Some match pendingCredsSaves st !! wid with
           | Some (w, r) =>
               if decide (w = wid)
               then mkWhatsapp (credsObjects st r) "CONNECTED" "" 0
               else mkWhatsapp (session row) "DISCONNECTED" "" 0
           | None => mkWhatsapp (session row) "DISCONNECTED" "" 0
           end).
  { intros st3 E1 E2 E3 E4. unfold removeSession. cbn [emit whatsapps].
    unfold flushPendingCredsSave. rewrite E3.
    destruct (credsDebounceTimers st !! wid) as [k|]; cbn; rewrite E2;
      (destruct (pendingCredsSaves st !! wid) as [[w r]|]; cbn;
       [|by rewrite E1]);
      rewrite E1, E4; (case_decide as Hw;
        [subst w; by rewrite lookup_alter_eq, Hrow1
        |by rewrite lookup_alter_ne, Hrow1]). }
  destruct (emitIfFound_frame wid st1) as (F1 & F2 & F3 & F4).
  destruct Hreason as [Hmsg|Hcode].
  - rewrite decide_True by done. apply Hgoal; cbn; by rewrite ?F1, ?F2, ?F3, ?F4.
  - case_decide.
    + apply Hgoal; cbn; by rewrite ?F1, ?F2, ?F3, ?F4.
    + rewrite decide_True by done.
      apply Hgoal; by rewrite ?F1, ?F2, ?F3, ?F4.
Qed.

Lemma close_after_logout_row_witness :
  status <$>
    whatsapps
      (run [CredsChanged 0 "{new}"; CredsUpdate 1 0;
            ConnectionEvent 1 loggedOutClose] (initial linkedRows)) !! 1 =
  Some "CONNECTED".
Proof.
  change (run _ (initial linkedRows)) with
    (onConnectionUpdate 1 loggedOutClose
       (run [CredsChanged 0 "{new}"; CredsUpdate 1 0] (initial linkedRows))).
  rewrite (close_after_logout_row 1 loggedOutClose
             (run [CredsChanged 0 "{new}"; CredsUpdate 1 0]
                  (initial linkedRows))
             (mkWhatsapp "{old}" "CONNECTED" "" 0)
             eq_refl (or_intror eq_refl) eq_refl).
  reflexivity.
Defined.

Lemma fire_row_other wid k t st :
  t_whatsapp t ≠ wid →
  whatsapps (fire (k, t) st) !! wid = whatsapps st !! wid.
Proof. intros Hne. cbn. by rewrite lookup_alter_ne. Qed.

Lemma advance_row_idle wid dt st :
  idle wid st → whatsapps (advance dt st) !! wid = whatsapps st !! wid.
Proof.
  intros (_ & _ & Hidle). unfold advance.
  set (st1 := setNow (now st + dt) st).
  change (whatsapps st) with (whatsapps st1).
  assert (Hdue : ∀ k t, (k, t) ∈ dueTimers st1 → t_whatsapp t ≠ wid).
  { intros k t Hin. apply elem_of_dueTimers in Hin as [Hk _]. eauto. }
  revert Hdue. generalize (dueTimers st1) as l. generalize st1 as s.
  intros s l. revert s. induction l as [|[k t] l IH]; intros s Hl; [done|].
  cbn [fold_left]. rewrite IH.
  - apply fire_row_other, (Hl k t), list_elem_of_here.
  - intros k' t' ?. apply (Hl k' t'). by apply list_elem_of_further.
Qed.

Lemma flush_row_is_Some wid w st :
  is_Some (whatsapps st !! w) →
  is_Some (whatsapps (flushPendingCredsSave wid st) !! w).
Proof.
  intros Hrow. unfold flushPendingCredsSave.
  destruct (credsDebounceTimers st !! wid); cbn;
    (destruct (pendingCredsSaves st !! wid) as [[w' r]|]; cbn; [|done]);
    by apply lookup_alter_is_Some.
Qed.

Lemma logout_row wid live st :
  is_Some (whatsapps st !! wid) →
  whatsapps (logout wid live st) !! wid =
    Some (mkWhatsapp "" "DISCONNECTED" "" 0).
Proof.
  intros Hrow. unfold logout.
  set (st1 := flushPendingCredsSave wid st).
  set (st2 := if live then emit (SocketLogout wid) st1 else st1).
  assert (H2 : is_Some (whatsapps st2 !! wid)).
  { subst st2. destruct live; by apply flush_row_is_Some. }
  assert (H3 : is_Some (whatsapps (removeSession wid st2) !! wid)).
  { unfold removeSession. cbn [emit whatsapps]. by apply flush_row_is_Some. }
  destruct H3 as [row3 H3]. rewrite H3. cbn [emit whatsapps].
  destruct (emitIfFound_frame wid
              (whatsappUpdate wid loggedOutPatch (removeSession wid st2)))
    as (-> & _).
  cbn [whatsappUpdate emit whatsapps]. by rewrite lookup_alter_eq, H3.
Qed.

Lemma logout_idle wid live st :
  debounce_inv st → idle wid (logout wid live st).
Proof.
  intros Hinv. apply idle_of_inv; [by apply logout_inv|..]; unfold logout.
  all: set (st2 := if live then emit (SocketLogout wid)
                                     (flushPendingCredsSave wid st)
                   else flushPendingCredsSave wid st).
  all: destruct (flush_clears wid st2) as [C1 C2].
  all: destruct (whatsapps (removeSession wid st2) !! wid);
    [destruct (emitIfFound_frame wid
                 (whatsappUpdate wid loggedOutPatch (removeSession wid st2)))
       as (_ & E1 & E2 & _)|].
  all: cbn [emit credsDebounceTimers pendingCredsSaves].
  all: rewrite ?E1, ?E2; unfold removeSession.
  all: by cbn [whatsappUpdate emit credsDebounceTimers pendingCredsSaves].
Qed.

(** X10.  [logout] leaves the row of the connection without session, in
    status DISCONNECTED, with no QR code and no retries, whatever write was
    pending before; and no timeout that runs later changes the row
    again. *)
Theorem logout_wipes_session (es : list Event) rows wid live dts :
  let st := run es (initial rows) in
  let st' := run (Advance <$> dts) (logout wid live st) in
  is_Some (rows !! wid) →
  whatsapps st' !! wid = Some (mkWhatsapp "" "DISCONNECTED" "" 0).
Proof.
  cbn zeta. intros Hrows.
  assert (Hinv : debounce_inv (run es (initial rows)))
    by apply run_debounce_inv, debounce_inv_initial.
  assert (Hrow : is_Some (whatsapps (run es (initial rows)) !! wid)).
  { clear Hinv. change rows with (whatsapps (initial rows)) in Hrows.
    revert Hrows. generalize (initial rows) as st.
    induction es as [|e es IH]; intros st Hst; [done|].
    cbn [run fold_left]. apply IH. clear IH.
    assert (Hflush : ∀ w s, is_Some (whatsapps s !! wid) →
              is_Some (whatsapps (flushPendingCredsSave w s) !! wid))
      by (intros; by apply flush_row_is_Some).
    assert (Hemit : ∀ e s, is_Some (whatsapps s !! wid) →
              is_Some (whatsapps (emit e s) !! wid))
      by (intros ? ? Hs; exact Hs).
    assert (Hfound : ∀ w s, is_Some (whatsapps s !! wid) →
              is_Some (whatsapps (emitIfFound w s) !! wid)).
    { intros w s. by destruct (emitIfFound_frame w s) as (-> & _). }
    assert (Hupd : ∀ w p s, is_Some (whatsapps s !! wid) →
              is_Some (whatsapps (whatsappUpdate w p s) !! wid))
      by (intros; by apply lookup_alter_is_Some).
    assert (Hadv : ∀ dt s, is_Some (whatsapps s !! wid) →
              is_Some (whatsapps (advance dt s) !! wid)).
    { intros dt s. unfold advance.
      generalize (dueTimers (setNow (now s + dt) s)) as l.
      change (whatsapps s) with (whatsapps (setNow (now s + dt) s)).
      generalize (setNow (now s + dt) s) as s1. intros s1 l. revert s1.
      induction l as [|[k t] l IHl]; intros s1 H1; [done|].
      cbn [fold_left]. apply IHl. by apply lookup_alter_is_Some. }
    assert (Hafter : ∀ w u s, is_Some (whatsapps s !! wid) →
              is_Some (whatsapps (afterClose w u s) !! wid)).
    { intros w u s Hs. unfold afterClose.
      assert (is_Some (whatsapps (if decide (connection u = Some "open")
                                  then onOpen w s else s) !! wid)).
      { case_decide; [|done]. unfold onOpen. auto. }
      destruct (qr u); [|done]. unfold onQr. auto. }
    destruct e as [r c|w r|dt|w|w u|w l]; cbn [handle].
    - exact Hst.
    - unfold debouncedSaveCreds, debouncedSaveCredsAfter.
      destruct (credsDebounceTimers st !! w); exact Hst.
    - auto.
    - auto.
    - unfold onConnectionUpdate, removeSession, sleep.
      repeat case_decide; auto 12.
    - unfold logout, removeSession.
      destruct (whatsapps _ !! w); destruct l; auto 12. }
  pose proof (logout_row wid live _ Hrow) as Hout.
  pose proof (logout_idle wid live _ Hinv) as Hidle.
  pose proof (logout_inv wid live _ Hinv) as Hinv'.
  revert Hout Hidle Hinv'.
  generalize (logout wid live (run es (initial rows))) as s.
  induction dts as [|dt dts IH]; intros s Hout Hidle Hinv'; [done|].
  cbn [fmap list_fmap run fold_left handle]. apply IH.
  - by rewrite advance_row_idle.
  - by apply advance_idle.
  - by apply advance_inv.
Qed.

Lemma logout_wipes_session_witness :
  whatsapps
    (run [Advance 5000]
       (logout 1 true
          (run [CredsChanged 0 "{new}"; CredsUpdate 1 0]
               (initial linkedRows)))) !! 1 =
  Some (mkWhatsapp "" "DISCONNECTED" "" 0).
Proof.
  apply (logout_wipes_session [CredsChanged 0 "{new}"; CredsUpdate 1 0]
           linkedRows 1 true [5000]).
  by eexists.
Defined.

End LogoutProofs.

(** ** Removal of a session from the registry *)

Section RegistryRemovalProofs.
Import Registry RegistryRemoval.

Lemma removeAllListeners_subset ev w e :
  e ∈ listeners (removeAllListeners ev w) → e ∈ listeners w.
Proof. cbn. rewrite !list_elem_of_In, filter_In. tauto. Qed.

Lemma removeAll_frame evs : ∀ w,
  let w' := fold_left (fun w' ev => removeAllListeners ev w') evs w in
  id w' = id w ∧ store w' = store w ∧ ended w' = ended w ∧
  (∀ e, e ∈ listeners w' → e ∈ listeners w) ∧
  (∀ e, e ∈ evs → e ∉ listeners w').
Proof.
  induction evs as [|ev evs IH]; intros w; cbn zeta.
  { split_and!; try done. intros e He. by apply elem_of_nil in He. }
  cbn [fold_left]. destruct (IH (removeAllListeners ev w)) as (? & ? & ? & Hs & Hn).
  split_and!; try done.
  - intros e He. by apply (removeAllListeners_subset ev), Hs.
  - intros e [->|He]%elem_of_cons; [|by apply Hn].
    intros Hin. by apply Hs, removeAllListeners_not_in in Hin.
Qed.

Lemma registry_removeSession_inv i st :
  registry_inv st → registry_inv (removeSession i st).
Proof.
  intros [Hl Hd Hr Hf]. unfold removeSession, removeEvict, removeTeardown.
  destruct (sessions st !! i) as [k|] eqn:E; cbn.
  - destruct (Hr _ _ E) as (w & Hw & Hid & Hen).
    destruct (removeAll_frame removedEvents w) as (Fi & Fs & Fe & Fsub & Fno).
    cbn zeta in *. split; cbn.
    + intros k' w' Hk' He. rewrite lookup_alter in Hk'. case_decide.
      * subst k'. rewrite Hw in Hk'. by simplify_eq/=.
      * specialize (Hl _ _ Hk' He). rewrite lookup_delete_ne; [done|].
        intros ?. congruence.
    + intros k' w' Hk' He. rewrite lookup_alter in Hk'. case_decide.
      * subst k'. rewrite Hw in Hk'. simplify_eq/=. split; [done|].
        cbn. apply Fno. apply list_elem_of_here.
      * eauto.
    + intros j k' Hj. rewrite lookup_delete in Hj. case_decide; [done|].
      destruct (Hr _ _ Hj) as (w' & Hw' & ? & ?). exists w'.
      split_and!; try done. rewrite lookup_alter_ne; [done|].
      intros <-. congruence.
    + intros k' Hk'. rewrite lookup_alter.
      case_decide; subst; rewrite Hf; done.
  - split; cbn.
    + intros k' w' Hk' He. specialize (Hl _ _ Hk' He).
      rewrite lookup_delete_ne; [done|]. intros ?. congruence.
    + done.
    + intros j k' Hj. rewrite lookup_delete in Hj. case_decide; [done|].
      eauto.
    + done.
Qed.

Lemma registry_init_inv i st : registry_inv st → registry_inv (init i st).
Proof.
  intros H. unfold init. cbn. apply initAttach_inv.
  by apply (initPrepare_inv i st).
Qed.

Lemma calls_inv cs st : registry_inv st → registry_inv (calls cs st).
Proof.
  revert st. induction cs as [|c cs IH]; intros st H; [done|].
  apply IH. destruct c; cbn [call]; auto using registry_init_inv, registry_removeSession_inv.
Qed.

(** X11.  After any sequence of [init] and [removeSession] calls that run
    one after the other, [removeSession] of a connection leaves nothing
    registered for it, neither a socket nor a store, and no socket of it
    that was not ended; the socket that was registered is ended and has
    none of the listeners that [init] put on it.  The registrations of
    other connections stay, and the registry is in order as before. *)
Theorem removeSession_unregisters (cs : list Call) (i : Z) :
  let st := calls cs initial in
  let st' := removeSession i st in
  registry_inv st' ∧
  sessions st' !! i = None ∧ stores st' !! i = None ∧ live i st' = ∅ ∧
  (∀ k, sessions st !! i = Some k →
        ∃ w, heap st' !! k = Some w ∧ ended w = true ∧
             ∀ ev, ev ∈ initListeners → ev ∉ listeners w) ∧
  (∀ j, j ≠ i → sessions st' !! j = sessions st !! j ∧
                stores st' !! j = stores st !! j).
Proof.
  cbn zeta.
  assert (Hinv : registry_inv (calls cs initial))
    by apply calls_inv, registry_inv_initial.
  pose proof (registry_removeSession_inv i _ Hinv) as Hinv'.
  set (st := calls cs initial) in *.
  assert (Hs : sessions (removeSession i st) !! i = None).
  { unfold removeSession. cbn. apply lookup_delete_eq. }
  split_and!.
  - done.
  - done.
  - unfold removeSession. cbn. apply lookup_delete_eq.
  - by apply live_unregistered.
  - intros k Hk. destruct Hinv as [_ _ Hr _].
    destruct (Hr _ _ Hk) as (w & Hw & _).
    unfold removeSession, removeEvict, removeTeardown. rewrite Hk. cbn.
    rewrite lookup_alter_eq, Hw. cbn. eexists. split; [done|].
    split; [done|]. intros ev Hev.
    destruct (removeAll_frame removedEvents w) as (_ & _ & _ & _ & Fno).
    apply Fno. unfold initListeners in Hev. unfold removedEvents.
    repeat (apply elem_of_cons in Hev as [->|Hev];
            [repeat constructor|]).
    by apply elem_of_nil in Hev.
  - intros j Hj. unfold removeSession, removeEvict. cbn.
    rewrite !lookup_delete_ne by done.
    unfold removeTeardown. by destruct (sessions st !! i).
Qed.

(** X12.  [removeSession] is not atomic.  When the second part of an
    [init] of the same connection runs at the suspension of
    [removeSession], the socket that this [init] registers is evicted by
    the rest of [removeSession] without being ended; after the next [init]
    of the connection two sockets of it are not ended. *)
Theorem removeSession_interleaved_with_init (st : State) (i : Z) (s : nat) :
  let st1 := removeTeardown i st in
  let st2 := initAttach i s st1 in
  let st3 := removeEvict i st2 in
  sessions st3 !! i = None ∧
  (∃ k w, heap st3 !! k = Some w ∧ id w = i ∧ ended w = false) ∧
  ∃ k1 k2 w1 w2,
    k1 ≠ k2 ∧
    heap (init i st3) !! k1 = Some w1 ∧ id w1 = i ∧ ended w1 = false ∧
    heap (init i st3) !! k2 = Some w2 ∧ id w2 = i ∧ ended w2 = false.
Proof.
  cbn zeta.
  set (st2 := initAttach i s (removeTeardown i st)).
  set (k := nextSocket (assertUnique i (removeTeardown i st))).
  assert (Hk : heap st2 !! k = Some (mkSession i (Some s) initListeners false))
    by apply lookup_insert_eq.
  assert (Hnext : nextSocket st2 = S k) by done.
  assert (Hnone : sessions (removeEvict i st2) !! i = None)
    by apply lookup_delete_eq.
  split_and!.
  - done.
  - by exists k, (mkSession i (Some s) initListeners false).
  - exists k, (S k), (mkSession i (Some s) initListeners false),
           (mkSession i (Some (nextStore st2)) initListeners false).
    assert (Hinit : heap (init i (removeEvict i st2)) =
              <[S k := mkSession i (Some (nextStore st2)) initListeners false]>
                (heap st2)).
    { unfold init, initPrepare, initAttach, assertUnique.
      cbn [sessions heap nextSocket nextStore stores]. rewrite Hnone.
      cbn [sessions heap nextSocket nextStore stores removeEvict].
      by rewrite Hnext. }
    rewrite Hinit. split_and!; [lia| |done|done| |done|done].
    + rewrite lookup_insert_ne by lia. done.
    + apply lookup_insert_eq.
Qed.

End RegistryRemovalProofs.

(** ** The session array of the whatsapp-web.js provider *)

Section WwebjsSessionsProofs.
Import WwebjsSessions.

Lemma findIndex_None i st :
  findIndex i st = None ↔ Some i ∉ idOf st <$> sessions st.
Proof.
  unfold findIndex. split.
  - intros H (k & Hk & Hin)%list_elem_of_fmap.
    apply fmap_None, list_find_None in H.
    by apply (proj1 (Forall_forall _ _) H k Hin).
  - intros H. apply fmap_None, list_find_None, Forall_forall.
    intros k Hin Hk. apply H, list_elem_of_fmap. by exists k.
Qed.

Lemma findIndex_Some i st idx :
  findIndex i st = Some idx →
  ∃ k, sessions st !! idx = Some k ∧ idOf st k = Some i.
Proof.
  unfold findIndex. intros ([j k] & H & ->)%fmap_Some.
  apply list_find_Some in H as (Hk & Hi & _). by exists k.
Qed.

Lemma sessions_inv_initial : sessions_inv initial.
Proof.
  split; cbn.
  - intros k Hk. by apply elem_of_nil in Hk.
  - intros k c i Hk. by rewrite lookup_empty in Hk.
  - constructor.
  - intros k _. apply lookup_empty.
Qed.

Lemma idOf_destroy st k k' :
  (alter destroy k (heap st) !! k') ≫= clientId = idOf st k'.
Proof.
  unfold idOf. rewrite lookup_alter. case_decide; [subst|done].
  by destruct (heap st !! k').
Qed.

Lemma wwebjs_removeSession_inv i st :
  sessions_inv st → sessions_inv (removeSession i st).
Proof.
  intros [Hids Hown Hnd Hf]. unfold removeSession.
  destruct (findIndex i st) as [idx|] eqn:E; [|done].
  destruct (sessions st !! idx) as [k|] eqn:Ek; [|done].
  assert (Hsub : ∀ x, x ∈ delete idx (sessions st) → x ∈ sessions st).
  { intros x Hx. by eapply list_elem_of_delete_inv. }
  split; cbn.
  - intros k' Hk'. destruct (Hids k' (Hsub _ Hk')) as (c & Hc & Hid).
    rewrite lookup_alter. case_decide; [subst k'|by exists c].
    rewrite Hc. by exists (destroy c).
  - intros k' c j Hk'. rewrite lookup_alter in Hk'. case_decide.
    + subst k'. destruct (heap st !! k) as [c0|] eqn:Ec; [|done].
      cbn in Hk'. injection Hk' as <-. cbn. by apply (Hown k).
    + by apply (Hown k').
  - unfold idOf. cbn.
    rewrite (list_fmap_ext _ (idOf st) (delete idx (sessions st)));
      [|intros ? ? _; apply idOf_destroy].
    eapply sublist_NoDup; [done|]. apply fmap_sublist, sublist_delete.
  - intros k' Hk'. rewrite lookup_alter.
    case_decide; subst; rewrite Hf; done.
Qed.

Lemma wwebjs_init_inv i st : sessions_inv st → sessions_inv (init i st).
Proof.
  intros H. pose proof (wwebjs_removeSession_inv i st H) as [Hids Hown Hnd Hf].
  unfold init. set (st1 := removeSession i st) in *.
  assert (Hnew : ∀ k, k ∈ sessions st1 → k ≠ nextClient st1).
  { intros k Hk ->. destruct (Hids _ Hk) as (c & Hc & _).
    rewrite Hf in Hc; [done|lia]. }
  split; cbn.
  - intros k Hk. rewrite lookup_insert_ne by (intros ?; by eapply Hnew).
    by apply Hids.
  - intros k c j Hk. rewrite lookup_insert in Hk. case_decide.
    + by simplify_eq/=.
    + by apply (Hown k).
  - rewrite (list_fmap_ext _ (idOf st1) (sessions st1)); [done|].
    intros idx k Hk. unfold idOf. cbn.
    rewrite lookup_insert_ne; [done|].
    intros ?. eapply Hnew; [|done]. by eapply list_elem_of_lookup_2.
  - intros k Hk. rewrite lookup_insert_ne by lia. apply Hf. lia.
Qed.

Lemma wwebjs_register_inv k st : sessions_inv st → sessions_inv (register k st).
Proof.
  intros [Hids Hown Hnd Hf]. unfold register.
  destruct (heap st !! k) as [wbot|] eqn:Ek; [|done].
  destruct (findIndex (owner wbot) st) eqn:E; [done|].
  apply findIndex_None in E.
  assert (Hk : k ∉ sessions st).
  { intros Hin. destruct (Hids _ Hin) as (c & Hc & Hid).
    apply E, list_elem_of_fmap. exists k. split; [|done].
    unfold idOf. rewrite Hc. cbn. congruence. }
  assert (Hsame : idOf (mkState
                    (<[k := mkClient (owner wbot) (Some (owner wbot))
                                     (destroyed wbot)]> (heap st))
                    (sessions st ++ [k]) (nextClient st)) <$> sessions st =
                  idOf st <$> sessions st).
  { apply list_fmap_ext. intros idx k' Hk'. unfold idOf. cbn.
    rewrite lookup_insert_ne; [done|]. intros <-.
    apply Hk. by eapply list_elem_of_lookup_2. }
  split; cbn.
  - intros k' [Hk'| ->%list_elem_of_singleton]%elem_of_app.
    + rewrite lookup_insert_ne by congruence. by apply Hids.
    + rewrite lookup_insert_eq. by eexists.
  - intros k' c j Hk'. rewrite lookup_insert in Hk'. case_decide.
    + simplify_eq/=. congruence.
    + by apply (Hown k').
  - rewrite fmap_app, Hsame. apply NoDup_app. split_and!; [done| |].
    + intros x Hx ->%list_elem_of_singleton. apply E.
      unfold idOf at 1 in Hx. cbn in Hx. by rewrite lookup_insert_eq in Hx.
    + cbn. apply NoDup_singleton.
  - intros k' Hk'. rewrite lookup_insert_ne; [by apply Hf|].
    intros <-. rewrite Hf in Ek; [done|lia].
Qed.

Lemma run_sessions_inv es st : sessions_inv st → sessions_inv (run es st).
Proof.
  revert st. induction es as [|e es IH]; intros st H; [done|].
  apply IH. destruct e; cbn [handle];
    auto using wwebjs_init_inv, wwebjs_register_inv, wwebjs_removeSession_inv.
Qed.

(** X13.  Whatever [init] and [removeSession] calls and "qr" and "ready"
    events of whatever clients happen, the array [sessions] of the
    whatsapp-web.js provider holds no two clients with the same connection
    id, every client in it carries the id of the connection it was made
    for, and [getWbot] answers for exactly the ids in the array. *)
Theorem wwebjs_sessions_one_per_id (es : list Event) :
  let st := run es initial in
  NoDup (Wwebjs.sessionId <$> view st) ∧
  Forall (fun s => is_Some (Wwebjs.sessionId s)) (view st) ∧
  ∀ whatsappId,
    match Wwebjs.getWbot (view st) whatsappId with
    | Returned wbot =>
        Wwebjs.sessionId wbot = Some whatsappId ∧ wbot ∈ view st
    | Thrown e =>
        e = App (appError "ERR_WAPP_NOT_INITIALIZED") ∧
        Wwebjs.mkSession (Some whatsappId) ∉ view st
    end.
Proof.
  cbn zeta.
  destruct (run_sessions_inv es initial sessions_inv_initial)
    as [Hids Hown Hnd Hf].
  set (st := run es initial) in *. split_and!.
  - unfold view. rewrite <-list_fmap_compose.
    by rewrite (list_fmap_ext _ (idOf st) (sessions st)).
  - unfold view. apply Forall_fmap, Forall_forall. intros k Hk. cbn.
    destruct (Hids k Hk) as (c & Hc & Hid). unfold idOf. rewrite Hc.
    by eexists.
  - intros i. unfold Wwebjs.getWbot.
    destruct (List.find _ (view st)) as [wbot|] eqn:E.
    + apply find_some in E as [Hin Hb].
      apply bool_decide_eq_true in Hb.
      split; [done|]. by apply list_elem_of_In.
    + split; [done|]. intros Hin%list_elem_of_In.
      apply (find_none _ _ E) in Hin. cbn in Hin.
      by rewrite bool_decide_eq_true_2 in Hin.
Qed.

Lemma onAuthFailure_row w :
  onAuthFailure w =
  if decide (1 < Creds.retries w)
  then Creds.mkWhatsapp "" "DISCONNECTED" (Creds.qrcode w) 1
  else Creds.mkWhatsapp (Creds.session w) "DISCONNECTED" (Creds.qrcode w)
                        (Creds.retries w + 1).
Proof. unfold onAuthFailure. by case_decide. Qed.

(** X14.  Counting from a row without retries, the stored session
    outlives two authentication failures in a row and is cleared by the
    third; the retry counter then stays at 1 or 2.  After each failure the
    row is in status DISCONNECTED, and the QR code is left as it was. *)
Theorem wwebjs_third_auth_failure_clears_session (n : nat) w :
  Creds.retries w = 0 →
  let w' := Nat.iter n onAuthFailure w in
  Creds.session w' = (if decide (n ≤ 2)%nat then Creds.session w else "") ∧
  Creds.retries w' =
    (if decide (n ≤ 2)%nat then Z.of_nat n
     else if Nat.odd n then 1 else 2) ∧
  Creds.qrcode w' = Creds.qrcode w ∧
  Creds.status w' = (if decide (n = 0)%nat then Creds.status w
                     else "DISCONNECTED").
Proof.
  intros Hr. cbn zeta. induction n as [|n IH].
  { cbn. by rewrite Hr. }
  change (Nat.iter (S n) onAuthFailure w)
    with (onAuthFailure (Nat.iter n onAuthFailure w)).
  destruct IH as (Hs & Hn & Hq & _).
  rewrite onAuthFailure_row. rewrite Nat.odd_succ, <-Nat.negb_odd.
  repeat case_decide; cbn; rewrite ?Hs, ?Hq, ?Hn in *;
    try lia; try done.
  all: try (split_and!; try done; lia).
  all: destruct (Nat.odd n) eqn:Eo; cbn in *; try lia; try done.
  all: assert (n = 2)%nat as -> by lia; done.
Qed.

Lemma wwebjs_third_auth_failure_clears_session_witness :
  Creds.session
    (Nat.iter 3 onAuthFailure (Creds.mkWhatsapp "{old}" "CONNECTED" "" 0)) =
  "" ∧
  Creds.session
    (Nat.iter 2 onAuthFailure (Creds.mkWhatsapp "{old}" "CONNECTED" "" 0)) =
  "{old}".
Proof.
  split.
  - exact (proj1 (wwebjs_third_auth_failure_clears_session
                    3 (Creds.mkWhatsapp "{old}" "CONNECTED" "" 0) eq_refl)).
  - reflexivity.
Defined.

End WwebjsSessionsProofs.

(** ** The services that call the provider *)

Section ServicesProofs.
Import Services.

(** X15.  With either provider, [SendWhatsAppMessage] returns what the
    provider returned, after setting the last message of the ticket to the
    body as given; a ticket without connection is reported as
    ERR_TICKET_NO_WHATSAPP and every other failure, of the provider or of
    the update of the ticket, as ERR_SENDING_WAPP_MSG.
    [SendWhatsAppMedia] reports every failure, also a ticket without
    connection, as ERR_SENDING_WAPP_MSG, and deletes the uploaded file
    exactly when it returns. *)
Theorem send_services_report_sending_error
    {World Sent : Type} `{!WhatsappProvider World Sent}
    (world : World) formatBody body ticket quotedMsg ticketUpdate
    media caption unlink :
  match SendWhatsAppMessage world formatBody body ticket quotedMsg
                            ticketUpdate with
  | (_, effects, Returned p) =>
      ∃ wid options,
        truthyId (whatsappId ticket) = Some wid ∧
        (providerSendMessage world wid (chatIdOf ticket) (formatBody body)
                             options).2 = Returned p ∧
        effects = [TicketLastMessage body]
  | (_, effects, Thrown e) =>
      effects = [] ∧
      e = match truthyId (whatsappId ticket) with
          | Some _ => sendingError
          | None => App (appError "ERR_TICKET_NO_WHATSAPP")
          end
  end ∧
  match SendWhatsAppMedia world formatBody media ticket caption
                          ticketUpdate unlink with
  | (_, effects, Returned p) =>
      effects = [TicketLastMessage (Js.orElse caption (fileFilename media));
                 Unlink (filePath media)]
  | (_, effects, Thrown e) =>
      e = sendingError ∧ Unlink (filePath media) ∉ effects
  end.
Proof.
  split.
  - unfold SendWhatsAppMessage.
    destruct (truthyId (whatsappId ticket)) as [wid|]; [|done].
    destruct (providerSendMessage _ _ _ _ _) as [sent [p|e]] eqn:E;
      [|done].
    destruct ticketUpdate; [|done].
    eexists _, _. split; [done|]. by rewrite E.
  - unfold SendWhatsAppMedia.
    destruct (truthyId (whatsappId ticket)) as [wid|].
    2:{ split; [done|]. by intros ?%elem_of_nil. }
    destruct (providerSendMedia _ _ _ _ _) as [sent [p|e]].
    2:{ split; [done|]. by intros ?%elem_of_nil. }
    destruct ticketUpdate.
    2:{ split; [done|]. by intros ?%elem_of_nil. }
    destruct unlink; [done|]. split; [done|].
    intros [?|?%elem_of_nil]%elem_of_cons; done.
Qed.

(** X16.  Through the whaileys provider, a message that
    [SendWhatsAppMessage] sends goes to the network once, as the formatted
    text, to [number@s.whatsapp.net] for a contact and to [number@g.us]
    for a group; a quoted message is named by its id; what is returned
    carries ack 1. *)
Theorem whaileys_SendWhatsAppMessage_jid
    (world : WhaileysWorld) formatBody body ticket quotedMsg ticketUpdate
    sent effects p :
  SendWhatsAppMessage world formatBody body ticket quotedMsg ticketUpdate =
    (sent, effects, Returned p) →
  ∃ context,
    sent = [Whaileys.mkNetworkSend
              (contactNumber ticket +:+
               (if isGroup ticket then "@g.us" else "@s.whatsapp.net"))
              (Whaileys.Text (formatBody body) context)] ∧
    (Whaileys.stanzaId <$> context) =
      Whaileys.truthy (quotedId <$> quotedMsg) ∧
    pm_ack p = Some 1 ∧ pm_body p = formatBody body.
Proof.
  unfold SendWhatsAppMessage.
  destruct (truthyId (whatsappId ticket)) as [wid|]; [|done].
  cbn [providerSendMessage WhaileysProvider].
  assert (Hjid : Whaileys.normalizeJid (chatIdOf ticket) =
                 contactNumber ticket +:+
                 (if isGroup ticket then "@g.us" else "@s.whatsapp.net")).
  { unfold chatIdOf. destruct (isGroup ticket).
    - apply normalizeJid_g_us.
    - apply normalizeJid_c_us. }
  unfold Whaileys.sendMessage.
  destruct (Whaileys.getWbot _ _) as [wbot|e]; [|done].
  rewrite Hjid. cbn [mbind option_bind Whaileys.quotedMessageId].
  destruct (whaileysReply world) as [sentMsg|e].
  2:{ by destruct (Whaileys.truthy (quotedId <$> quotedMsg)). }
  destruct (Whaileys.truthy (quotedId <$> quotedMsg)) as [q|] eqn:Eq;
    (destruct (Whaileys.truthy (sentMsg ≫= _)) as [sentId|]; [|done]);
    (destruct sentMsg as [m|]; [|done]);
    (destruct ticketUpdate; [|done]);
    intros [= <- <- <-]; eexists; split_and!; done.
Qed.

Lemma whaileys_SendWhatsAppMessage_jid_witness :
  ∃ context p,
    SendWhatsAppMessage oneSessionWorld (fun b => b) "hello" aliceTicket None
                        (Returned tt) =
      ([Whaileys.mkNetworkSend "5511999999999@s.whatsapp.net"
          (Whaileys.Text "hello" context)],
       [TicketLastMessage "hello"], Returned p) ∧
    pm_ack p = Some 1.
Proof.
  destruct (whaileys_SendWhatsAppMessage_jid
              oneSessionWorld (fun b => b) "hello" aliceTicket None
              (Returned tt) _ _ _ eq_refl)
    as (context & Hsent & _ & Hack & _).
  exists context. eexists. split; [|exact Hack].
  vm_compute in Hsent. injection Hsent as <-. reflexivity.
Defined.

(** X17.  A number without account makes [CheckIsValidContact] fail with
    ERR_WAPP_CHECK_CONTACT under the whaileys provider, whose [checkNumber]
    throws for such a number, and with ERR_WAPP_INVALID_CONTACT under the
    whatsapp-web.js provider, whose [checkNumber] returns the empty
    text.  Under either provider the service returns or fails with one of
    these two errors. *)
Theorem CheckIsValidContact_unregistered_number
    (whaileys : WhaileysWorld) (wwebjs : WwebjsWorld)
    wid number wbot client answers :
  whaileysSessions whaileys !! wid = Some wbot →
  whaileysOnWhatsApp whaileys (Js.onlyDigits number) = Returned answers →
  (∀ r, head answers = Some r → Whaileys.exists_ r = false) →
  Wwebjs.getWbot (wwebjsSessions wwebjs) wid = Returned client →
  wwebjsGetNumberId wwebjs (number +:+ "@c.us") = Returned None →
  CheckIsValidContact whaileys (Returned wid) number =
    Thrown (App (appError "ERR_WAPP_CHECK_CONTACT")) ∧
  CheckIsValidContact wwebjs (Returned wid) number =
    Thrown (App (appError "ERR_WAPP_INVALID_CONTACT")) ∧
  ∀ {World Sent : Type} `{!WhatsappProvider World Sent} (world : World) n,
    CheckIsValidContact world (Returned wid) n ∈
      [Returned tt; Thrown (App (appError "ERR_WAPP_INVALID_CONTACT"));
       Thrown (App (appError "ERR_WAPP_CHECK_CONTACT"))].
Proof.
  intros Hs Hnet Hno Hc Hid. split_and!.
  - unfold CheckIsValidContact.
    cbn [providerCheckNumber WhaileysProvider].
    unfold Whaileys.checkNumber, Whaileys.getWbot. rewrite Hs, Hnet.
    destruct (head answers) as [r|] eqn:Er; [|done].
    by rewrite (Hno r eq_refl).
  - unfold CheckIsValidContact.
    cbn [providerCheckNumber WhatsappWebJsProvider].
    unfold Wwebjs.checkNumber. by rewrite Hc, Hid.
  - intros World Sent ? world n. unfold CheckIsValidContact.
    destruct (providerCheckNumber world wid n) as [v|e];
      repeat case_decide; repeat constructor.
Qed.

Lemma CheckIsValidContact_unregistered_number_witness :
  CheckIsValidContact oneSessionWorld (Returned 1) "+55 11 99999-9999" =
    Thrown (App (appError "ERR_WAPP_CHECK_CONTACT")) ∧
  CheckIsValidContact oneClientWorld (Returned 1) "+55 11 99999-9999" =
    Thrown (App (appError "ERR_WAPP_INVALID_CONTACT")).
Proof.
  destruct (CheckIsValidContact_unregistered_number
              oneSessionWorld oneClientWorld 1 "+55 11 99999-9999"
              (Whaileys.mkSession (Some "5511888888888@s.whatsapp.net"))
              (Wwebjs.mkSession (Some 1)) []
              eq_refl eq_refl ltac:(discriminate) eq_refl eq_refl)
    as (H1 & H2 & _).
  by split.
Defined.

End ServicesProofs.

(** ** The contact table under every request *)

Section ContactTableProofs.
Import Contacts.

Lemma same_id_same_row st c x :
  store_wf st → c ∈ contacts st → x ∈ contacts st → id c = id x → c = x.
Proof.
  intros [Hi _ _ _]. induction (contacts st) as [|a cs IH]; intros Hc Hx E.
  { by apply elem_of_nil in Hc. }
  cbn in Hi. apply NoDup_cons in Hi as [Ha Hi].
  apply elem_of_cons in Hc as [->|Hc]; apply elem_of_cons in Hx as [->|Hx].
  - done.
  - destruct Ha. rewrite E. apply list_elem_of_fmap. by exists x.
  - destruct Ha. rewrite <-E. apply list_elem_of_fmap. by exists c.
  - by apply IH.
Qed.

Lemma updateRow_ids_on k f cs :
  (∀ c, c ∈ cs → id c = k → id (f c) = id c) →
  id <$> updateRow k f cs = id <$> cs.
Proof.
  intros Hf. unfold updateRow. rewrite <-list_fmap_compose.
  apply list_fmap_ext. intros i c Hc. cbn.
  case_decide; [|done]. apply Hf; [|done]. by eapply list_elem_of_lookup_2.
Qed.

(** Updating the row of [x] so that a number or lid that it gets is one
    that no other row has. *)
Lemma update_wf x f st st' :
  store_wf st → x ∈ contacts st →
  contacts st' = updateRow (id x) f (contacts st) →
  nextId st' = nextId st →
  id (f x) = id x →
  (∀ n, number (f x) = Some n →
        ∀ c, c ∈ contacts st → number c = Some n → id c = id x) →
  (∀ l, lid (f x) = Some l →
        ∀ c, c ∈ contacts st → lid c = Some l → id c = id x) →
  store_wf st'.
Proof.
  intros Hwf Hin Ec En Hfid Hfn Hfl.
  assert (Hrows : ∀ c', c' ∈ contacts st' →
            c' = f x ∨ (c' ∈ contacts st ∧ id c' ≠ id x)).
  { intros c' Hc'. rewrite Ec in Hc'.
    apply elem_of_updateRow in Hc' as (c & Hc & ->). case_decide; [left|by right].
    by rewrite (same_id_same_row st c x). }
  destruct Hwf as [Hi Hx Hn Hl]. split.
  - rewrite Ec. rewrite updateRow_ids_on; [done|].
    intros c Hc E. by rewrite (same_id_same_row st c x) by (done || by split).
  - intros c' [->|[Hc' _]]%Hrows; rewrite En; [rewrite Hfid|]; auto.
  - intros c1 c2 n [->|[H1 N1]]%Hrows [->|[H2 N2]]%Hrows E1 E2.
    + done.
    + rewrite Hfid. symmetry. by apply (Hfn n E1).
    + rewrite Hfid. by apply (Hfn n E2).
    + by apply (Hn c1 c2 n).
  - intros c1 c2 l [->|[H1 N1]]%Hrows [->|[H2 N2]]%Hrows E1 E2.
    + done.
    + rewrite Hfid. symmetry. by apply (Hfl l E1).
    + rewrite Hfid. by apply (Hfl l E2).
    + by apply (Hl c1 c2 l).
Qed.

(** A row that was stored before, up to its number, lid and picture. *)
Lemma update_case x f st ts a :
  store_wf st → x ∈ contacts st →
  (∀ c, id (f c) = id c ∧ name (f c) = name c ∧ email (f c) = email c ∧
        isGroup (f c) = isGroup c) →
  (∀ n, number (f x) = Some n →
        ∀ c, c ∈ contacts st → number c = Some n → id c = id x) →
  (∀ l, lid (f x) = Some l →
        ∀ c, c ∈ contacts st → lid c = Some l → id c = id x) →
  let st' := emit a (f x)
               (mkStore (updateRow (id x) f (contacts st)) ts (nextId st)
                        (emitted st)) in
  store_wf st' ∧ f x ∈ contacts st' ∧
  ∀ c, c ∈ contacts st' →
       ∃ c0, c0 ∈ contacts st ∧ id c0 = id c ∧ name c0 = name c ∧
             email c0 = email c ∧ isGroup c0 = isGroup c.
Proof.
  intros Hwf Hx Hf Hn Hl. cbn zeta. split_and!.
  - apply (update_wf x f st); try done. apply Hf.
  - cbn. apply elem_of_updateRow. exists x. by rewrite decide_True.
  - cbn. intros c (c0 & Hc0 & ->)%elem_of_updateRow. exists c0.
    case_decide; [|done]. destruct (Hf c0) as (-> & -> & -> & ->). done.
Qed.

Lemma whenTruthy_number n cs c :
  whenTruthy (Some n) (fun n => findByNumber n cs) = Some c →
  n ≠ "" ∧ c ∈ cs ∧ number c = Some n.
Proof.
  cbn. case_decide; [done|]. intros Hf%findByNumber_Some. tauto.
Qed.

Lemma whenTruthy_number_None n cs :
  whenTruthy (Some n) (fun n => findByNumber n cs) = None →
  n = "" ∨ ∀ c, c ∈ cs → number c ≠ Some n.
Proof.
  cbn. case_decide; [by left|]. intros Hf. right.
  by apply findByNumber_None.
Qed.

Lemma whenTruthy_lid lid cs c :
  whenTruthy lid (fun l => findByLid l cs) = Some c →
  ∃ l, lid = Some l ∧ l ≠ "" ∧ c ∈ cs ∧ Contacts.lid c = Some l.
Proof.
  destruct lid as [l|]; cbn; [|done]. case_decide; [done|].
  intros Hf%findByLid_Some. exists l. tauto.
Qed.

Lemma whenTruthy_lid_None lid cs :
  whenTruthy lid (fun l => findByLid l cs) = None →
  (∀ b, orColumn lid b = b) ∨
  ∃ l, lid = Some l ∧ l ≠ "" ∧ ∀ c, c ∈ cs → Contacts.lid c ≠ Some l.
Proof.
  destruct lid as [l|]; cbn; [|by left]. case_decide.
  - by left.
  - intros Hf. right. exists l. split_and!; [done..|].
    by apply findByLid_None.
Qed.

(** X20.  For every request, [CreateOrUpdateContactService] leaves the
    table well formed: keys distinct, numbers unique, lids unique.  A
    contact that it returns is stored; when it throws, the table is as it
    was.  No stored contact gets another name, e-mail or group flag: every
    row afterwards is a row from before, up to number, lid and picture, or
    the row just created under the name of the request. *)
Theorem contact_upsert_keeps_table (req : Request) (st : Store) :
  store_wf st →
  let out := CreateOrUpdateContactService req st in
  store_wf out.2 ∧
  match out.1 with
  | Returned c => c ∈ contacts out.2
  | Thrown _ => out.2 = st
  end ∧
  ∀ c, c ∈ contacts out.2 →
    (∃ c0, c0 ∈ contacts st ∧ id c0 = id c ∧ name c0 = name c ∧
           email c0 = email c ∧ isGroup c0 = isGroup c) ∨
    (id c = nextId st ∧ name c = r_name req ∧ out.1 = Returned c).
Proof.
  intros Hwf. cbn zeta. unfold CreateOrUpdateContactService.
  set (n := if r_isGroup req then r_number req
            else Js.onlyDigits (r_number req)).
  assert (Hold : ∀ c, c ∈ contacts st →
            ∃ c0, c0 ∈ contacts st ∧ id c0 = id c ∧ name c0 = name c ∧
                  email c0 = email c ∧ isGroup c0 = isGroup c)
    by (intros c ?; by exists c).
  destruct (bool_decide (n = "") &&
            bool_decide (orColumn (r_lid req) None = None)).
  { cbn. split_and!; [done..|]. intros c Hc. left. by apply Hold. }
  assert (HsetLid : ∀ l p c,
            id (setLid l p c) = id c ∧ name (setLid l p c) = name c ∧
            email (setLid l p c) = email c ∧
            isGroup (setLid l p c) = isGroup c) by done.
  assert (HsetNumber : ∀ m p c,
            id (setNumber m p c) = id c ∧ name (setNumber m p c) = name c ∧
            email (setNumber m p c) = email c ∧
            isGroup (setNumber m p c) = isGroup c) by done.
  destruct (whenTruthy (Some n) _) as [N|] eqn:EN;
    destruct (whenTruthy (r_lid req) _) as [L|] eqn:EL.
  - apply whenTruthy_number in EN as (Hn & HN & HNn).
    apply whenTruthy_lid in EL as (l & El & Hl & HL & HLl).
    case_decide as Hne.
    + (* two rows are merged *)
      set (st0 := mkStore (destroyRow (id L) (contacts st)) (tickets st)
                          (nextId st) (emitted st)).
      assert (Hwf0 : store_wf st0) by by apply (destroy_wf (id L) st).
      destruct (update_case N (setLid (lid L) (r_profilePicUrl req)) st0
                  (reassignTickets (id L) (id N) (tickets st)) "update")
        as (Hwf' & Hin & Hrows); try done.
      * by apply elem_of_destroyRow.
      * cbn. intros m Hm c [_ Hc]%elem_of_destroyRow Hcm.
        by apply (wf_number _ Hwf c N m).
      * cbn. intros m Hm c [Hcne Hc]%elem_of_destroyRow Hcm.
        destruct Hcne. apply (wf_lid _ Hwf c L m); congruence.
      * cbn [fst snd]. split_and!; [done..|].
        intros c Hc. left. destruct (Hrows c Hc) as (c0 & Hc0 & ?).
        exists c0. split; [|done]. by apply elem_of_destroyRow in Hc0 as [_ ?].
    + (* one row carries both *)
      assert (id N = id L) as Heq by (destruct (decide (id N = id L)); tauto).
      assert (N = L) as <- by by apply (same_id_same_row st).
      destruct (update_case N
                  (setLid (orColumn (r_lid req) (lid N)) (r_profilePicUrl req))
                  st (tickets st) "update")
        as (Hwf' & Hin & Hrows); try done.
      * cbn. intros m Hm c Hc Hcm. by apply (wf_number _ Hwf c N m).
      * cbn. rewrite El. cbn. rewrite decide_False by done.
        intros m [= <-] c Hc Hcm. by apply (wf_lid _ Hwf c N l).
      * cbn [fst snd]. split_and!; [done..|]. intros c Hc. left. auto.
  - apply whenTruthy_number in EN as (Hn & HN & HNn).
    destruct (update_case N
                (setLid (orColumn (r_lid req) (lid N)) (r_profilePicUrl req))
                st (tickets st) "update")
      as (Hwf' & Hin & Hrows); try done.
    + cbn. intros m Hm c Hc Hcm. by apply (wf_number _ Hwf c N m).
    + cbn. intros m Hm c Hc Hcm.
      apply whenTruthy_lid_None in EL as [Hor|(l & El & Hl & Hnone)].
      * rewrite Hor in Hm. by apply (wf_lid _ Hwf c N m).
      * rewrite El in Hm. cbn in Hm. rewrite decide_False in Hm by done.
        injection Hm as <-. by destruct (Hnone c Hc).
    + cbn [fst snd]. split_and!; [done..|]. intros c Hc. left. auto.
  - apply whenTruthy_lid in EL as (l & El & Hl & HL & HLl).
    destruct (update_case L
                (setNumber (orColumn (Some n) (number L))
                           (r_profilePicUrl req))
                st (tickets st) "update")
      as (Hwf' & Hin & Hrows); try done.
    + cbn. intros m Hm c Hc Hcm.
      apply whenTruthy_number_None in EN as [->|Hnone].
      * by apply (wf_number _ Hwf c L m).
      * case_decide; [by apply (wf_number _ Hwf c L m)|].
        injection Hm as <-. by destruct (Hnone c Hc).
    + cbn. intros m Hm c Hc Hcm. by apply (wf_lid _ Hwf c L m).
    + cbn [fst snd]. split_and!; [done..|]. intros c Hc. left. auto.
  - case_bool_decide as Hdup.
    { cbn. split_and!; [done..|]. intros c Hc. left. by apply Hold. }
    cbn [fst snd emit contacts nextId].
    assert (Hfree : ∀ c, c ∈ contacts st →
              number c ≠ Some n ∧
              (is_Some (r_lid req) → lid c ≠ r_lid req)).
    { intros c Hc. split.
      - intros E. apply Hdup, Exists_exists. exists c. split; [done|by left].
      - intros Hsome E. apply Hdup, Exists_exists. exists c.
        split; [done|by right]. }
    destruct Hwf as [Hi Hx Hnum Hlid]. split_and!.
    + split; cbn.
      * rewrite fmap_app. apply NoDup_app. split_and!; [done| |].
        -- intros k (c & -> & Hc)%list_elem_of_fmap E%list_elem_of_singleton.
           specialize (Hx c Hc). cbn in E. lia.
        -- cbn. apply NoDup_singleton.
      * intros c [Hc| ->%list_elem_of_singleton]%elem_of_app.
        -- specialize (Hx c Hc). lia.
        -- cbn. lia.
      * intros c1 c2 m [H1| ->%list_elem_of_singleton]%elem_of_app
                       [H2| ->%list_elem_of_singleton]%elem_of_app E1 E2.
        -- by apply (Hnum c1 c2 m).
        -- cbn in E2. destruct (Hfree c1 H1) as [F _]. congruence.
        -- cbn in E1. destruct (Hfree c2 H2) as [F _]. congruence.
        -- done.
      * intros c1 c2 m [H1| ->%list_elem_of_singleton]%elem_of_app
                       [H2| ->%list_elem_of_singleton]%elem_of_app E1 E2.
        -- by apply (Hlid c1 c2 m).
        -- cbn in E2. destruct (Hfree c1 H1) as [_ F].
           destruct F; [by rewrite E2|congruence].
        -- cbn in E1. destruct (Hfree c2 H2) as [_ F].
           destruct F; [by rewrite E1|congruence].
        -- done.
    + apply elem_of_app. right. apply list_elem_of_singleton. done.
    + intros c [Hc| ->%list_elem_of_singleton]%elem_of_app.
      * left. by apply Hold.
      * by right.
Qed.

Lemma contact_upsert_keeps_table_witness :
  store_wf (CreateOrUpdateContactService numberOnly twoIdentities).2 ∧
  name <$> (CreateOrUpdateContactService numberOnly twoIdentities).2.(contacts)
    = ["Ana"; "Ana L."].
Proof.
  split.
  - exact (proj1 (contact_upsert_keeps_table numberOnly twoIdentities
                    twoIdentities_wf)).
  - reflexivity.
Defined.

End ContactTableProofs.

(** ** Helpers of the message handler *)

Section HandlerProofs.
Import Handlers.

Lemma split_nonempty c s : Js.split c s ≠ [].
Proof.
  destruct s as [|a s]; [done|]. cbn. case_decide; [done|].
  by destruct (Js.split c s).
Qed.

Lemma split_no_separator c s :
  Js.includes (String c "") s = false → Js.split c s = [s].
Proof.
  induction s as [|a s IH]; [done|]. rewrite includes_char_cons.
  intros [Ha Hs]%orb_false_iff. apply bool_decide_eq_false in Ha.
  cbn. rewrite decide_False by congruence. by rewrite IH.
Qed.

Lemma split_app c s t :
  Js.split c (s +:+ String c t) = Js.split c s ++ Js.split c t.
Proof.
  induction s as [|a s IH].
  - change ("" +:+ String c t) with (String c t). cbn.
    by rewrite decide_True.
  - change (String a s +:+ String c t) with (String a (s +:+ String c t)).
    cbn [Js.split]. rewrite IH. case_decide; [done|].
    pose proof (split_nonempty c s). by destruct (Js.split c s).
Qed.

Lemma concat_cons_char sep a f fs :
  String.concat sep (String a f :: fs) = String a (String.concat sep (f :: fs)).
Proof. by destruct fs. Qed.

Lemma join_split c s : Js.join (String c "") (Js.split c s) = s.
Proof.
  unfold Js.join. induction s as [|a s IH]; [done|]. cbn [Js.split].
  pose proof (split_nonempty c s) as Hne. case_decide as Ha.
  - subst a. destruct (Js.split c s) as [|f fs] eqn:E; [done|].
    change (String.concat (String c "") ("" :: f :: fs))
      with (String c (String.concat (String c "") (f :: fs))).
    by rewrite IH.
  - destruct (Js.split c s) as [|f fs] eqn:E; [done|].
    by rewrite concat_cons_char, IH.
Qed.

Lemma allButLast_snoc {A} (l : list A) x : allButLast (l ++ [x]) = l.
Proof.
  unfold allButLast. rewrite length_app. cbn.
  replace (length l + 1 - 1)%nat with (length l) by lia.
  by rewrite take_app_length.
Qed.

Lemma saveMediaFile_dotted randomId now mediaPayload write stem extension :
  filename mediaPayload = stem +:+ "." +:+ extension →
  Js.includes "." extension = false →
  (saveMediaFile randomId now mediaPayload write).2 =
    Returned (stem +:+ "." +:+ randomId +:+ "." +:+ extension).
Proof.
  intros Hname Hext. unfold saveMediaFile.
  rewrite decide_False by (rewrite Hname; by destruct stem).
  rewrite Hname.
  change (stem +:+ "." +:+ extension)
    with (stem +:+ String "."%char extension).
  rewrite split_app, (split_no_separator _ _ Hext).
  rewrite allButLast_snoc, last_snoc, join_split. cbn [default].
  by destruct write.
Qed.

Lemma saveMediaFile_named randomId now mediaPayload write :
  filename mediaPayload ≠ "" →
  ∃ name, (saveMediaFile randomId now mediaPayload write).2 = Returned name.
Proof.
  intros Hne. unfold saveMediaFile. rewrite decide_False by done.
  destruct write; by eexists.
Qed.


Lemma onlyDigits_idempotent s : Js.onlyDigits (Js.onlyDigits s) = Js.onlyDigits s.
Proof.
  induction s as [|a s IH]; [done|]. cbn.
  destruct (Js.isDigit a) eqn:E; [|done]. cbn. by rewrite E, IH.
Qed.

(** X19.  For a message of type vcard [processVcardMessage] asks for one
    contact for each field, between colons, that has a "+" in it; the
    number handed over has digits only, and all contacts of one message
    get one and the same name.  For any other type it does nothing. *)
Theorem processVcardMessage_contacts type body :
  (type ≠ vcard → processVcardMessage type body = []) ∧
  ∃ contactName,
    Forall (fun e => ∃ number, e = CreateContact contactName number ∧
                               Js.onlyDigits number = number)
           (processVcardMessage type body).
Proof.
  unfold processVcardMessage. split.
  - intros Hne. by rewrite decide_False.
  - case_decide; [|by exists ""].
    destruct (fold_left vcardLine _ _) as [phoneNumbers contactName].
    exists contactName. apply Forall_fmap, Forall_forall.
    intros number _. cbn. eexists. split; [done|].
    apply onlyDigits_idempotent.
Qed.

(** X21.  The whaileys provider hands over a media payload exactly when
    the message has media and the download succeeded.  Such a payload has
    a file name and a mime type, so that [saveMediaFile] always answers a
    name for it; a voice or audio message is saved as
    [audio-<time>.<id>.ogg] and a sticker as [sticker-<time>.<id>.webp]. *)
Theorem whaileys_media_payload_is_named msg part download now :
  let out := WhaileysMedia.convertToMediaPayload msg part download now in
  (out = None ↔ Whaileys.hasMedia msg = false ∨ ∃ e, download = Thrown e) ∧
  ∀ payload, out = Some payload →
    filename payload ≠ "" ∧ mimetype payload ≠ "" ∧
    download = Returned (data payload) ∧
    ∀ randomId now' write,
      (∃ name, (saveMediaFile randomId now' payload write).2 =
               Returned name) ∧
      (Whaileys.typeOrEmpty msg = "audioMessage" →
       (saveMediaFile randomId now' payload write).2 =
         Returned ("audio-" +:+ now +:+ "." +:+ randomId +:+ ".ogg")) ∧
      (Whaileys.typeOrEmpty msg = "stickerMessage" →
       (saveMediaFile randomId now' payload write).2 =
         Returned ("sticker-" +:+ now +:+ "." +:+ randomId +:+ ".webp")).
Proof.
  cbn zeta. unfold WhaileysMedia.convertToMediaPayload.
  assert (HorElse : ∀ a b, b ≠ "" → Js.orElse a b ≠ "").
  { intros [a|] b Hb; cbn; [|done]. by case_decide. }
  destruct (Whaileys.hasMedia msg) eqn:Hmedia; cbn [negb].
  2:{ split; [split; auto|done]. }
  destruct download as [buffer|e].
  2:{ split; [split; eauto|done]. }
  unfold Whaileys.hasMedia, Whaileys.mediaTypes in Hmedia.
  apply bool_decide_eq_true in Hmedia.
  split.
  { split.
    - repeat case_decide; done.
    - intros [?|[e ?]]; done. }
  intros payload Hp.
  assert (Hcons : ∀ a s t, String a s +:+ t ≠ "") by done.
  assert (Hfile : ∀ a s t title,
            Js.orElse title (String a s +:+ t) ≠ "")
    by (intros; by apply HorElse).
  repeat (apply elem_of_cons in Hmedia as [Ht|Hmedia];
          [rewrite Ht in *;
           repeat (rewrite decide_False in Hp by done);
           rewrite decide_True in Hp by done;
           injection Hp as <-; cbn [filename mimetype data]|]);
    [..|by apply elem_of_nil in Hmedia].
  all: split_and!;
    [first [apply Hcons|apply Hfile]|by apply HorElse|done|].
  all: intros randomId now' write.
  all: split_and!;
    [apply saveMediaFile_named; first [apply Hcons|apply Hfile]|..];
    try (intros [=]).
  - apply (saveMediaFile_dotted _ _ _ _ ("audio-" +:+ now) "ogg"); [|done].
    cbn [filename]. by rewrite string_app_assoc.
  - apply (saveMediaFile_dotted _ _ _ _ ("sticker-" +:+ now) "webp"); [|done].
    cbn [filename]. by rewrite string_app_assoc.
Qed.

End HandlerProofs.
